(** * Sudoku solver core of [sudAug1925.py]: embedding and verification

    The development embeds the static methods of class [SudokuLogic]
    (validator, candidate engine, propagator and the two search strategies)
    and the methods of [SudokuApp] that compute on the grid (reading and
    writing the entries, the entry validator, the solution parser, saving
    and clearing a puzzle), and proves properties of them.  Part 1 is the
    embedding, Part 2 the vocabulary of the statements, Part 3 the proofs.

    Conventions of the embedding.
    - Python integers are [Z]; [//] is [Z.div] (both round towards minus
      infinity for a positive divisor).
    - [range(a, b)] is the list [range a b].
    - A Python [set] of integers is modelled by a list of its elements.  The
      set [used] of [candidates] is only tested for membership; the set the
      function returns is enumerated in increasing order without duplicates,
      so [len] is [length] and a one-element set is a one-element list.
    - The list [moves] is threaded through the functions that append to it.
    - The board is a mutable object.  Every function reads it through
      [board[r][c]] / [board[r]] and writes it through [board[r][c] = v];
      these accesses are the operations of the class [BoardOps], which has
      two instances: nested lists (the value of a board) and a store of row
      objects addressed by references (a board as Python holds it).
    - [while True] and the recursion of [bt] are driven by a step budget; the
      budget fixed in the definitions is shown to be never exhausted on a
      9x9 board.
    - Indexing outside a list raises [IndexError] in Python and a negative
      index counts from the end.  The code only indexes a 9x9 board with
      values of [range(9)]; the statements are about 9x9 boards, where
      neither happens.
    - Of the window, only the entry texts and the mask of the givens are
      modelled; colours, fonts, counters and the timer are not.  Texts are
      sequences of characters below 128. *)

From Stdlib Require Import Ascii String DecimalString.
From Stdlib Require Import ZArith List Bool Lia Permutation.
From Stdlib Require Sorted.
Import ListNotations.
Local Open Scope Z_scope.


(** * Part 1: the embedding *)

(** ** Python built-ins used by the code *)

Definition range (a b : Z) : list Z :=
  map (fun i => a + Z.of_nat i) (seq 0 (Z.to_nat (b - a))).

(** [range(a, b, 3)] *)
Definition range3 (a b : Z) : list Z :=
  map (fun i => a + 3 * Z.of_nat i) (seq 0 (Z.to_nat ((b - a + 2) / 3))).

Fixpoint insert_sorted (x : Z) (l : list Z) : list Z :=
  match l with
  | [] => [x]
  | y :: t => if x <=? y then x :: l else y :: insert_sorted x t
  end.

(** [sorted(l)] on integers: the ascending rearrangement of [l]. *)
Definition sorted (l : list Z) : list Z := fold_right insert_sorted [] l.

Fixpoint list_eqb (l1 l2 : list Z) : bool :=
  match l1, l2 with
  | [], [] => true
  | x :: t1, y :: t2 => (x =? y) && list_eqb t1 t2
  | _, _ => false
  end.

(** [v in s] *)
Definition mem (v : Z) (s : list Z) : bool := existsb (Z.eqb v) s.

(** [str(n)] *)
Definition str (n : Z) : string := NilZero.string_of_int (Z.to_int n).

(** The row-major double loop [for r in range(9): for c in range(9)]. *)
Definition grid_cells : list (Z * Z) :=
  flat_map (fun r => map (fun c => (r, c)) (range 0 9)) (range 0 9).

(** ** Trace entries *)

Definition msg_try (r c v : Z) : string :=
  ("Try r" ++ str (r + 1) ++ "c" ++ str (c + 1) ++ " = " ++ str v)%string.

Definition msg_backtrack (r c v : Z) : string :=
  ("Backtrack r" ++ str (r + 1) ++ "c" ++ str (c + 1)
     ++ " (reset from " ++ str v ++ " to 0)")%string.

Definition msg_singleton (r c v : Z) : string :=
  ("Singleton r" ++ str (r + 1) ++ "c" ++ str (c + 1) ++ " = " ++ str v)%string.

Definition msg_choose (r c v : Z) : string :=
  ("MRV choose r" ++ str (r + 1) ++ "c" ++ str (c + 1) ++ " try " ++ str v)%string.

(** ** Board accesses *)

Class BoardOps (B : Type) := {
  cell : B -> Z -> Z -> Z;          (* board[r][c] *)
  row_of : B -> Z -> list Z;        (* board[r] *)
  assign : B -> Z -> Z -> Z -> B;   (* board[r][c] = v *)
  deep_copy : B -> B                (* [row[:] for row in board] *)
}.

(** Number of nested [bt] calls and of propagation passes allowed: each one
    but the last fills at least one of the 81 cells. *)
Definition budget : nat := 82.

Section SudokuLogic.
Context {B : Type} `{BoardOps B}.

Definition Moves := list string.

Definition is_valid_move (board : B) (r c v : Z) : bool :=
  if v =? 0 then true
  else if existsb (fun x => cell board r x =? v)
            (filter (fun x => negb (x =? c)) (range 0 9)) then false
  else if existsb (fun x => cell board x c =? v)
            (filter (fun x => negb (x =? r)) (range 0 9)) then false
  else
    let br := (r / 3) * 3 in
    let bc := (c / 3) * 3 in
    negb (existsb (fun i =>
            existsb (fun j =>
              (negb (i =? r) || negb (j =? c)) && (cell board i j =? v))
              (range bc (bc + 3)))
            (range br (br + 3))).

Definition find_empty (board : B) : option (Z * Z) :=
  find (fun '(i, j) => cell board i j =? 0) grid_cells.

Definition candidates (board : B) (r c : Z) : list Z :=
  if negb (cell board r c =? 0) then []
  else
    let used := row_of board r in
    let used := used ++ map (fun x => cell board x c) (range 0 9) in
    let br := (r / 3) * 3 in
    let bc := (c / 3) * 3 in
    let used := used ++
      flat_map (fun i => map (fun j => cell board i j) (range bc (bc + 3)))
               (range br (br + 3)) in
    filter (fun v => negb (mem v used)) (range 1 10).

(** *** Strategy A *)

(** The loop [for v in range(1, 10)] of [bt]; [rec] is the recursive call. *)
Fixpoint bf_loop (rec : B -> Moves -> option (bool * B * Moves))
    (r c : Z) (vs : list Z) (board : B) (moves : Moves)
    : option (bool * B * Moves) :=
  match vs with
  | [] => Some (false, board, moves)
  | v :: vs' =>
      if is_valid_move board r c v then
        let moves := moves ++ [msg_try r c v] in
        let board := assign board r c v in
        match rec board moves with
        | None => None
        | Some (true, board, moves) => Some (true, board, moves)
        | Some (false, board, moves) =>
            let moves := moves ++ [msg_backtrack r c v] in
            let board := assign board r c 0 in
            bf_loop rec r c vs' board moves
        end
      else bf_loop rec r c vs' board moves
  end.

Fixpoint bf_bt (fuel : nat) (board : B) (moves : Moves)
    : option (bool * B * Moves) :=
  match fuel with
  | O => None
  | S fuel' =>
      match find_empty board with
      | None => Some (true, board, moves)
      | Some (r, c) => bf_loop (bf_bt fuel') r c (range 1 10) board moves
      end
  end.

(** The whole call, keeping the final working board also on failure. *)
Definition solve_bruteforce_run (board : B) (moves : Moves)
    : option (bool * B * Moves) :=
  let board := deep_copy board in
  bf_bt budget board moves.

(** [return board if bt() else None], with the trace. *)
Definition solve_bruteforce (board : B) (moves : Moves)
    : option (option B * Moves) :=
  match solve_bruteforce_run board moves with
  | None => None
  | Some (ok, board, moves) => Some (if ok then Some board else None, moves)
  end.

(** *** Propagator *)

(** The body of the double [for] loop at cell [(r, c)], on the current
    board, trace and [progress]. *)
Definition propagate_cell (st : B * Moves * bool) (rc : Z * Z)
    : B * Moves * bool :=
  let '(board, moves, progress) := st in
  let '(r, c) := rc in
  if cell board r c =? 0 then
    let cand := candidates board r c in
    match cand with
    | [val] =>
        (assign board r c val, moves ++ [msg_singleton r c val], true)
    | _ => st
    end
  else st.

(** One execution of the double [for] loop, from [progress = False]. *)
Definition propagate_pass (board : B) (moves : Moves) : B * Moves * bool :=
  fold_left propagate_cell grid_cells (board, moves, false).

Fixpoint propagate_loop (fuel : nat) (board : B) (moves : Moves)
    (changed : bool) : option (bool * B * Moves) :=
  match fuel with
  | O => None
  | S fuel' =>
      let '(board, moves, progress) := propagate_pass board moves in
      if negb progress then Some (changed, board, moves)
      else propagate_loop fuel' board moves true
  end.

Definition propagate_singles (board : B) (moves : Moves)
    : option (bool * B * Moves) :=
  propagate_loop budget board moves false.

(** *** Strategy B *)

Fixpoint mrv_scan (board : B) (cells : list (Z * Z))
    (best : option (Z * Z * list Z)) : option (Z * Z * list Z) :=
  match cells with
  | [] => best
  | (r, c) :: rest =>
      if cell board r c =? 0 then
        let cand := candidates board r c in
        match cand with
        | [] => None
        | _ =>
            let better :=
              match best with
              | None => true
              | Some (_, _, best_cands) =>
                  (length cand <? length best_cands)%nat
              end in
            mrv_scan board rest (if better then Some (r, c, cand) else best)
        end
      else mrv_scan board rest best
  end.

Definition select_mrv_cell (board : B) : option (Z * Z * list Z) :=
  mrv_scan board grid_cells None.

(** The loop [for v in sorted(cand)] of [bt]. *)
Fixpoint bp_loop (rec : B -> Moves -> option (bool * B * Moves))
    (r c : Z) (vs : list Z) (board : B) (moves : Moves)
    : option (bool * B * Moves) :=
  match vs with
  | [] => Some (false, board, moves)
  | v :: vs' =>
      let moves := moves ++ [msg_choose r c v] in
      if is_valid_move board r c v then
        let board := assign board r c v in
        match propagate_singles board moves with
        | None => None
        | Some (_, board, moves) =>
            match rec board moves with
            | None => None
            | Some (true, board, moves) => Some (true, board, moves)
            | Some (false, board, moves) =>
                let moves := moves ++ [msg_backtrack r c v] in
                let board := assign board r c 0 in
                bp_loop rec r c vs' board moves
            end
        end
      else bp_loop rec r c vs' board moves
  end.

Fixpoint bp_bt (fuel : nat) (board : B) (moves : Moves)
    : option (bool * B * Moves) :=
  match fuel with
  | O => None
  | S fuel' =>
      match select_mrv_cell board with
      | None =>
          Some (match find_empty board with None => true | Some _ => false end,
                board, moves)
      | Some (r, c, cand) =>
          bp_loop (bp_bt fuel') r c (sorted cand) board moves
      end
  end.

Definition solve_backtracking_propagation_run (board : B) (moves : Moves)
    : option (bool * B * Moves) :=
  let board := deep_copy board in
  match propagate_singles board moves with
  | None => None
  | Some (_, board, moves) => bp_bt budget board moves
  end.

Definition solve_backtracking_propagation (board : B) (moves : Moves)
    : option (option B * Moves) :=
  match solve_backtracking_propagation_run board moves with
  | None => None
  | Some (ok, board, moves) => Some (if ok then Some board else None, moves)
  end.

(** *** Completeness check *)

Definition is_complete_and_valid (board : B) : bool :=
  forallb (fun r => list_eqb (sorted (row_of board r)) (range 1 10))
          (range 0 9)
  && forallb (fun c =>
                let col := map (fun r => cell board r c) (range 0 9) in
                list_eqb (sorted col) (range 1 10))
             (range 0 9)
  && forallb (fun br =>
       forallb (fun bc =>
         let box := flat_map (fun r => map (fun c => cell board r c)
                                           (range bc (bc + 3)))
                             (range br (br + 3)) in
         list_eqb (sorted box) (range 1 10))
         (range3 0 9))
       (range3 0 9).

End SudokuLogic.

(** ** Boards as values: nested lists *)

Definition Board := list (list Z).

Fixpoint set_nth {A} (n : nat) (l : list A) (x : A) : list A :=
  match l, n with
  | [], _ => []
  | _ :: t, O => x :: t
  | y :: t, S n' => y :: set_nth n' t x
  end.

(** [l[i] = x].  Python raises [IndexError] when [i] is beyond the list and
    counts a negative [i] from the end; the code only indexes a 9x9 board
    with values of [range(9)], where neither happens, and the model leaves
    the list as it is in those cases. *)
Definition list_set {A} (l : list A) (i : Z) (x : A) : list A :=
  if 0 <=? i then set_nth (Z.to_nat i) l x else l.

Definition board_cell (b : Board) (r c : Z) : Z :=
  nth (Z.to_nat c) (nth (Z.to_nat r) b []) 0.

Definition board_assign (b : Board) (r c v : Z) : Board :=
  list_set b r (list_set (nth (Z.to_nat r) b []) c v).

#[export] Instance board_ops : BoardOps Board := {
  cell := board_cell;
  row_of := fun b r => nth (Z.to_nat r) b [];
  assign := board_assign;
  deep_copy := fun b => map (fun row => row) b
}.

(** ** Boards as objects: a store of row lists addressed by references

    A Python board is a list whose elements refer to row lists.  The outer
    list is never updated by the code, so a board object is the list of the
    addresses of its rows; [board[r][c] = v] updates the row list found at
    the address [board[r]], for every board that refers to it. *)

Record Obj := { store : list (list Z); rows : list nat }.

(** The grid seen through the references [ref] in the store [st]. *)
Definition value (st : list (list Z)) (ref : list nat) : Board :=
  map (fun a => nth a st []) ref.

Definition obj_row (o : Obj) (r : Z) : list Z :=
  nth (nth (Z.to_nat r) (rows o) 0%nat) (store o) [].

Definition obj_cell (o : Obj) (r c : Z) : Z :=
  nth (Z.to_nat c) (obj_row o r) 0.

Definition obj_assign (o : Obj) (r c v : Z) : Obj :=
  if (0 <=? r) && (r <? Z.of_nat (length (rows o))) then
    let a := nth (Z.to_nat r) (rows o) 0%nat in
    {| store := set_nth a (store o) (list_set (nth a (store o) []) c v);
       rows := rows o |}
  else o.

(** [[row[:] for row in board]]: every row is copied to a fresh address. *)
Definition obj_deep_copy (o : Obj) : Obj :=
  {| store := store o ++ value (store o) (rows o);
     rows := seq (length (store o)) (length (rows o)) |}.

#[export] Instance obj_ops : BoardOps Obj := {
  cell := obj_cell;
  row_of := obj_row;
  assign := obj_assign;
  deep_copy := obj_deep_copy
}.

(** ** The shell's text helpers

    Python strings are sequences of code points; the model holds them as
    sequences of characters below 128 ([is_ascii_text]), which is what the
    entry validator lets through and what the dialogs are specified for.
    On such text [str.isspace] holds of the codes 9-13, 28-31 and 32,
    [str.splitlines] breaks at the codes 10-13 and 28-30 (CR LF counting as
    one break), and [str.isdigit] holds of a non-empty string of the
    characters 0-9. *)

Definition chars (s : string) : list ascii := list_ascii_of_string s.

Definition code (ch : ascii) : nat := nat_of_ascii ch.

(** [ch.isdigit()] *)
Definition is_digit_char (ch : ascii) : bool :=
  (48 <=? code ch)%nat && (code ch <=? 57)%nat.

(** [ch.isspace()] *)
Definition is_space_char (ch : ascii) : bool :=
  ((9 <=? code ch)%nat && (code ch <=? 13)%nat)
  || ((28 <=? code ch)%nat && (code ch <=? 32)%nat).

(** [ch] ends a line for [splitlines]. *)
Definition is_line_boundary (ch : ascii) : bool :=
  ((10 <=? code ch)%nat && (code ch <=? 13)%nat)
  || ((28 <=? code ch)%nat && (code ch <=? 30)%nat).

Fixpoint lstrip (l : list ascii) : list ascii :=
  match l with
  | [] => []
  | ch :: t => if is_space_char ch then lstrip t else l
  end.

(** [s.strip()] *)
Definition strip (l : list ascii) : list ascii :=
  rev (lstrip (rev (lstrip l))).

(** [s.isdigit()] *)
Definition isdigit (l : list ascii) : bool :=
  match l with
  | [] => false
  | _ => forallb is_digit_char l
  end.

(** [s.splitlines()], with the line read so far in [cur]. *)
Fixpoint splitlines_from (cur : list ascii) (l : list ascii)
    : list (list ascii) :=
  match l with
  | [] => match cur with [] => [] | _ => [cur] end
  | ch :: t =>
      if (code ch =? 13)%nat then
        match t with
        | ch' :: t' =>
            if (code ch' =? 10)%nat then cur :: splitlines_from [] t'
            else cur :: splitlines_from [] t
        | [] => cur :: splitlines_from [] t
        end
      else if is_line_boundary ch then cur :: splitlines_from [] t
      else splitlines_from (cur ++ [ch]) t
  end.

Definition splitlines (l : list ascii) : list (list ascii) :=
  splitlines_from [] l.

(** [int(ch)] for a digit character, and [int(s)] for a string of digits
    (of at most 4300 of them, the interpreter's limit for [int]). *)
Definition int_of_char (ch : ascii) : Z := Z.of_nat (code ch) - 48.

Definition int_of_chars (l : list ascii) : Z :=
  fold_left (fun acc ch => 10 * acc + int_of_char ch) l 0.

Definition is_nil {A} (l : list A) : bool :=
  match l with [] => true | _ => false end.

(** [SudokuApp._parse_solution] *)
Definition parse_solution (text : string) : option Board :=
  let text := chars text in
  let lines :=
    map strip (filter (fun ln => negb (is_nil (strip ln)))
                      (splitlines (strip text))) in
  let digs := filter is_digit_char text in
  if (length lines =? 9)%nat
     && forallb (fun ln => (length ln =? 9)%nat && isdigit ln) lines
  then Some (map (fun ln => map int_of_char ln) lines)
  else if (length digs =? 81)%nat
  then Some (map (fun r =>
               map (fun c => int_of_char
                               (nth (Z.to_nat (r * 9 + c)) digs "0"%char))
                   (range 0 9))
             (range 0 9))
  else None.

(** [SudokuApp._validate_digit]; [proposed in "123456789"] is the substring
    test. *)
Definition validate_digit (proposed : string) : bool :=
  if String.eqb proposed EmptyString then true
  else if (1 <? String.length proposed)%nat then false
  else match String.index 0 proposed "123456789" with
       | Some _ => true
       | None => false
       end.

(** The text [_set_board] writes for a cell value, and the value
    [_get_board] reads from a cell text. *)
Definition cell_text (v : Z) : string :=
  if v =? 0 then EmptyString else str v.

Definition cell_value (text : string) : Z :=
  let s := strip (chars text) in
  if isdigit s then int_of_chars s else 0.

(** The part of the window the methods below work on: the texts of the 81
    entries and the mask of the cells shown as givens. *)
Record Shell : Type := {
  board_vars : list (list string);
  given_mask : list (list bool)
}.

Definition var_get (vars : list (list string)) (r c : Z) : string :=
  nth (Z.to_nat c) (nth (Z.to_nat r) vars []) EmptyString.

Definition mask_get (mask : list (list bool)) (r c : Z) : bool :=
  nth (Z.to_nat c) (nth (Z.to_nat r) mask []) false.

(** [SudokuApp._get_board] *)
Definition get_board (vars : list (list string)) : Board :=
  map (fun r => map (fun c => cell_value (var_get vars r c)) (range 0 9))
      (range 0 9).

(** [SudokuApp._set_board]: every entry and every mask bit is written. *)
Definition set_board (board : Board) (as_given : bool) : Shell :=
  {| board_vars :=
       map (fun r => map (fun c => cell_text (cell board r c)) (range 0 9))
           (range 0 9);
     given_mask :=
       map (fun r => map (fun c => as_given && negb (cell board r c =? 0))
                         (range 0 9))
           (range 0 9) |}.

(** [SudokuApp._clear_puzzle] *)
Definition clear_puzzle (st : Shell) : Shell :=
  {| board_vars :=
       map (fun r => map (fun c => if mask_get (given_mask st) r c
                                   then var_get (board_vars st) r c
                                   else EmptyString)
                         (range 0 9))
           (range 0 9);
     given_mask := given_mask st |}.

(** [SudokuApp._save_user_puzzle], as a function of the entry texts, of the
    answer to the dialog ([None] when it is cancelled) and of the list
    [user_puzzles]; it gives the message shown or, when the puzzle is
    saved, the new list and the new value of the difficulty selector.
    [Mismatch r c] is the first given that differs, reported as
    r(r+1)c(c+1). *)
Inductive save_outcome : Type :=
| EmptyGrid
| Cancelled
| CouldNotParse
| InvalidSolution
| Mismatch (r c : Z)
| Saved (user_puzzles : list (Board * Board)) (difficulty : string).

Definition save_user_puzzle (vars : list (list string))
    (answer : option string) (user_puzzles : list (Board * Board))
    : save_outcome :=
  let puzzle := get_board vars in
  if forallb (fun '(r, c) => cell puzzle r c =? 0) grid_cells then EmptyGrid
  else
    match answer with
    | None => Cancelled
    | Some text =>
        match parse_solution text with
        | None => CouldNotParse
        | Some sol =>
            if negb (is_complete_and_valid sol) then InvalidSolution
            else
              match find (fun '(r, c) =>
                            negb (cell puzzle r c =? 0)
                            && negb (cell puzzle r c =? cell sol r c))
                         grid_cells with
              | Some (r, c) => Mismatch r c
              | None =>
                  Saved (user_puzzles ++ [(puzzle, sol)]) "User Provided"
              end
        end
    end.

(** ** Concrete grids *)

Definition classic : Board :=
  [[5;3;0;0;7;0;0;0;0];
   [6;0;0;1;9;5;0;0;0];
   [0;9;8;0;0;0;0;6;0];
   [8;0;0;0;6;0;0;0;3];
   [4;0;0;8;0;3;0;0;1];
   [7;0;0;0;2;0;0;0;6];
   [0;6;0;0;0;0;2;8;0];
   [0;0;0;4;1;9;0;0;5];
   [0;0;0;0;8;0;0;7;9]].

Definition classic_solution : Board :=
  [[5;3;4;6;7;8;9;1;2];
   [6;7;2;1;9;5;3;4;8];
   [1;9;8;3;4;2;5;6;7];
   [8;5;9;7;6;1;4;2;3];
   [4;2;6;8;5;3;7;9;1];
   [7;1;3;9;2;4;8;5;6];
   [9;6;1;5;3;7;2;8;4];
   [2;8;7;4;1;9;6;3;5];
   [3;4;5;2;8;6;1;7;9]].

(** A full grid that is not a solution. *)
Definition ones : Board := repeat (repeat 1 9%nat) 9%nat.

(** Cell (0,0) is empty and sees every digit: 1..8 in its row, 9 below. *)
Definition blocked : Board :=
  [[0;1;2;3;4;5;6;7;8];
   [9;0;0;0;0;0;0;0;0];
   [0;0;0;0;0;0;0;0;0];
   [0;0;0;0;0;0;0;0;0];
   [0;0;0;0;0;0;0;0;0];
   [0;0;0;0;0;0;0;0;0];
   [0;0;0;0;0;0;0;0;0];
   [0;0;0;0;0;0;0;0;0];
   [0;0;0;0;0;0;0;0;0]].

(** The five empty cells of the upper left box can only take 1 or 2. *)
Definition pair_grid : Board :=
  [[0;0;3;4;5;6;7;8;9];
   [0;0;0;7;8;9;4;5;6];
   [0;0;0;0;0;0;0;0;0];
   [0;0;0;0;0;0;0;0;0];
   [0;0;0;0;0;0;0;0;0];
   [0;0;0;0;0;0;0;0;0];
   [0;0;0;0;0;0;0;0;0];
   [0;0;0;0;0;0;0;0;0];
   [0;0;0;0;0;0;0;0;0]].

(** The board after the first candidate of the root node of [pair_grid]:
    1 was placed at (0,0) and propagation filled (0,1) with 2. *)
Definition pair_grid_branch : Board :=
  [[1;2;3;4;5;6;7;8;9];
   [0;0;0;7;8;9;4;5;6];
   [0;0;0;0;0;0;0;0;0];
   [0;0;0;0;0;0;0;0;0];
   [0;0;0;0;0;0;0;0;0];
   [0;0;0;0;0;0;0;0;0];
   [0;0;0;0;0;0;0;0;0];
   [0;0;0;0;0;0;0;0;0];
   [0;0;0;0;0;0;0;0;0]].

Definition pair_grid_trace : Moves :=
  ["MRV choose r1c1 try 1"%string; "Singleton r1c2 = 2"%string].

(** * Part 2: vocabulary of the statements *)

(** A cell coordinate. *)
Definition on_grid (r c : Z) : Prop := 0 <= r < 9 /\ 0 <= c < 9.

(** ** Laws of a board representation *)

Class BoardLaws (B : Type) `{BoardOps B} := {
  well_formed : B -> Prop;
  wf_assign : forall b r c v, well_formed b -> well_formed (assign b r c v);
  cell_assign : forall b r c v r' c',
    well_formed b -> on_grid r c -> on_grid r' c' ->
    cell (assign b r c v) r' c' =
      if (r' =? r) && (c' =? c) then v else cell b r' c';
  row_cells : forall b r,
    well_formed b -> 0 <= r < 9 -> row_of b r = map (cell b r) (range 0 9)
}.

(** Nine rows of nine cells. *)
Definition is_9x9 (b : Board) : bool :=
  (length b =? 9)%nat && forallb (fun row => (length row =? 9)%nat) b.

(** A board object the search can work on: a 9x9 grid held in nine distinct
    row lists, as [deep_copy] builds it. *)
Definition obj_wf (o : Obj) : Prop :=
  is_9x9 (value (store o) (rows o)) = true /\
  NoDup (rows o) /\
  Forall (fun a => (a < length (store o))%nat) (rows o).

(** [list(range(1, 10))] *)
Definition digits : list Z := [1; 2; 3; 4; 5; 6; 7; 8; 9].

(** Two cells see each other: same row, same column or same 3x3 box. *)
Definition peer (r c r' c' : Z) : Prop :=
  r' = r \/ c' = c \/ (r' / 3 = r / 3 /\ c' / 3 = c / 3).

(** The cells of the box whose upper left corner is [(br, bc)]. *)
Definition box_cells (br bc : Z) : list (Z * Z) :=
  flat_map (fun r => map (fun c => (r, c)) (range bc (bc + 3)))
           (range br (br + 3)).

(** ** Invariants of the working board *)

Section Vocabulary.
Context {B : Type} `{BoardLaws B}.

(** [b'] keeps every filled cell of [b]. *)
Definition extends (b b' : B) : Prop :=
  forall r c, on_grid r c -> cell b r c <> 0 -> cell b' r c = cell b r c.

(** No filled cell has its value repeated in its row, column or box. *)
Definition consistent (b : B) : Prop :=
  forall r c r' c', on_grid r c -> on_grid r' c' -> peer r c r' c' ->
    (r', c') <> (r, c) -> cell b r c <> 0 -> cell b r' c' <> cell b r c.

(** Every cell holds 0..9. *)
Definition digits_ok (b : B) : Prop :=
  forall r c, on_grid r c -> 0 <= cell b r c <= 9.

(** No cell is empty. *)
Definition full (b : B) : Prop :=
  forall r c, on_grid r c -> cell b r c <> 0.

(** Number of empty cells. *)
Definition empties (b : B) : nat :=
  length (filter (fun '(r, c) => cell b r c =? 0) grid_cells).

(** Column [c] and the box with upper left corner [(br, bc)], read from
    top to bottom and from left to right. *)
Definition column (b : B) (c : Z) : list Z :=
  map (fun r => cell b r c) (range 0 9).

Definition box (b : B) (br bc : Z) : list Z :=
  flat_map (fun r => map (fun c => cell b r c) (range bc (bc + 3)))
           (range br (br + 3)).

(** A result obtained with some budget is obtained with any larger one. *)
Definition below (rec rec' : B -> Moves -> option (bool * B * Moves)) : Prop :=
  forall b m res, rec b m = Some res -> rec' b m = Some res.

(** The entries [suf] added to the trace record what propagation wrote:
    every cell with an entry "Singleton" in [suf] was empty in [b] and holds
    the value of the entry in [b']. *)
Definition singles_kept (b b' : B) (suf : Moves) : Prop :=
  forall r c v, on_grid r c -> 1 <= v <= 9 ->
    In (msg_singleton r c v) suf -> cell b r c = 0 /\ cell b' r c = v.

(** A piece of the search that went from board [b] and trace [m] to [b']
    and [m']: it kept the filled cells, only added entries to the trace, and
    the cells of its "Singleton" entries hold the recorded values. *)
Definition run_logs (b : B) (m : Moves) (b' : B) (m' : Moves) : Prop :=
  well_formed b' /\ extends b b' /\
  exists suf, m' = m ++ suf /\ singles_kept b b' suf.

Definition rec_logs (rec : B -> Moves -> option (bool * B * Moves)) : Prop :=
  forall b m ok b' m', well_formed b -> rec b m = Some (ok, b', m') ->
                       run_logs b m b' m'.

(** A frame relation on boards: anything that single-cell assignments
    preserve, step after step. *)
Variable R : B -> B -> Prop.

(** What every piece of the search guarantees between the board it is
    given and the board it leaves. *)
Definition step_ok (b b' : B) : Prop :=
  well_formed b' /\ extends b b' /\
  (consistent b -> digits_ok b -> consistent b' /\ digits_ok b') /\
  R b b'.

(** Invariant of the double loop of a propagation pass started on [b0] with
    trace [m0]: without progress nothing has changed, with progress a cell
    has been filled. *)
Definition pass_inv (b0 : B) (m0 : Moves) (st : B * Moves * bool) : Prop :=
  let '(b, m, p) := st in
  step_ok b0 b /\
  if p then (empties b < empties b0)%nat else b = b0 /\ m = m0.

(** Result of a [bt] started on [b]: success leaves a full board. *)
Definition post (b : B) (res : bool * B * Moves) : Prop :=
  let '(ok, b', _) := res in step_ok b b' /\ (ok = true -> full b').

(** [rec] returns, with [post], on every board with fewer than [n] empty
    cells. *)
Definition returns_below (rec : B -> Moves -> option (bool * B * Moves))
    (n : nat) : Prop :=
  forall b m, well_formed b -> (empties b < n)%nat ->
              exists res, rec b m = Some res /\ post b res.

End Vocabulary.

(** ** Predicates on grids and on the store *)

(** The store outside the rows of a board: what assignments through that
    board leave alone. *)
Definition frame (o o' : Obj) : Prop :=
  rows o' = rows o /\
  forall a, ~ In a (rows o) -> nth a (store o') [] = nth a (store o) [].

(** On grids held by value there is nothing else to preserve. *)
Definition no_frame : Board -> Board -> Prop := fun _ _ => True.

(** Every cell holds a value of 0..9. *)
Definition cells_in_range (g : Board) : bool :=
  forallb (fun '(r, c) => (0 <=? cell g r c) && (cell g r c <=? 9)) grid_cells.

(** No given of [g] is repeated in its row, column or box: every cell is a
    legal placement of its own value. *)
Definition givens_consistent (g : Board) : bool :=
  forallb (fun '(r, c) => is_valid_move g r c (cell g r c)) grid_cells.

(** Every non-zero cell of [g] holds the same value in [s]. *)
Definition keeps_givens (g s : Board) : Prop :=
  forall r c, on_grid r c -> cell g r c <> 0 -> cell s r c = cell g r c.

(** [s] is a valid completion of [g]. *)
Definition completion (g s : Board) : Prop :=
  is_9x9 s = true /\ keeps_givens g s /\ is_complete_and_valid s = true.

(** A call returned, and a grid it returned keeps the givens of [g]; the
    grid is valid exactly when the givens of [g] do not conflict. *)
Definition sound_result (g : Board) (out : option (option Board * Moves))
    : Prop :=
  exists res tr, out = Some (res, tr) /\
    forall s, res = Some s ->
      keeps_givens g s /\
      (is_complete_and_valid s = true <-> givens_consistent g = true).

(** The call [out] returned, every row list that existed before the call is
    as it was, and so is the grid seen through the caller's references. *)
Definition leaves_grid (st : list (list Z)) (caller : list nat)
    (out : option (bool * Obj * Moves)) : Prop :=
  exists ok o' m',
    out = Some (ok, o', m') /\
    (forall a, (a < length st)%nat -> nth a (store o') [] = nth a st []) /\
    value (store o') caller = value st caller.

(** ** Vocabulary of the further properties *)

(** Position of a cell in the row-major scan. *)
Definition scan_pos (r c : Z) : Z := 9 * r + c.

(** The result [res] of a run started with an empty trace, as a run started
    with trace [m] gives it. *)
Definition after_trace {A : Type} (m : Moves) (res : option (A * Moves))
    : option (A * Moves) :=
  match res with
  | None => None
  | Some (a, t) => Some (a, m ++ t)
  end.

Section MoreVocabulary.
Context {B : Type} `{BoardLaws B}.

(** The two boards hold the same value in every cell. *)
Definition same_cells (b b' : B) : Prop :=
  forall r c, on_grid r c -> cell b' r c = cell b r c.

(** No empty cell has exactly one candidate. *)
Definition no_single (b : B) : Prop :=
  forall r c, on_grid r c -> length (candidates b r c) <> 1%nat.

(** [s] is a solved grid that keeps every filled cell of [b]. *)
Definition completes (b s : B) : Prop :=
  full s /\ consistent s /\ digits_ok s /\ extends b s.

(** [b] comes before [s] or equals it in the order that compares the cells
    in row-major order. *)
Definition lex_le (b s : B) : Prop :=
  same_cells b s \/
  exists r c, on_grid r c /\ cell b r c < cell s r c /\
    forall r' c', on_grid r' c' -> scan_pos r' c' < scan_pos r c ->
                  cell s r' c' = cell b r' c'.

(** The trace grows by one entry for each cell a pass fills. *)
Definition pass_count (b0 : B) (m0 : Moves) (st : B * Moves * bool) : Prop :=
  let '(b, m, _) := st in
  well_formed b /\
  exists suf, m = m0 ++ suf /\ (length suf + empties b = empties b0)%nat.

(** [rec] treats the trace it is given as a prefix it never reads. *)
Definition trace_blind (rec : B -> Moves -> option (bool * B * Moves))
    : Prop :=
  forall b m t, rec b (m ++ t) = after_trace m (rec b t).

End MoreVocabulary.

(** Entries of the trace of strategy A, by kind. *)
Definition tries (m : Moves) : nat :=
  length (filter (String.prefix "Try ") m).

Definition backtracks (m : Moves) : nat :=
  length (filter (String.prefix "Backtrack ") m).

(** What a [bt] of strategy A, run on [b] with trace [m], leaves: the Try
    entries not undone by a Backtrack entry are the cells it filled; a
    failure means that the board is as it was and has no completion; a
    success that the board is full and not after any completion. *)
Definition bf_result {B : Type} `{BoardLaws B} (b : B) (m : Moves)
    (res : bool * B * Moves) : Prop :=
  let '(ok, b', m') := res in
  well_formed b' /\ extends b b' /\
  (tries m' + backtracks m + empties b' =
   tries m + backtracks m' + empties b)%nat /\
  (ok = false -> same_cells b b' /\ forall s, ~ completes b s) /\
  (ok = true -> full b' /\ forall s, completes b s -> lex_le b' s).

(** The built-in puzzle [MEDIUM_PUZZLES[0]] and a solution of it. *)
Definition medium_puzzle_0 : Board :=
  [[0;2;0;6;0;8;0;0;0];
   [5;8;0;0;0;9;7;0;0];
   [0;0;0;0;4;0;0;0;0];
   [3;7;0;0;0;0;5;0;0];
   [6;0;0;0;0;0;0;0;4];
   [0;0;8;0;0;0;0;1;3];
   [0;0;0;0;2;0;0;0;0];
   [0;0;9;8;0;0;0;3;0];
   [0;0;0;0;0;6;0;0;5]].

Definition medium_solution_0 : Board :=
  [[1;2;3;6;7;8;4;5;9];
   [5;8;4;1;3;9;7;2;6];
   [7;9;6;5;4;2;3;8;1];
   [3;7;1;2;9;4;5;6;8];
   [6;5;2;3;8;1;9;7;4];
   [9;4;8;7;6;5;2;1;3];
   [8;1;5;4;2;3;6;9;7];
   [4;6;9;8;5;7;1;3;2];
   [2;3;7;9;1;6;8;4;5]].

(** The working board and the trace of strategy B on [MEDIUM_PUZZLES[0]]
    when the first branch of the root node (1 at r1c9) has failed. *)
Definition medium_branch_0 : Board :=
  [[0;2;0;6;0;8;9;5;1];
   [5;8;3;0;0;9;7;4;6];
   [0;9;6;0;4;7;3;0;8];
   [3;7;0;9;8;4;5;6;2];
   [6;5;2;1;7;3;8;9;4];
   [9;4;8;0;6;0;0;1;3];
   [0;0;5;0;2;0;0;7;9];
   [0;6;9;8;5;1;0;3;0];
   [0;0;7;0;9;6;0;8;5]].

Definition medium_branch_trace_0 : Moves :=
  ["MRV choose r1c9 try 1"; "MRV choose r2c5 try 1";
   "MRV choose r2c4 try 2"; "Singleton r2c9 = 6";
   "Singleton r2c8 = 4"; "Singleton r2c3 = 3";
   "MRV choose r1c3 try 4"; "MRV choose r1c1 try 7";
   "MRV choose r1c5 try 3"; "Singleton r1c7 = 9";
   "Singleton r1c8 = 5"; "MRV choose r3c1 try 1";
   "Singleton r3c3 = 6"; "Singleton r3c2 = 9";
   "MRV choose r3c4 try 5"; "Singleton r3c6 = 7";
   "MRV choose r3c8 try 2"; "Singleton r3c9 = 8";
   "Singleton r3c7 = 3"; "MRV choose r4c3 try 1";
   "Singleton r5c2 = 5"; "Singleton r5c3 = 2";
   "Singleton r5c7 = 8"; "Singleton r6c2 = 4";
   "Singleton r9c3 = 7"; "Singleton r9c5 = 9";
   "Singleton r9c8 = 8"; "Singleton r5c5 = 7";
   "Singleton r5c8 = 9"; "Singleton r6c1 = 9";
   "Singleton r7c3 = 5"; "Singleton r8c5 = 5";
   "Singleton r4c8 = 6"; "Singleton r4c9 = 2";
   "Singleton r6c5 = 6"; "Singleton r7c8 = 7";
   "Singleton r7c9 = 9"; "Singleton r4c5 = 8";
   "Singleton r4c6 = 4"; "Singleton r8c6 = 1";
   "Singleton r4c4 = 9"; "Singleton r5c6 = 3";
   "Singleton r8c2 = 6"; "Singleton r5c4 = 1";
   "Backtrack r4c3 (reset from 1 to 0)"; "MRV choose r4c3 try 2";
   "Backtrack r3c8 (reset from 2 to 0)"; "MRV choose r3c8 try 8";
   "Backtrack r3c4 (reset from 5 to 0)"; "MRV choose r3c4 try 7";
   "Backtrack r3c1 (reset from 1 to 0)"; "MRV choose r3c1 try 9";
   "Backtrack r1c5 (reset from 3 to 0)"; "MRV choose r1c5 try 5";
   "Backtrack r1c1 (reset from 7 to 0)"; "MRV choose r1c1 try 9";
   "Backtrack r1c3 (reset from 4 to 0)"; "MRV choose r1c3 try 7";
   "Backtrack r2c4 (reset from 2 to 0)"; "MRV choose r2c4 try 3";
   "Backtrack r2c5 (reset from 1 to 0)"; "MRV choose r2c5 try 3"]%string.

(** A node of that branch: the board on which r2c4 is selected (after 1 at
    r1c9 and 1 at r2c5), the board after placing 2 there and propagating,
    and the board the recursive call leaves when it fails.  The traces at
    these three points are the first 2, 6 and 58 entries of the trace
    above. *)
Definition medium_node_0 : Board :=
  [[0;2;0;6;0;8;0;0;1];
   [5;8;0;0;1;9;7;0;0];
   [0;0;0;0;4;0;0;0;0];
   [3;7;0;0;0;0;5;0;0];
   [6;0;0;0;0;0;0;0;4];
   [0;0;8;0;0;0;0;1;3];
   [0;0;0;0;2;0;0;0;0];
   [0;0;9;8;0;0;0;3;0];
   [0;0;0;0;0;6;0;0;5]].

Definition medium_node_filled_0 : Board :=
  [[0;2;0;6;0;8;0;0;1];
   [5;8;3;2;1;9;7;4;6];
   [0;0;0;0;4;0;0;0;0];
   [3;7;0;0;0;0;5;0;0];
   [6;0;0;0;0;0;0;0;4];
   [0;0;8;0;0;0;0;1;3];
   [0;0;0;0;2;0;0;0;0];
   [0;0;9;8;0;0;0;3;0];
   [0;0;0;0;0;6;0;0;5]].

Definition medium_node_failed_0 : Board :=
  [[0;2;0;6;0;8;9;5;1];
   [5;8;3;2;1;9;7;4;6];
   [0;9;6;0;4;7;3;0;8];
   [3;7;0;9;8;4;5;6;2];
   [6;5;2;1;7;3;8;9;4];
   [9;4;8;0;6;0;0;1;3];
   [0;0;5;0;2;0;0;7;9];
   [0;6;9;8;5;1;0;3;0];
   [0;0;7;0;9;6;0;8;5]].


Definition classic_singles : Moves :=
  match propagate_singles classic [] with
  | Some (_, _, t) => t
  | None => []
  end.

(** Every character of the text is below 128. *)
Definition is_ascii_text (text : string) : bool :=
  forallb (fun ch => (code ch <? 128)%nat) (chars text).

(** The values of the digit characters of a text, in order. *)
Definition text_digits (text : string) : list Z :=
  map int_of_char (filter is_digit_char (chars text)).

(** Eighty-one values, nine per row. *)
Definition board_of_digits (ds : list Z) : Board :=
  map (fun r => map (fun c => nth (Z.to_nat (r * 9 + c)) ds 0) (range 0 9))
      (range 0 9).

(** The two ways the dialogs ask for a solution: the 81 digits of the rows
    one after the other, or nine lines of nine digits. *)
Definition digit_char (v : Z) : ascii := ascii_of_nat (48 + Z.to_nat v).

Definition flat_text (b : Board) : string :=
  string_of_list_ascii (concat (map (map digit_char) b)).

Definition lines_text (b : Board) : string :=
  string_of_list_ascii
    (concat (map (fun row => map digit_char row ++ ["010"%char]) b)).

(** Every entry holds a text the key validator admits. *)
Definition entries_valid (vars : list (list string)) : bool :=
  forallb (fun '(r, c) => validate_digit (var_get vars r c)) grid_cells.

(** The answer to a dialog, when there is one, is a text of characters
    below 128. *)
Definition ascii_answer (answer : option string) : bool :=
  match answer with
  | None => true
  | Some text => is_ascii_text text
  end.

(** The window shows the puzzle [p]: the filled cells of [p] are the cells
    marked as given, and their entries hold the texts of their values. *)
Definition shows_puzzle (p : Board) (st : Shell) : bool :=
  forallb (fun '(r, c) =>
             if cell p r c =? 0 then negb (mask_get (given_mask st) r c)
             else mask_get (given_mask st) r c
                  && String.eqb (var_get (board_vars st) r c)
                                (cell_text (cell p r c)))
          grid_cells.

(** Decision of [keeps_givens]. *)
Definition keeps_givensb (g s : Board) : bool :=
  forallb (fun '(r, c) => (cell g r c =? 0) || (cell s r c =? cell g r c))
          grid_cells.

(** * Part 3: proofs *)

(** Linear arithmetic with the divisions by 3 of the box index. *)
Ltac dlia := Z.div_mod_to_equations; lia.

(** ** Facts on the built-ins *)

Lemma In_range (a b x : Z) : In x (range a b) <-> a <= x < b.
Proof.
  unfold range. rewrite in_map_iff. split.
  - intros (i & <- & Hi). apply in_seq in Hi. lia.
  - intros Hx. exists (Z.to_nat (x - a)). split; [lia|].
    apply in_seq. lia.
Qed.

Lemma range_3 (a : Z) : range a (a + 3) = [a; a + 1; a + 2].
Proof.
  unfold range. replace (a + 3 - a) with 3 by lia.
  simpl. now rewrite Z.add_0_r.
Qed.

Lemma In_grid_cells (r c : Z) : In (r, c) grid_cells <-> on_grid r c.
Proof.
  unfold grid_cells, on_grid. rewrite in_flat_map. split.
  - intros (x & Hx & Hin). apply in_map_iff in Hin as (y & Heq & Hy).
    inversion Heq; subst. apply In_range in Hx, Hy. lia.
  - intros [Hr Hc]. exists r. split; [now apply In_range|].
    apply in_map_iff. exists c. split; [reflexivity | now apply In_range].
Qed.

Lemma existsb_false {A} (f : A -> bool) (l : list A) :
  existsb f l = false <-> forall x, In x l -> f x = false.
Proof.
  induction l as [|a l IH]; simpl.
  - split; [intros _ x [] | reflexivity].
  - rewrite orb_false_iff, IH. split.
    + intros [Ha Hl] x [<- | Hx]; auto.
    + intros Hall. split; [apply Hall; now left | intros x Hx; apply Hall; now right].
Qed.

Lemma list_eqb_eq (l1 l2 : list Z) : list_eqb l1 l2 = true <-> l1 = l2.
Proof.
  revert l2. induction l1 as [|x t IH]; intros [|y t2]; simpl;
    try (split; [discriminate | congruence]); try tauto.
  rewrite andb_true_iff, Z.eqb_eq, IH. split; [intros []; congruence|].
  intros Heq; inversion Heq; auto.
Qed.

Lemma insert_sorted_perm (x : Z) (l : list Z) :
  Permutation (insert_sorted x l) (x :: l).
Proof.
  induction l as [|y t IH]; simpl; [reflexivity|].
  destruct (x <=? y); [reflexivity|].
  now rewrite IH, perm_swap.
Qed.

Lemma sorted_perm (l : list Z) : Permutation (sorted l) l.
Proof.
  induction l as [|x t IH]; simpl; [reflexivity|].
  now rewrite insert_sorted_perm, IH.
Qed.

Lemma insert_sorted_comm (x y : Z) (l : list Z) :
  insert_sorted x (insert_sorted y l) = insert_sorted y (insert_sorted x l).
Proof.
  induction l as [|z t IH]; simpl.
  - destruct (x <=? y) eqn:Hxy, (y <=? x) eqn:Hyx; try reflexivity.
    + apply Z.leb_le in Hxy, Hyx. f_equal; [lia | f_equal; lia].
    + apply Z.leb_gt in Hxy, Hyx. lia.
  - destruct (y <=? z) eqn:Hyz, (x <=? z) eqn:Hxz; simpl;
      destruct (x <=? y) eqn:Hxy, (y <=? x) eqn:Hyx;
      rewrite ?Hyz, ?Hxz; try reflexivity;
      try (apply Z.leb_le in Hxy); try (apply Z.leb_gt in Hxy);
      try (apply Z.leb_le in Hyx); try (apply Z.leb_gt in Hyx);
      try (apply Z.leb_le in Hyz); try (apply Z.leb_gt in Hyz);
      try (apply Z.leb_le in Hxz); try (apply Z.leb_gt in Hxz);
      try lia.
    + assert (x = y) by lia. now subst.
    + now rewrite IH.
    + now rewrite IH.
    + now rewrite IH.
Qed.

Lemma sorted_of_perm (l l' : list Z) :
  Permutation l l' -> sorted l = sorted l'.
Proof.
  induction 1; simpl.
  - reflexivity.
  - now f_equal.
  - apply insert_sorted_comm.
  - congruence.
Qed.

Lemma sorted_is_digits (l : list Z) :
  list_eqb (sorted l) (range 1 10) = true <-> Permutation l digits.
Proof.
  rewrite list_eqb_eq. change (range 1 10) with digits. split.
  - intros Heq. rewrite <- Heq. symmetry. apply sorted_perm.
  - intros Hp. now rewrite (sorted_of_perm _ _ Hp).
Qed.

Lemma mem_false (v : Z) (s : list Z) : mem v s = false <-> ~ In v s.
Proof.
  unfold mem. rewrite existsb_false. split.
  - intros Hall Hin. apply Hall in Hin. apply Z.eqb_neq in Hin. lia.
  - intros Hn x Hx. apply Z.eqb_neq. intros ->. contradiction.
Qed.

Lemma filter_length_le {A} (f g : A -> bool) (l : list A) :
  (forall x, In x l -> f x = true -> g x = true) ->
  (length (filter f l) <= length (filter g l))%nat.
Proof.
  induction l as [|a l IH]; simpl; intros Himp; [lia|].
  assert (IH' := IH (fun x Hx => Himp x (or_intror Hx))).
  destruct (f a) eqn:Hf.
  - rewrite (Himp a (or_introl eq_refl) Hf). simpl. lia.
  - destruct (g a); simpl; lia.
Qed.

Lemma filter_length_lt {A} (f g : A -> bool) (l : list A) (a : A) :
  (forall x, In x l -> f x = true -> g x = true) ->
  In a l -> f a = false -> g a = true ->
  (length (filter f l) < length (filter g l))%nat.
Proof.
  induction l as [|x l IH]; simpl; intros Himp Hin Hf Hg; [contradiction|].
  assert (Hle := filter_length_le f g l (fun y Hy => Himp y (or_intror Hy))).
  destruct Hin as [-> | Hin].
  - rewrite Hf, Hg. simpl. lia.
  - assert (IH' := IH (fun y Hy => Himp y (or_intror Hy)) Hin Hf Hg).
    destruct (f x) eqn:Hfx.
    + rewrite (Himp x (or_introl eq_refl) Hfx). simpl. lia.
    + destruct (g x); simpl; lia.
Qed.

(** ** The validator and the candidate engine *)

Lemma cell_eq_dec (r c r' c' : Z) : {(r, c) = (r', c')} + {(r, c) <> (r', c')}.
Proof.
  destruct (Z.eq_dec r r') as [-> | Hr]; [|right; congruence].
  destruct (Z.eq_dec c c') as [-> | Hc]; [now left | right; congruence].
Qed.

Section Validator.
Context {B : Type} `{BoardLaws B}.

Lemma is_valid_move_sound (b : B) (r c v : Z) :
  on_grid r c -> is_valid_move b r c v = true -> v <> 0 ->
  forall r' c', on_grid r' c' -> peer r c r' c' -> (r', c') <> (r, c) ->
                cell b r' c' <> v.
Proof.
  intros Hg Hv Hv0 r' c' Hg' Hp Hne. unfold is_valid_move in Hv.
  destruct (v =? 0) eqn:E0; [apply Z.eqb_eq in E0; contradiction|].
  destruct (existsb _ (filter _ _)) eqn:E1 in Hv; [discriminate|].
  destruct (existsb _ (filter _ _)) eqn:E2 in Hv; [discriminate|].
  apply negb_true_iff in Hv.
  rewrite existsb_false in E1, E2, Hv.
  unfold on_grid in *.
  destruct Hp as [-> | [-> | [Hr Hc]]].
  - assert (c' <> c) by congruence.
    apply Z.eqb_neq, E1, filter_In. split; [apply In_range; lia|].
    apply negb_true_iff, Z.eqb_neq. assumption.
  - assert (r' <> r) by congruence.
    apply Z.eqb_neq, E2, filter_In. split; [apply In_range; lia|].
    apply negb_true_iff, Z.eqb_neq. assumption.
  - assert (Hi : In r' (range (r / 3 * 3) (r / 3 * 3 + 3)))
      by (apply In_range; dlia).
    assert (Hj : In c' (range (c / 3 * 3) (c / 3 * 3 + 3)))
      by (apply In_range; dlia).
    specialize (Hv r' Hi). rewrite existsb_false in Hv.
    specialize (Hv c' Hj). apply andb_false_iff in Hv as [Hv | Hv].
    + apply orb_false_iff in Hv as [Hv1 Hv2].
      apply negb_false_iff, Z.eqb_eq in Hv1, Hv2. congruence.
    + now apply Z.eqb_neq.
Qed.

Lemma is_valid_move_complete (b : B) (r c v : Z) :
  on_grid r c ->
  (forall r' c', on_grid r' c' -> peer r c r' c' -> (r', c') <> (r, c) ->
                 cell b r' c' <> v) ->
  is_valid_move b r c v = true.
Proof.
  intros Hg Hall. unfold is_valid_move, on_grid in *.
  destruct (v =? 0); [reflexivity|].
  assert (E1 : existsb (fun x => cell b r x =? v)
                 (filter (fun x => negb (x =? c)) (range 0 9)) = false).
  { apply existsb_false. intros x Hx. apply filter_In in Hx as [Hx Hxc].
    apply In_range in Hx. apply negb_true_iff, Z.eqb_neq in Hxc.
    apply Z.eqb_neq, Hall; [lia | left; reflexivity | congruence]. }
  assert (E2 : existsb (fun x => cell b x c =? v)
                 (filter (fun x => negb (x =? r)) (range 0 9)) = false).
  { apply existsb_false. intros x Hx. apply filter_In in Hx as [Hx Hxr].
    apply In_range in Hx. apply negb_true_iff, Z.eqb_neq in Hxr.
    apply Z.eqb_neq, Hall; [lia | right; left; reflexivity | congruence]. }
  rewrite E1, E2. apply negb_true_iff, existsb_false.
  intros i Hi. apply existsb_false. intros j Hj.
  apply In_range in Hi, Hj.
  destruct (negb (i =? r) || negb (j =? c)) eqn:E; [|reflexivity].
  simpl. apply Z.eqb_neq, Hall; [dlia | right; right; dlia |].
  intros Heq. inversion Heq; subst. rewrite !Z.eqb_refl in E. discriminate.
Qed.

Lemma In_candidates (b : B) (r c v : Z) :
  well_formed b -> on_grid r c ->
  (In v (candidates b r c) <->
   cell b r c = 0 /\ 1 <= v <= 9 /\
   forall r' c', on_grid r' c' -> peer r c r' c' -> cell b r' c' <> v).
Proof.
  intros Hwf Hg. unfold candidates, on_grid in *.
  destruct (cell b r c =? 0) eqn:E0; cbn [negb].
  2:{ apply Z.eqb_neq in E0. split; [intros [] | intros [? _]; contradiction]. }
  apply Z.eqb_eq in E0. rewrite filter_In, In_range, negb_true_iff, mem_false.
  rewrite row_cells by (assumption || lia).
  rewrite !in_app_iff, !in_map_iff, in_flat_map.
  split.
  - intros [Hv Hnot]. repeat split; try lia.
    intros r' c' Hg' Hp Heq. apply Hnot.
    destruct Hp as [-> | [-> | [Hr Hc]]].
    + left; left. exists c'. split; [assumption | apply In_range; lia].
    + left; right. exists r'. split; [assumption | apply In_range; lia].
    + right. exists r'. split; [apply In_range; dlia|].
      apply in_map_iff. exists c'. split; [assumption | apply In_range; dlia].
  - intros (_ & Hv & Hall). split; [lia|].
    intros [[(x & Hx & Hin) | (x & Hx & Hin)] | (i & Hi & Hin)].
    + apply In_range in Hin. apply (Hall r x); [lia | left; reflexivity | assumption].
    + apply In_range in Hin.
      apply (Hall x c); [lia | right; left; reflexivity | assumption].
    + apply in_map_iff in Hin as (j & Hj & Hin).
      apply In_range in Hi, Hin.
      apply (Hall i j); [dlia | right; right; dlia | assumption].
Qed.

Lemma candidates_filled (b : B) (r c : Z) :
  cell b r c <> 0 -> candidates b r c = [].
Proof.
  intros Hne. unfold candidates. apply Z.eqb_neq in Hne. now rewrite Hne.
Qed.

Lemma candidates_legal (b : B) (r c v : Z) :
  well_formed b -> on_grid r c ->
  In v (candidates b r c) -> is_valid_move b r c v = true.
Proof.
  intros Hwf Hg Hin. apply In_candidates in Hin as (_ & _ & Hall); trivial.
  apply is_valid_move_complete; trivial.
  intros r' c' Hg' Hp _. now apply Hall.
Qed.

Lemma In_used (b : B) (r c v : Z) :
  well_formed b -> on_grid r c ->
  In v ((row_of b r ++ map (fun x => cell b x c) (range 0 9)) ++
        flat_map (fun i => map (fun j => cell b i j)
                               (range (c / 3 * 3) (c / 3 * 3 + 3)))
                 (range (r / 3 * 3) (r / 3 * 3 + 3))) ->
  exists r' c', on_grid r' c' /\ peer r c r' c' /\ cell b r' c' = v.
Proof.
  intros Hwf Hg. unfold on_grid in *.
  rewrite row_cells by (assumption || lia).
  rewrite !in_app_iff, !in_map_iff, in_flat_map.
  intros [[(x & Hx & Hin) | (x & Hx & Hin)] | (i & Hi & Hin)].
  - apply In_range in Hin. exists r, x. split; [lia|].
    split; [left; reflexivity | assumption].
  - apply In_range in Hin. exists x, c. split; [lia|].
    split; [right; left; reflexivity | assumption].
  - apply in_map_iff in Hin as (j & Hj & Hin). apply In_range in Hi, Hin.
    exists i, j. split; [dlia|]. split; [right; right; dlia | assumption].
Qed.

Lemma candidates_empty_spec (b : B) (r c : Z) :
  well_formed b -> on_grid r c ->
  (candidates b r c = [] <->
   cell b r c <> 0 \/
   forall v, 1 <= v <= 9 ->
     exists r' c', on_grid r' c' /\ peer r c r' c' /\ cell b r' c' = v).
Proof.
  intros Hwf Hg. split.
  - intros Hnil.
    destruct (Z.eq_dec (cell b r c) 0) as [Hz | Hnz]; [right | now left].
    intros v Hv. unfold candidates in Hnil.
    apply Z.eqb_eq in Hz. rewrite Hz in Hnil. cbn [negb] in Hnil.
    cbv zeta in Hnil.
    match type of Hnil with
    | filter (fun v => negb (mem v ?used)) _ = [] =>
        destruct (mem v used) eqn:Hmem
    end.
    + apply In_used; trivial.
      unfold mem in Hmem. apply existsb_exists in Hmem as (x & Hx & Heq).
      apply Z.eqb_eq in Heq. now subst.
    + exfalso. apply (@in_nil _ v). rewrite <- Hnil. apply filter_In.
      split; [apply In_range; lia | now rewrite Hmem].
  - intros [Hnz | Hall]; [now apply candidates_filled|].
    destruct (candidates b r c) as [|x l] eqn:Hc; [reflexivity | exfalso].
    assert (Hin : In x (candidates b r c)) by (rewrite Hc; now left).
    apply In_candidates in Hin as (_ & Hx & Hno); trivial.
    destruct (Hall x Hx) as (r' & c' & Hg' & Hp & Heq).
    now apply (Hno r' c').
Qed.

Lemma find_empty_some (b : B) (r c : Z) :
  find_empty b = Some (r, c) -> on_grid r c /\ cell b r c = 0.
Proof.
  intros Hf. apply find_some in Hf as [Hin Hz].
  split; [now apply In_grid_cells | now apply Z.eqb_eq].
Qed.

Lemma find_empty_none (b : B) :
  find_empty b = None <-> forall r c, on_grid r c -> cell b r c <> 0.
Proof.
  unfold find_empty. split.
  - intros Hf r c Hg. apply In_grid_cells in Hg.
    apply (find_none _ _ Hf) in Hg. now apply Z.eqb_neq.
  - intros Hall. destruct (find _ _) as [[r c]|] eqn:Hf; [|reflexivity].
    apply find_some in Hf as [Hin Hz]. apply In_grid_cells in Hin.
    apply Z.eqb_eq in Hz. now apply Hall in Hin.
Qed.

End Validator.

(** ** Invariants of the working board *)

Section Invariants.
Context {B : Type} `{BoardLaws B}.

Lemma extends_refl (b : B) : extends b b.
Proof. now intros r c _ _. Qed.

Lemma extends_trans (b1 b2 b3 : B) :
  extends b1 b2 -> extends b2 b3 -> extends b1 b3.
Proof.
  intros H12 H23 r c Hg Hne. rewrite H23, H12; trivial.
  now rewrite H12.
Qed.

Lemma empties_le_81 (b : B) : (empties b <= 81)%nat.
Proof.
  unfold empties.
  etransitivity; [apply filter_length_le with (g := fun _ => true); auto|].
  rewrite forallb_filter_id by reflexivity. reflexivity.
Qed.

Lemma extends_empties (b b' : B) :
  extends b b' -> (empties b' <= empties b)%nat.
Proof.
  intros Hext. apply filter_length_le. intros [r c] Hin Hz.
  apply In_grid_cells in Hin. apply Z.eqb_eq in Hz. apply Z.eqb_eq.
  destruct (Z.eq_dec (cell b r c) 0) as [|Hne]; trivial.
  rewrite (Hext r c Hin Hne) in Hz. contradiction.
Qed.

Lemma extends_empties_lt (b b' : B) (r c : Z) :
  extends b b' -> on_grid r c -> cell b r c = 0 -> cell b' r c <> 0 ->
  (empties b' < empties b)%nat.
Proof.
  intros Hext Hg Hz Hnz. apply filter_length_lt with (a := (r, c)).
  - intros [r' c'] Hin Hz'.
    apply In_grid_cells in Hin. apply Z.eqb_eq in Hz'. apply Z.eqb_eq.
    destruct (Z.eq_dec (cell b r' c') 0) as [|Hne]; trivial.
    rewrite (Hext r' c' Hin Hne) in Hz'. contradiction.
  - now apply In_grid_cells.
  - now apply Z.eqb_neq.
  - now apply Z.eqb_eq.
Qed.

Lemma cell_assign_same (b : B) (r c v : Z) :
  well_formed b -> on_grid r c -> cell (assign b r c v) r c = v.
Proof.
  intros Hwf Hg. rewrite cell_assign by assumption.
  now rewrite !Z.eqb_refl.
Qed.

Lemma cell_assign_other (b : B) (r c v r' c' : Z) :
  well_formed b -> on_grid r c -> on_grid r' c' -> (r', c') <> (r, c) ->
  cell (assign b r c v) r' c' = cell b r' c'.
Proof.
  intros Hwf Hg Hg' Hne. rewrite cell_assign by assumption.
  destruct (r' =? r) eqn:Er, (c' =? c) eqn:Ec; try reflexivity.
  apply Z.eqb_eq in Er, Ec. congruence.
Qed.

Lemma fill_extends (b : B) (r c v : Z) :
  well_formed b -> on_grid r c -> cell b r c = 0 ->
  extends b (assign b r c v).
Proof.
  intros Hwf Hg Hz r' c' Hg' Hne.
  apply cell_assign_other; trivial. congruence.
Qed.

Lemma fill_consistent (b : B) (r c v : Z) :
  well_formed b -> on_grid r c -> cell b r c = 0 ->
  (forall r' c', on_grid r' c' -> peer r c r' c' -> (r', c') <> (r, c) ->
                 cell b r' c' <> v) ->
  consistent b -> consistent (assign b r c v).
Proof.
  intros Hwf Hg Hz Hleg Hc r1 c1 r2 c2 Hg1 Hg2 Hp Hne Hnz.
  destruct (cell_eq_dec r1 c1 r c) as [E1 | N1].
  - inversion E1; subst.
    rewrite cell_assign_same by assumption.
    rewrite cell_assign_other by assumption. now apply Hleg.
  - rewrite (cell_assign_other b r c v r1 c1) in * by assumption.
    destruct (cell_eq_dec r2 c2 r c) as [E2 | N2].
    + inversion E2; subst. rewrite cell_assign_same by assumption.
      intros Heq. apply (Hleg r1 c1); trivial; [|congruence].
      unfold peer in *. intuition lia.
    + rewrite cell_assign_other by assumption. now apply Hc.
Qed.

Lemma reset_consistent (b : B) (r c : Z) :
  well_formed b -> on_grid r c ->
  consistent b -> consistent (assign b r c 0).
Proof.
  intros Hwf Hg Hc r1 c1 r2 c2 Hg1 Hg2 Hp Hne Hnz.
  assert (H1 : (r1, c1) <> (r, c)).
  { intros Heq. inversion Heq; subst.
    now rewrite cell_assign_same in Hnz. }
  rewrite (cell_assign_other b r c 0 r1 c1) in * by assumption.
  rewrite cell_assign by assumption.
  destruct ((r2 =? r) && (c2 =? c)); [congruence | now apply Hc].
Qed.

Lemma assign_digits_ok (b : B) (r c v : Z) :
  well_formed b -> on_grid r c -> 0 <= v <= 9 ->
  digits_ok b -> digits_ok (assign b r c v).
Proof.
  intros Hwf Hg Hv Hd r' c' Hg'. rewrite cell_assign by assumption.
  destruct ((r' =? r) && (c' =? c)); [lia | now apply Hd].
Qed.

End Invariants.

(** ** The propagator and the two searches *)

Section Search.
Context {B : Type} `{BoardLaws B}.

(** A frame relation on boards: anything that single-cell assignments
    preserve, step after step. *)
Variable R : B -> B -> Prop.
Hypothesis R_refl : forall b, R b b.
Hypothesis R_trans : forall b1 b2 b3, R b1 b2 -> R b2 b3 -> R b1 b3.
Hypothesis R_assign : forall b r c v, R b (assign b r c v).

Lemma step_ok_refl (b : B) : well_formed b -> step_ok R b b.
Proof.
  intros Hwf. split; [assumption|]. split; [apply extends_refl|].
  split; [now split | apply R_refl].
Qed.

Lemma step_ok_trans (b1 b2 b3 : B) :
  step_ok R b1 b2 -> step_ok R b2 b3 -> step_ok R b1 b3.
Proof.
  intros (W2 & E12 & I12 & R12) (W3 & E23 & I23 & R23).
  split; [assumption|]. split; [eauto using extends_trans|].
  split; [|eauto].
  intros Hc Hd. destruct (I12 Hc Hd). auto.
Qed.

Lemma step_fill (b : B) (r c v : Z) :
  well_formed b -> on_grid r c -> cell b r c = 0 -> 1 <= v <= 9 ->
  (forall r' c', on_grid r' c' -> peer r c r' c' -> (r', c') <> (r, c) ->
                 cell b r' c' <> v) ->
  step_ok R b (assign b r c v).
Proof.
  intros Hwf Hg Hz Hv Hleg. split; [now apply wf_assign|].
  split; [now apply fill_extends|]. split; [|apply R_assign].
  intros Hc Hd. split.
  - now apply fill_consistent.
  - apply assign_digits_ok; trivial. lia.
Qed.

Lemma step_reset (b0 b' : B) (r c : Z) :
  well_formed b0 -> on_grid r c -> cell b0 r c = 0 ->
  step_ok R b0 b' -> step_ok R b0 (assign b' r c 0).
Proof.
  intros Hwf Hg Hz (W & E & I & Rb). split; [now apply wf_assign|].
  split; [|split; [|eauto]].
  - intros r' c' Hg' Hne. rewrite cell_assign_other; auto. congruence.
  - intros Hc Hd. destruct (I Hc Hd) as [Hc' Hd']. split.
    + now apply reset_consistent.
    + apply assign_digits_ok; trivial. lia.
Qed.

(** *** [propagate_singles] *)

Lemma propagate_cell_inv (b0 : B) (m0 : Moves) st (r c : Z) :
  on_grid r c -> pass_inv R b0 m0 st ->
  pass_inv R b0 m0 (propagate_cell st (r, c)).
Proof.
  destruct st as [[b m] p]. intros Hg [Hs Hp]. unfold propagate_cell.
  destruct (cell b r c =? 0) eqn:E0; [|now split].
  destruct (candidates b r c) as [|val [|]] eqn:Hc; try now split.
  assert (Hwf : well_formed b) by apply Hs.
  assert (Hin : In val (candidates b r c)) by (rewrite Hc; now left).
  apply In_candidates in Hin as (Hz & Hv & Hall); trivial.
  assert (Hfill : step_ok R b (assign b r c val)).
  { apply step_fill; trivial. intros r' c' Hg' Hpeer _. now apply Hall. }
  split; [eapply step_ok_trans; eassumption|].
  assert (Hlt : (empties (assign b r c val) < empties b)%nat).
  { apply extends_empties_lt with (r := r) (c := c);
      [apply Hfill | assumption | assumption |].
    rewrite cell_assign_same by assumption. lia. }
  assert (Hle : (empties b <= empties b0)%nat)
    by (apply extends_empties, Hs).
  lia.
Qed.

Lemma propagate_fold_inv (b0 : B) (m0 : Moves) (cells : list (Z * Z)) :
  (forall r c, In (r, c) cells -> on_grid r c) ->
  forall st, pass_inv R b0 m0 st ->
             pass_inv R b0 m0 (fold_left propagate_cell cells st).
Proof.
  induction cells as [|[r c] cells IH]; intros Hcells st Hst;
    cbn [fold_left].
  - assumption.
  - apply IH; [intros; apply Hcells; now right|].
    apply propagate_cell_inv; trivial. apply Hcells. now left.
Qed.

Lemma propagate_pass_inv (b : B) (m : Moves) :
  well_formed b -> pass_inv R b m (propagate_pass b m).
Proof.
  intros Hwf. apply propagate_fold_inv.
  - intros r c. apply In_grid_cells.
  - split; [now apply step_ok_refl | now split].
Qed.

Lemma propagate_loop_S (fuel : nat) (b : B) (m : Moves) (ch : bool) :
  propagate_loop (S fuel) b m ch =
    let '(b1, m1, progress) := propagate_pass b m in
    if negb progress then Some (ch, b1, m1)
    else propagate_loop fuel b1 m1 true.
Proof. reflexivity. Qed.

Lemma propagate_loop_spec (fuel : nat) :
  forall (b : B) (m : Moves) (ch : bool),
    well_formed b -> (empties b < fuel)%nat ->
    exists ch' b' m',
      propagate_loop fuel b m ch = Some (ch', b', m') /\
      step_ok R b b' /\ propagate_pass b' m' = (b', m', false).
Proof.
  induction fuel as [|fuel IH]; intros b m ch Hwf Hfuel; [lia|].
  rewrite propagate_loop_S. assert (Hinv := propagate_pass_inv b m Hwf).
  destruct (propagate_pass b m) as [[b1 m1] p] eqn:Hpass.
  destruct Hinv as [Hs Hp]. destruct p; cbn [negb].
  - destruct (IH b1 m1 true) as (ch' & b' & m' & Hrun & Hs' & Hfix).
    + apply Hs.
    + lia.
    + exists ch', b', m'. split; [assumption|].
      split; [eapply step_ok_trans; eassumption | assumption].
  - destruct Hp as [-> ->]. exists ch, b, m. auto.
Qed.

Lemma propagate_singles_spec (b : B) (m : Moves) :
  well_formed b ->
  exists ch b' m',
    propagate_singles b m = Some (ch, b', m') /\
    step_ok R b b' /\ propagate_pass b' m' = (b', m', false).
Proof.
  intros Hwf. apply propagate_loop_spec; [assumption|].
  assert (Hle := empties_le_81 b). unfold budget. lia.
Qed.

Lemma propagate_cell_filled (b : B) (m : Moves) (p : bool) (r c : Z) :
  cell b r c <> 0 -> propagate_cell (b, m, p) (r, c) = (b, m, p).
Proof.
  intros Hne. unfold propagate_cell. apply Z.eqb_neq in Hne.
  now rewrite Hne.
Qed.

Lemma propagate_pass_full (b : B) (m : Moves) :
  full b -> propagate_pass b m = (b, m, false).
Proof.
  intros Hfull. unfold propagate_pass.
  assert (Hcells : forall r c, In (r, c) grid_cells -> on_grid r c)
    by (intros r c; apply In_grid_cells).
  induction grid_cells as [|[r c] cells IH]; cbn [fold_left];
    [reflexivity|].
  rewrite propagate_cell_filled by (apply Hfull, Hcells; now left).
  apply IH. intros; apply Hcells; now right.
Qed.

Lemma propagate_singles_full (b : B) (m : Moves) :
  full b -> propagate_singles b m = Some (false, b, m).
Proof.
  intros Hfull. unfold propagate_singles, budget.
  rewrite propagate_loop_S. now rewrite propagate_pass_full.
Qed.

(** *** The two [bt] *)

Lemma post_trans (b1 b2 : B) res :
  step_ok R b1 b2 -> post R b2 res -> post R b1 res.
Proof.
  destruct res as [[ok b'] m']. intros Hs [Hs' Hfull].
  split; [eapply step_ok_trans; eassumption | assumption].
Qed.

Lemma step_fill_legal (b : B) (r c v : Z) :
  well_formed b -> on_grid r c -> cell b r c = 0 -> 1 <= v <= 9 ->
  is_valid_move b r c v = true ->
  step_ok R b (assign b r c v) /\
  (empties (assign b r c v) < empties b)%nat.
Proof.
  intros Hwf Hg Hz Hv Hleg.
  assert (Hs : step_ok R b (assign b r c v)).
  { apply step_fill; trivial.
    apply is_valid_move_sound; trivial. lia. }
  split; [assumption|].
  apply extends_empties_lt with (r := r) (c := c);
    [apply Hs | assumption | assumption |].
  rewrite cell_assign_same by assumption. lia.
Qed.

Lemma bf_loop_spec rec (n : nat) (r c : Z) :
  returns_below R rec n -> on_grid r c ->
  forall vs (b : B) (m : Moves),
    well_formed b -> cell b r c = 0 -> (empties b <= n)%nat ->
    (forall v, In v vs -> 1 <= v <= 9) ->
    exists res, bf_loop rec r c vs b m = Some res /\ post R b res.
Proof.
  intros Hrec Hg. induction vs as [|v vs IH]; intros b m Hwf Hz Hn Hvs.
  - exists (false, b, m). split; [reflexivity|].
    split; [now apply step_ok_refl | discriminate].
  - cbn [bf_loop].
    assert (Hvs' : forall x, In x vs -> 1 <= x <= 9)
      by (intros; apply Hvs; now right).
    destruct (is_valid_move b r c v) eqn:Hv; [|now apply IH].
    destruct (step_fill_legal b r c v) as [Hs Hlt];
      [assumption | assumption | assumption | apply Hvs; now left
      | assumption |].
    destruct (Hrec (assign b r c v) (m ++ [msg_try r c v]))
      as ([[ok b2] m2] & Hrun & Hs2 & Hfull2); [apply Hs | lia |].
    rewrite Hrun.
    assert (Hs02 : step_ok R b b2) by (eapply step_ok_trans; eassumption).
    destruct ok.
    + exists (true, b2, m2). split; [reflexivity | now split].
    + assert (Hs3 : step_ok R b (assign b2 r c 0)) by now apply step_reset.
      destruct (IH (assign b2 r c 0) (m2 ++ [msg_backtrack r c v]))
        as (res & Hrun' & Hpost).
      * apply Hs3.
      * apply cell_assign_same; [apply Hs2 | assumption].
      * assert (Hle : (empties (assign b2 r c 0) <= empties b)%nat)
          by (apply extends_empties, Hs3).
        lia.
      * assumption.
      * exists res. split; [assumption|].
        eapply post_trans; eassumption.
Qed.

Lemma bf_bt_spec (fuel : nat) : returns_below R (bf_bt fuel) fuel.
Proof.
  induction fuel as [|fuel IH]; intros b m Hwf Hlt; [lia|].
  cbn [bf_bt]. destruct (find_empty b) as [[r c]|] eqn:Hf.
  - apply find_empty_some in Hf as [Hg Hz].
    apply bf_loop_spec with (n := fuel);
      [assumption | assumption | assumption | assumption | lia |].
    intros v Hv. apply In_range in Hv. lia.
  - exists (true, b, m). split; [reflexivity|].
    split; [now apply step_ok_refl|].
    intros _. exact (proj1 (find_empty_none b) Hf).
Qed.

Lemma mrv_scan_some (b : B) (cells : list (Z * Z)) :
  (forall r c, In (r, c) cells -> on_grid r c) ->
  forall best r c cand,
    (forall r0 c0 cand0, best = Some (r0, c0, cand0) ->
       on_grid r0 c0 /\ cell b r0 c0 = 0 /\ cand0 = candidates b r0 c0) ->
    mrv_scan b cells best = Some (r, c, cand) ->
    on_grid r c /\ cell b r c = 0 /\ cand = candidates b r c.
Proof.
  induction cells as [|[r1 c1] cells IH]; intros Hcells best r c cand Hbest;
    cbn [mrv_scan].
  - intros ->. now apply Hbest.
  - assert (Hcells' : forall r c, In (r, c) cells -> on_grid r c)
      by (intros; apply Hcells; now right).
    destruct (cell b r1 c1 =? 0) eqn:E0; [|now apply IH].
    destruct (candidates b r1 c1) as [|x cand1] eqn:Hc; [discriminate|].
    apply IH; trivial. intros r0 c0 cand0.
    assert (Hnew : Some (r1, c1, x :: cand1) = Some (r0, c0, cand0) ->
                   on_grid r0 c0 /\ cell b r0 c0 = 0 /\
                   cand0 = candidates b r0 c0).
    { intros Heq. inversion Heq; subst.
      split; [apply Hcells; now left|]. split; [now apply Z.eqb_eq | auto]. }
    destruct best as [[[rb cb] candb]|]; [|exact Hnew].
    destruct (length (x :: cand1) <? length candb)%nat;
      [exact Hnew | apply Hbest].
Qed.

Lemma select_mrv_cell_some (b : B) (r c : Z) (cand : list Z) :
  select_mrv_cell b = Some (r, c, cand) ->
  on_grid r c /\ cell b r c = 0 /\ cand = candidates b r c.
Proof.
  apply mrv_scan_some.
  - intros r0 c0. apply In_grid_cells.
  - discriminate.
Qed.

Lemma bp_loop_spec rec (n : nat) (r c : Z) :
  returns_below R rec n -> on_grid r c ->
  forall vs (b : B) (m : Moves),
    well_formed b -> cell b r c = 0 -> (empties b <= n)%nat ->
    (forall v, In v vs -> 1 <= v <= 9) ->
    exists res, bp_loop rec r c vs b m = Some res /\ post R b res.
Proof.
  intros Hrec Hg. induction vs as [|v vs IH]; intros b m Hwf Hz Hn Hvs.
  - exists (false, b, m). split; [reflexivity|].
    split; [now apply step_ok_refl | discriminate].
  - cbn [bp_loop].
    assert (Hvs' : forall x, In x vs -> 1 <= x <= 9)
      by (intros; apply Hvs; now right).
    destruct (is_valid_move b r c v) eqn:Hv; [|now apply IH].
    destruct (step_fill_legal b r c v) as [Hs Hlt];
      [assumption | assumption | assumption | apply Hvs; now left
      | assumption |].
    destruct (propagate_singles_spec (assign b r c v)
                (m ++ [msg_choose r c v]))
      as (ch & b1 & m1 & Hprop & Hs1 & _); [apply Hs|].
    rewrite Hprop.
    assert (Hle1 : (empties b1 <= empties (assign b r c v))%nat)
      by (apply extends_empties, Hs1).
    destruct (Hrec b1 m1) as ([[ok b2] m2] & Hrun & Hs2 & Hfull2);
      [apply Hs1 | lia |].
    rewrite Hrun.
    assert (Hs02 : step_ok R b b2).
    { eapply step_ok_trans; [eassumption|].
      eapply step_ok_trans; eassumption. }
    destruct ok.
    + exists (true, b2, m2). split; [reflexivity | now split].
    + assert (Hs3 : step_ok R b (assign b2 r c 0)) by now apply step_reset.
      destruct (IH (assign b2 r c 0) (m2 ++ [msg_backtrack r c v]))
        as (res & Hrun' & Hpost).
      * apply Hs3.
      * apply cell_assign_same; [apply Hs2 | assumption].
      * assert (Hle : (empties (assign b2 r c 0) <= empties b)%nat)
          by (apply extends_empties, Hs3).
        lia.
      * assumption.
      * exists res. split; [assumption|].
        eapply post_trans; eassumption.
Qed.

Lemma bp_bt_spec (fuel : nat) : returns_below R (bp_bt fuel) fuel.
Proof.
  induction fuel as [|fuel IH]; intros b m Hwf Hlt; [lia|].
  cbn [bp_bt]. destruct (select_mrv_cell b) as [[[r c] cand]|] eqn:Hsel.
  - apply select_mrv_cell_some in Hsel as (Hg & Hz & ->).
    apply bp_loop_spec with (n := fuel);
      [assumption | assumption | assumption | assumption | lia |].
    intros v Hv. apply (Permutation_in _ (sorted_perm _)) in Hv.
    apply In_candidates in Hv; tauto.
  - eexists. split; [reflexivity|].
    split; [now apply step_ok_refl|].
    destruct (find_empty b) eqn:Hf; [discriminate|].
    intros _. exact (proj1 (find_empty_none b) Hf).
Qed.

(** Both searches return on every well-formed board, within the budget. *)
Lemma bf_bt_returns (b : B) (m : Moves) :
  well_formed b -> exists res, bf_bt budget b m = Some res /\ post R b res.
Proof.
  intros Hwf. apply bf_bt_spec; [assumption|].
  assert (Hle := empties_le_81 b). unfold budget. lia.
Qed.

Lemma bp_search_returns (b : B) (m : Moves) :
  well_formed b ->
  exists res,
    match propagate_singles b m with
    | None => None
    | Some (_, b1, m1) => bp_bt budget b1 m1
    end = Some res /\ post R b res.
Proof.
  intros Hwf.
  destruct (propagate_singles_spec b m Hwf)
    as (ch & b1 & m1 & Hprop & Hs1 & _).
  rewrite Hprop.
  destruct (bp_bt_spec budget b1 m1) as (res & Hrun & Hpost).
  - apply Hs1.
  - assert (Hle := empties_le_81 b1). unfold budget. lia.
  - exists res. split; [assumption|]. eapply post_trans; eassumption.
Qed.

End Search.

(** ** The completeness check *)

Lemma NoDup_map_on {A C} (f : A -> C) (l : list A) :
  NoDup l -> (forall x y, In x l -> In y l -> f x = f y -> x = y) ->
  NoDup (map f l).
Proof.
  induction 1 as [|a l Hnin Hnd IH]; intros Hinj; simpl; constructor.
  - intros Hin. apply in_map_iff in Hin as (y & Heq & Hy).
    apply Hinj in Heq; [subst; contradiction | now right | now left].
  - apply IH. intros x y Hx Hy. apply Hinj; now right.
Qed.

Lemma NoDup_range (a b : Z) : NoDup (range a b).
Proof.
  unfold range. apply NoDup_map_on; [apply seq_NoDup|].
  intros x y _ _ Heq. lia.
Qed.

Lemma length_range (a b : Z) : length (range a b) = Z.to_nat (b - a).
Proof. unfold range. now rewrite length_map, length_seq. Qed.

Lemma nine_distinct_digits (l : list Z) :
  NoDup l -> length l = 9%nat -> (forall x, In x l -> 1 <= x <= 9) ->
  Permutation l digits.
Proof.
  intros Hnd Hlen Hdig. apply NoDup_Permutation_bis; trivial.
  - rewrite Hlen. simpl. lia.
  - intros x Hx. change digits with (range 1 10). apply In_range.
    apply Hdig in Hx. lia.
Qed.

Lemma In_range3_0_9 (x : Z) :
  In x (range3 0 9) <-> exists i, 0 <= i < 3 /\ x = 3 * i.
Proof.
  change (range3 0 9) with [0; 3; 6]. simpl. split.
  - intros [<- | [<- | [<- | []]]];
      [exists 0 | exists 1 | exists 2]; lia.
  - intros (i & Hi & ->).
    assert (Hc : i = 0 \/ i = 1 \/ i = 2) by lia.
    destruct Hc as [-> | [-> | ->]]; auto.
Qed.

Lemma In_box_cells (br bc r c : Z) :
  In (r, c) (box_cells br bc) <-> br <= r < br + 3 /\ bc <= c < bc + 3.
Proof.
  unfold box_cells. rewrite in_flat_map. split.
  - intros (x & Hx & Hin). apply in_map_iff in Hin as (y & Heq & Hy).
    inversion Heq; subst. apply In_range in Hx, Hy. lia.
  - intros [Hr Hc]. exists r. split; [now apply In_range|].
    apply in_map_iff. exists c. split; [reflexivity | now apply In_range].
Qed.

Lemma NoDup_box_cells (br bc : Z) : NoDup (box_cells br bc).
Proof.
  unfold box_cells. rewrite !range_3. simpl.
  repeat constructor; simpl; intros Hin;
    repeat (destruct Hin as [Hin | Hin]; [inversion Hin; lia|]);
    exact Hin.
Qed.

Section Validity.
Context {B : Type} `{BoardLaws B}.

Lemma is_complete_and_valid_spec (b : B) :
  is_complete_and_valid b = true <->
  (forall r, 0 <= r < 9 -> Permutation (row_of b r) digits) /\
  (forall c, 0 <= c < 9 -> Permutation (column b c) digits) /\
  (forall i j, 0 <= i < 3 -> 0 <= j < 3 ->
               Permutation (box b (3 * i) (3 * j)) digits).
Proof.
  unfold is_complete_and_valid.
  rewrite !andb_true_iff, !forallb_forall. split.
  - intros [[Hrow Hcol] Hbox]. repeat split.
    + intros r Hr. apply sorted_is_digits, Hrow, In_range. lia.
    + intros c Hc. apply sorted_is_digits, Hcol, In_range. lia.
    + intros i j Hi Hj. apply sorted_is_digits.
      assert (Hbi : In (3 * i) (range3 0 9))
        by (apply In_range3_0_9; eauto).
      assert (Hbj : In (3 * j) (range3 0 9))
        by (apply In_range3_0_9; eauto).
      specialize (Hbox _ Hbi). rewrite forallb_forall in Hbox.
      exact (Hbox _ Hbj).
  - intros (Hrow & Hcol & Hbox). repeat split.
    + intros r Hr. apply sorted_is_digits, Hrow. apply In_range in Hr. lia.
    + intros c Hc. apply sorted_is_digits, Hcol. apply In_range in Hc. lia.
    + intros br Hbr. apply forallb_forall. intros bc Hbc.
      apply In_range3_0_9 in Hbr as (i & Hi & ->).
      apply In_range3_0_9 in Hbc as (j & Hj & ->).
      apply sorted_is_digits. now apply Hbox.
Qed.

Lemma box_as_map (b : B) (br bc : Z) :
  box b br bc = map (fun rc => cell b (fst rc) (snd rc)) (box_cells br bc).
Proof.
  unfold box, box_cells. rewrite !range_3. reflexivity.
Qed.

(** A full, conflict-free board of digits passes the check. *)
Lemma full_consistent_valid (b : B) :
  well_formed b -> full b -> consistent b -> digits_ok b ->
  is_complete_and_valid b = true.
Proof.
  intros Hwf Hfull Hcons Hdig. apply is_complete_and_valid_spec.
  assert (Hd : forall r c, on_grid r c -> 1 <= cell b r c <= 9).
  { intros r c Hg. specialize (Hfull r c Hg). specialize (Hdig r c Hg). lia. }
  repeat split.
  - intros r Hr. rewrite row_cells by assumption.
    apply nine_distinct_digits.
    + apply NoDup_map_on; [apply NoDup_range|].
      intros x y Hx Hy Heq. apply In_range in Hx, Hy.
      destruct (Z.eq_dec x y) as [|Hne]; trivial. exfalso.
      apply (Hcons r y r x);
        [unfold on_grid; lia | unfold on_grid; lia | left; reflexivity
        | congruence | apply Hfull; unfold on_grid; lia | assumption].
    + now rewrite length_map, length_range.
    + intros x Hx. apply in_map_iff in Hx as (c & <- & Hc).
      apply In_range in Hc. apply Hd. unfold on_grid. lia.
  - intros c Hc. unfold column. apply nine_distinct_digits.
    + apply NoDup_map_on; [apply NoDup_range|].
      intros x y Hx Hy Heq. apply In_range in Hx, Hy.
      destruct (Z.eq_dec x y) as [|Hne]; trivial. exfalso.
      apply (Hcons y c x c);
        [unfold on_grid; lia | unfold on_grid; lia | right; left; reflexivity
        | congruence | apply Hfull; unfold on_grid; lia | assumption].
    + now rewrite length_map, length_range.
    + intros x Hx. apply in_map_iff in Hx as (r & <- & Hr).
      apply In_range in Hr. apply Hd. unfold on_grid. lia.
  - intros i j Hi Hj. rewrite box_as_map. apply nine_distinct_digits.
    + apply NoDup_map_on; [apply NoDup_box_cells|].
      intros [r1 c1] [r2 c2] H1 H2 Heq. simpl in Heq.
      apply In_box_cells in H1, H2.
      destruct (cell_eq_dec r1 c1 r2 c2) as [|Hne]; trivial. exfalso.
      apply (Hcons r2 c2 r1 c1);
        [unfold on_grid; lia | unfold on_grid; lia | right; right; dlia
        | assumption | apply Hfull; unfold on_grid; lia | assumption].
    + rewrite length_map. unfold box_cells. rewrite !range_3. reflexivity.
    + intros x Hx. apply in_map_iff in Hx as ([r c] & <- & Hrc).
      apply In_box_cells in Hrc. apply Hd. unfold on_grid. simpl. lia.
Qed.

End Validity.

(** ** Nested lists satisfy the laws *)

Lemma length_set_nth {A} (n : nat) (l : list A) (x : A) :
  length (set_nth n l x) = length l.
Proof.
  revert n. induction l as [|y t IH]; intros [|n]; simpl; auto.
Qed.

Lemma nth_set_nth_same {A} (n : nat) (l : list A) (x d : A) :
  (n < length l)%nat -> nth n (set_nth n l x) d = x.
Proof.
  revert n. induction l as [|y t IH]; intros [|n]; simpl; intros Hn;
    try lia; auto. apply IH. lia.
Qed.

Lemma nth_set_nth_other {A} (m n : nat) (l : list A) (x d : A) :
  m <> n -> nth m (set_nth n l x) d = nth m l d.
Proof.
  revert m n. induction l as [|y t IH]; intros [|m] [|n]; simpl; intros Hn;
    try lia; auto.
Qed.

Lemma Forall_set_nth {A} (P : A -> Prop) (n : nat) (l : list A) (x : A) :
  Forall P l -> ((n < length l)%nat -> P x) -> Forall P (set_nth n l x).
Proof.
  intros Hl. revert n. induction Hl as [|y t Hy Ht IH]; intros [|n] Hx; simpl;
    auto.
  - constructor; [apply Hx; simpl; lia | assumption].
  - constructor; [assumption|]. apply IH. intros Hn. apply Hx. simpl. lia.
Qed.

Lemma is_9x9_spec (b : Board) :
  is_9x9 b = true <->
  length b = 9%nat /\ Forall (fun row => length row = 9%nat) b.
Proof.
  unfold is_9x9. rewrite andb_true_iff, Nat.eqb_eq, forallb_forall,
    Forall_forall.
  split; intros [Hl Hr]; (split; [assumption|]); intros row Hin;
    apply Nat.eqb_eq; auto.
Qed.

Lemma row_length (b : Board) (r : Z) :
  is_9x9 b = true -> 0 <= r < 9 -> length (nth (Z.to_nat r) b []) = 9%nat.
Proof.
  intros Hwf Hr. apply is_9x9_spec in Hwf as [Hl Hrows].
  rewrite Forall_forall in Hrows. apply Hrows, nth_In. lia.
Qed.

Lemma row_as_cells (l : list Z) :
  length l = 9%nat -> l = map (fun c => nth (Z.to_nat c) l 0) (range 0 9).
Proof.
  intros Hl. do 10 (destruct l as [|? l]; try discriminate). reflexivity.
Qed.

Lemma length_list_set {A} (l : list A) (i : Z) (x : A) :
  length (list_set l i x) = length l.
Proof.
  unfold list_set. destruct (0 <=? i); [apply length_set_nth | reflexivity].
Qed.

Lemma board_wf_assign (b : Board) (r c v : Z) :
  is_9x9 b = true -> is_9x9 (board_assign b r c v) = true.
Proof.
  intros Hwf. apply is_9x9_spec in Hwf as [Hl Hrows]. apply is_9x9_spec.
  unfold board_assign. rewrite length_list_set. split; [assumption|].
  unfold list_set at 1. destruct (0 <=? r); [|assumption].
  apply Forall_set_nth; [assumption|]. intros Hr.
  rewrite length_list_set. rewrite Forall_forall in Hrows.
  now apply Hrows, nth_In.
Qed.

Lemma board_cell_assign (b : Board) (r c v r' c' : Z) :
  is_9x9 b = true -> on_grid r c -> on_grid r' c' ->
  board_cell (board_assign b r c v) r' c' =
    if (r' =? r) && (c' =? c) then v else board_cell b r' c'.
Proof.
  intros Hwf [Hr Hc] [Hr' Hc'].
  assert (Hrow := row_length b r Hwf Hr).
  apply is_9x9_spec in Hwf as [Hl _].
  unfold board_cell, board_assign, list_set.
  replace (0 <=? r) with true by (symmetry; apply Z.leb_le; lia).
  replace (0 <=? c) with true by (symmetry; apply Z.leb_le; lia).
  destruct (r' =? r) eqn:Er; simpl.
  - apply Z.eqb_eq in Er. subst r'.
    rewrite nth_set_nth_same by lia.
    destruct (c' =? c) eqn:Ec.
    + apply Z.eqb_eq in Ec. subst c'. apply nth_set_nth_same. lia.
    + apply Z.eqb_neq in Ec. apply nth_set_nth_other. lia.
  - apply Z.eqb_neq in Er. rewrite nth_set_nth_other by lia. reflexivity.
Qed.

Lemma board_row_cells (b : Board) (r : Z) :
  is_9x9 b = true -> 0 <= r < 9 ->
  nth (Z.to_nat r) b [] = map (board_cell b r) (range 0 9).
Proof.
  intros Hwf Hr. unfold board_cell.
  apply row_as_cells. now apply row_length.
Qed.

#[export] Instance board_laws : BoardLaws Board := {
  well_formed := fun b => is_9x9 b = true;
  wf_assign := board_wf_assign;
  cell_assign := board_cell_assign;
  row_cells := board_row_cells
}.

Lemma board_deep_copy (b : Board) : deep_copy b = b.
Proof. apply map_id. Qed.

(** ** The store of row objects satisfies the laws *)

Lemma nth_map_in {A C} (f : A -> C) (l : list A) (n : nat) (d : A) (d' : C) :
  (n < length l)%nat -> nth n (map f l) d' = f (nth n l d).
Proof.
  intros Hn. rewrite (nth_indep _ d' (f d)) by (now rewrite length_map).
  apply map_nth.
Qed.

Lemma obj_row_value (o : Obj) (r : Z) :
  (Z.to_nat r < length (rows o))%nat ->
  obj_row o r = nth (Z.to_nat r) (value (store o) (rows o)) [].
Proof.
  intros Hr. unfold obj_row, value. symmetry.
  now apply (nth_map_in (fun a => nth a (store o) [])).
Qed.

Lemma obj_cell_value (o : Obj) (r c : Z) :
  (Z.to_nat r < length (rows o))%nat ->
  obj_cell o r c = board_cell (value (store o) (rows o)) r c.
Proof.
  intros Hr. unfold obj_cell, board_cell. now rewrite obj_row_value.
Qed.

Lemma value_set_nth (st : list (list Z)) (ref : list nat) (n : nat)
    (x : list Z) :
  NoDup ref -> (n < length ref)%nat -> (nth n ref 0 < length st)%nat ->
  value (set_nth (nth n ref 0%nat) st x) ref = set_nth n (value st ref) x.
Proof.
  unfold value. intros Hnd. revert n.
  induction Hnd as [|a t Hnin Hnd IH]; intros [|n] Hn Ha; simpl in *;
    try lia.
  - rewrite nth_set_nth_same by assumption. f_equal.
    apply map_ext_in. intros a' Hin. apply nth_set_nth_other.
    intros ->. contradiction.
  - rewrite nth_set_nth_other.
    + f_equal. apply IH; [lia | assumption].
    + intros ->. apply Hnin, nth_In. lia.
Qed.

Lemma obj_wf_rows (o : Obj) : obj_wf o -> length (rows o) = 9%nat.
Proof.
  intros (Hwf & _). apply is_9x9_spec in Hwf as [Hl _].
  unfold value in Hl. now rewrite length_map in Hl.
Qed.

Lemma obj_assign_value (o : Obj) (r c v : Z) :
  obj_wf o -> 0 <= r < 9 ->
  rows (obj_assign o r c v) = rows o /\
  length (store (obj_assign o r c v)) = length (store o) /\
  value (store (obj_assign o r c v)) (rows o) =
    board_assign (value (store o) (rows o)) r c v.
Proof.
  intros Hwf Hr. assert (Hrows := obj_wf_rows o Hwf).
  destruct Hwf as (H9 & Hnd & Haddr). unfold obj_assign.
  replace ((0 <=? r) && (r <? Z.of_nat (length (rows o)))) with true
    by (symmetry; apply andb_true_iff; split;
        [apply Z.leb_le | apply Z.ltb_lt]; lia).
  simpl. split; [reflexivity|]. split; [apply length_set_nth|].
  rewrite value_set_nth; try lia; trivial.
  - unfold board_assign, list_set at 2.
    replace (0 <=? r) with true by (symmetry; apply Z.leb_le; lia).
    f_equal. f_equal. unfold value. symmetry.
    apply (nth_map_in (fun a => nth a (store o) [])). lia.
  - rewrite Forall_forall in Haddr. apply Haddr, nth_In. lia.
Qed.

Lemma obj_wf_assign (o : Obj) (r c v : Z) :
  obj_wf o -> obj_wf (obj_assign o r c v).
Proof.
  intros Hwf.
  destruct (Z_lt_ge_dec r 0) as [Hneg | Hpos];
    [|destruct (Z_lt_ge_dec r 9) as [Hlt | Hge]].
  - unfold obj_assign.
    replace (0 <=? r) with false by (symmetry; apply Z.leb_gt; lia).
    assumption.
  - destruct (obj_assign_value o r c v Hwf) as (Hrows & Hlen & Hval); [lia|].
    destruct Hwf as (H9 & Hnd & Haddr). unfold obj_wf.
    rewrite Hrows, Hlen, Hval. split; [now apply board_wf_assign|].
    now split.
  - unfold obj_assign. rewrite (obj_wf_rows o Hwf).
    replace (r <? Z.of_nat 9) with false by (symmetry; apply Z.ltb_ge; lia).
    now rewrite andb_false_r.
Qed.

Lemma obj_cell_assign (o : Obj) (r c v r' c' : Z) :
  obj_wf o -> on_grid r c -> on_grid r' c' ->
  obj_cell (obj_assign o r c v) r' c' =
    if (r' =? r) && (c' =? c) then v else obj_cell o r' c'.
Proof.
  intros Hwf Hg Hg'. assert (Hrows := obj_wf_rows o Hwf).
  destruct (obj_assign_value o r c v Hwf) as (Hr & Hlen & Hval);
    [apply Hg|].
  assert (Hr' : (Z.to_nat r' < 9)%nat) by (destruct Hg'; lia).
  rewrite !obj_cell_value by (rewrite ?Hr; lia).
  rewrite Hr, Hval. apply board_cell_assign; trivial. apply Hwf.
Qed.

Lemma obj_row_cells (o : Obj) (r : Z) :
  obj_wf o -> 0 <= r < 9 -> obj_row o r = map (obj_cell o r) (range 0 9).
Proof.
  intros Hwf Hr. assert (Hrows := obj_wf_rows o Hwf).
  rewrite obj_row_value by lia.
  rewrite board_row_cells by (trivial; apply Hwf).
  apply map_ext. intros c. symmetry. apply obj_cell_value. lia.
Qed.

#[export] Instance obj_laws : BoardLaws Obj := {
  well_formed := obj_wf;
  wf_assign := obj_wf_assign;
  cell_assign := obj_cell_assign;
  row_cells := obj_row_cells
}.

Lemma frame_refl (o : Obj) : frame o o.
Proof. now split. Qed.

Lemma frame_trans (o1 o2 o3 : Obj) : frame o1 o2 -> frame o2 o3 -> frame o1 o3.
Proof.
  intros [R12 F12] [R23 F23]. split; [congruence|].
  intros a Ha. rewrite F23, F12; trivial. now rewrite R12.
Qed.

Lemma frame_assign (o : Obj) (r c v : Z) : frame o (assign o r c v).
Proof.
  simpl. unfold obj_assign.
  destruct ((0 <=? r) && (r <? Z.of_nat (length (rows o)))) eqn:E;
    [|apply frame_refl].
  split; [reflexivity|]. simpl. intros a Ha.
  apply nth_set_nth_other. intros ->. apply Ha, nth_In.
  apply andb_true_iff in E as [E1 E2]. apply Z.leb_le in E1.
  apply Z.ltb_lt in E2. lia.
Qed.

Lemma value_deep_copy (st : list (list Z)) (ref : list nat) :
  value (st ++ value st ref) (seq (length st) (length ref)) = value st ref.
Proof.
  apply nth_ext with (d := []) (d' := []).
  - unfold value. now rewrite !length_map, length_seq.
  - intros n Hn. unfold value at 1 in Hn. rewrite length_map, length_seq in Hn.
    unfold value at 1.
    rewrite (nth_map_in (fun a => nth a (st ++ value st ref) []))
      with (d := 0%nat) by (now rewrite length_seq).
    rewrite seq_nth by assumption.
    rewrite app_nth2_plus. reflexivity.
Qed.

Lemma obj_wf_deep_copy (st : list (list Z)) (ref : list nat) :
  is_9x9 (value st ref) = true ->
  obj_wf (deep_copy {| store := st; rows := ref |}).
Proof.
  intros H9. simpl. unfold obj_deep_copy, obj_wf. simpl.
  rewrite value_deep_copy. split; [assumption|]. split; [apply seq_NoDup|].
  apply Forall_forall. intros a Ha. apply in_seq in Ha.
  rewrite length_app. unfold value. rewrite length_map. lia.
Qed.

(** ** Runs on full boards, and runs with a larger budget *)

Section Runs.
Context {B : Type} `{BoardLaws B}.

Lemma mrv_scan_full (b : B) (cells : list (Z * Z)) best :
  (forall r c, In (r, c) cells -> cell b r c <> 0) ->
  mrv_scan b cells best = best.
Proof.
  induction cells as [|[r c] cells IH]; intros Hfull; cbn [mrv_scan];
    [reflexivity|].
  assert (Hne : cell b r c <> 0) by (apply Hfull; now left).
  apply Z.eqb_neq in Hne. rewrite Hne.
  apply IH. intros; apply Hfull; now right.
Qed.

Lemma select_mrv_cell_full (b : B) : full b -> select_mrv_cell b = None.
Proof.
  intros Hfull. apply mrv_scan_full.
  intros r c Hin. apply Hfull. now apply In_grid_cells.
Qed.

Lemma bf_bt_full (fuel : nat) (b : B) (m : Moves) :
  full b -> bf_bt (S fuel) b m = Some (true, b, m).
Proof.
  intros Hfull. cbn [bf_bt].
  now rewrite (proj2 (find_empty_none b) Hfull).
Qed.

Lemma bp_bt_full (fuel : nat) (b : B) (m : Moves) :
  full b -> bp_bt (S fuel) b m = Some (true, b, m).
Proof.
  intros Hfull. cbn [bp_bt].
  rewrite select_mrv_cell_full by assumption.
  now rewrite (proj2 (find_empty_none b) Hfull).
Qed.

Lemma bp_loop_mono rec rec' (r c : Z) :
  below rec rec' ->
  forall vs, below (bp_loop rec r c vs) (bp_loop rec' r c vs).
Proof.
  intros Hrec.
  induction vs as [|v vs IH]; intros b m res; cbn [bp_loop]; [trivial|].
  destruct (is_valid_move b r c v); [|apply IH].
  destruct (propagate_singles _ _) as [[[ch b1] m1]|]; [|discriminate].
  destruct (rec b1 m1) as [[[ok b2] m2]|] eqn:Hrun; [|discriminate].
  rewrite (Hrec _ _ _ Hrun). destruct ok; [trivial | apply IH].
Qed.

Lemma bp_bt_mono (fuel : nat) : below (bp_bt fuel) (bp_bt (S fuel)).
Proof.
  induction fuel as [|fuel IH]; intros b m res; [discriminate|].
  cbn [bp_bt]. destruct (select_mrv_cell b) as [[[r c] cand]|]; [|trivial].
  now apply bp_loop_mono.
Qed.

Lemma bp_bt_mono_le (fuel fuel' : nat) :
  (fuel <= fuel')%nat -> below (bp_bt fuel) (bp_bt fuel').
Proof.
  induction 1 as [|fuel' Hle IH]; intros b m res Hrun; [assumption|].
  now apply bp_bt_mono, IH.
Qed.

End Runs.

(** ** Runs on grids *)

Lemma cells_in_range_digits (g : Board) :
  cells_in_range g = true -> digits_ok g.
Proof.
  intros Hr r c Hg. unfold cells_in_range in Hr.
  rewrite forallb_forall in Hr. apply In_grid_cells in Hg.
  apply Hr in Hg. apply andb_true_iff in Hg as [H1 H2].
  apply Z.leb_le in H1, H2. lia.
Qed.

Lemma givens_consistent_spec (g : Board) :
  givens_consistent g = true -> consistent g.
Proof.
  intros Hc r c r' c' Hg Hg' Hp Hne Hnz. unfold givens_consistent in Hc.
  rewrite forallb_forall in Hc.
  assert (Hin := proj2 (In_grid_cells r c) Hg). apply Hc in Hin.
  now apply (is_valid_move_sound g r c (cell g r c)).
Qed.

Lemma bruteforce_run (g : Board) (m : Moves) :
  is_9x9 g = true ->
  exists ok s m',
    solve_bruteforce_run g m = Some (ok, s, m') /\
    step_ok no_frame g s /\ (ok = true -> full s).
Proof.
  intros Hwf. unfold solve_bruteforce_run. rewrite board_deep_copy.
  destruct (@bf_bt_returns Board board_ops board_laws no_frame
              (fun _ => I) (fun _ _ _ _ _ => I) (fun _ _ _ _ => I) g m Hwf)
    as ([[ok s] m'] & Hrun & Hpost).
  exists ok, s, m'. split; [assumption | exact Hpost].
Qed.

Lemma propagation_run (g : Board) (m : Moves) :
  is_9x9 g = true ->
  exists ok s m',
    solve_backtracking_propagation_run g m = Some (ok, s, m') /\
    step_ok no_frame g s /\ (ok = true -> full s).
Proof.
  intros Hwf. unfold solve_backtracking_propagation_run.
  rewrite board_deep_copy.
  destruct (@bp_search_returns Board board_ops board_laws no_frame
              (fun _ => I) (fun _ _ _ _ _ => I) (fun _ _ _ _ => I) g m Hwf)
    as ([[ok s] m'] & Hrun & Hpost).
  exists ok, s, m'. split; [assumption | exact Hpost].
Qed.

Lemma run_sound (g : Board) (ok : bool) (s : Board) :
  cells_in_range g = true -> givens_consistent g = true ->
  step_ok no_frame g s -> (ok = true -> full s) ->
  forall s', (if ok then Some s else None) = Some s' ->
             is_complete_and_valid s' = true /\ keeps_givens g s'.
Proof.
  intros Hr Hc (Hwf & Hext & Hinv & _) Hfull s' Hs.
  destruct ok; [|discriminate]. inversion Hs; subst s'.
  destruct Hinv as [Hcons Hdig];
    [now apply givens_consistent_spec | now apply cells_in_range_digits|].
  split; [|exact Hext].
  apply full_consistent_valid; auto.
Qed.

(** ** Grids without a completion *)

Lemma NoDup_digits : NoDup digits.
Proof. change digits with (range 1 10). apply NoDup_range. Qed.

Lemma range_0_9 : range 0 9 = [0; 1; 2; 3; 4; 5; 6; 7; 8].
Proof. reflexivity. Qed.

Lemma valid_row_cells (s : Board) (r : Z) :
  is_9x9 s = true -> is_complete_and_valid s = true -> 0 <= r < 9 ->
  Permutation (map (cell s r) (range 0 9)) digits.
Proof.
  intros Hwf Hv Hr. apply is_complete_and_valid_spec in Hv as (Hrow & _).
  rewrite <- (@row_cells Board board_ops board_laws s r Hwf Hr).
  now apply Hrow.
Qed.

Lemma valid_column_cells (s : Board) (c : Z) :
  is_complete_and_valid s = true -> 0 <= c < 9 ->
  Permutation (map (fun r => cell s r c) (range 0 9)) digits.
Proof.
  intros Hv Hc. apply is_complete_and_valid_spec in Hv as (_ & Hcol & _).
  now apply Hcol.
Qed.

Lemma ones_no_completion (s : Board) : ~ completion ones s.
Proof.
  intros (Hwf & Hk & Hv).
  assert (Hrow := valid_row_cells s 0 Hwf Hv ltac:(lia)).
  apply Permutation_sym, Permutation_NoDup in Hrow; [|apply NoDup_digits].
  rewrite range_0_9 in Hrow. cbn [map] in Hrow.
  rewrite (Hk 0 0), (Hk 0 1) in Hrow; try (unfold on_grid; lia);
    try (vm_compute; discriminate).
  inversion Hrow as [|x l Hnin _]; subst. apply Hnin. now left.
Qed.

Lemma blocked_no_completion (s : Board) : ~ completion blocked s.
Proof.
  intros (Hwf & Hk & Hv).
  assert (Hrow := valid_row_cells s 0 Hwf Hv ltac:(lia)).
  assert (Hcol := valid_column_cells s 0 Hv ltac:(lia)).
  assert (H9 : cell s 0 0 = 9).
  { assert (Hin : In 9 (map (cell s 0) (range 0 9))).
    { apply (Permutation_in _ (Permutation_sym Hrow)). vm_compute. tauto. }
    rewrite range_0_9 in Hin. cbn [map] in Hin.
    destruct Hin as [Hin | Hin]; [assumption|]. exfalso.
    rewrite (Hk 0 1), (Hk 0 2), (Hk 0 3), (Hk 0 4), (Hk 0 5), (Hk 0 6),
      (Hk 0 7), (Hk 0 8) in Hin;
      try (unfold on_grid; lia); try (vm_compute; discriminate).
    vm_compute in Hin. intuition discriminate. }
  apply Permutation_sym, Permutation_NoDup in Hcol; [|apply NoDup_digits].
  rewrite range_0_9 in Hcol. cbn [map] in Hcol.
  rewrite H9, (Hk 1 0) in Hcol; try (unfold on_grid; lia);
    try (vm_compute; discriminate).
  inversion Hcol as [|x l Hnin _]; subst. apply Hnin. now left.
Qed.

(** C2, as stated, fails: the full grid of ones has no valid completion, yet
    both strategies return it as a solution. *)
Lemma unsolvable_grid_returned_as_solved :
  is_9x9 ones = true /\ cells_in_range ones = true /\
  (forall s, ~ completion ones s) /\
  solve_bruteforce ones [] = Some (Some ones, []) /\
  solve_backtracking_propagation ones [] = Some (Some ones, []).
Proof.
  split; [reflexivity|]. split; [reflexivity|].
  split; [exact ones_no_completion|].
  split; vm_compute; reflexivity.
Qed.

(** C2 (amended): on a 9x9 grid with cells in 0..9 whose givens do not
    conflict and which has no valid completion, both strategies return
    "no solution". *)
Theorem no_completion_no_solution (g : Board) (m : Moves) :
  is_9x9 g = true -> cells_in_range g = true -> givens_consistent g = true ->
  (forall s, ~ completion g s) ->
  (exists tr, solve_bruteforce g m = Some (None, tr)) /\
  (exists tr, solve_backtracking_propagation g m = Some (None, tr)).
Proof.
  intros Hwf Hr Hc Hnone.
  assert (Hno : forall ok s, step_ok no_frame g s -> (ok = true -> full s) ->
                             ok = false).
  { intros ok s Hs Hfull. destruct ok; [exfalso | reflexivity].
    destruct (run_sound g true s Hr Hc Hs Hfull s eq_refl) as [Hv Hk].
    apply (Hnone s). split; [apply Hs | now split]. }
  split.
  - destruct (bruteforce_run g m Hwf) as (ok & s & m' & Hrun & Hs & Hfull).
    unfold solve_bruteforce. rewrite Hrun, (Hno ok s Hs Hfull). now exists m'.
  - destruct (propagation_run g m Hwf) as (ok & s & m' & Hrun & Hs & Hfull).
    unfold solve_backtracking_propagation.
    rewrite Hrun, (Hno ok s Hs Hfull). now exists m'.
Qed.

Lemma no_completion_no_solution_witness :
  (is_9x9 blocked = true /\ cells_in_range blocked = true /\
   givens_consistent blocked = true /\ forall s, ~ completion blocked s) /\
  (exists tr, solve_bruteforce blocked [] = Some (None, tr)) /\
  (exists tr, solve_backtracking_propagation blocked [] = Some (None, tr)).
Proof.
  split.
  - split; [reflexivity|]. split; [reflexivity|]. split; [reflexivity|].
    exact blocked_no_completion.
  - apply (no_completion_no_solution blocked []);
      [reflexivity | reflexivity | reflexivity | exact blocked_no_completion].
Defined.

(** ** The completeness check on grids *)

(** C3: on a 9x9 grid [is_complete_and_valid] is true exactly when every
    row, every column and every 3x3 box is a rearrangement of 1..9. *)
Theorem is_complete_and_valid_iff (g : Board) :
  is_9x9 g = true ->
  (is_complete_and_valid g = true <->
   (forall r, 0 <= r < 9 -> Permutation (row_of g r) digits) /\
   (forall c, 0 <= c < 9 -> Permutation (column g c) digits) /\
   (forall i j, 0 <= i < 3 -> 0 <= j < 3 ->
                Permutation (box g (3 * i) (3 * j)) digits)).
Proof.
  intros _. apply is_complete_and_valid_spec.
Qed.

Lemma is_complete_and_valid_iff_witness :
  is_9x9 classic_solution = true /\
  (is_complete_and_valid classic_solution = true <->
   (forall r, 0 <= r < 9 -> Permutation (row_of classic_solution r) digits) /\
   (forall c, 0 <= c < 9 -> Permutation (column classic_solution c) digits) /\
   (forall i j, 0 <= i < 3 -> 0 <= j < 3 ->
                Permutation (box classic_solution (3 * i) (3 * j)) digits)).
Proof.
  split; [reflexivity|].
  apply (is_complete_and_valid_iff classic_solution). reflexivity.
Defined.

(** ** The candidate engine on grids *)

(** C4, as stated, fails: cell (0,0) of [blocked] is empty and has no
    candidate. *)
Lemma empty_cell_without_candidates :
  is_9x9 blocked = true /\ cells_in_range blocked = true /\
  ~ (candidates blocked 0 0 = [] <-> cell blocked 0 0 <> 0).
Proof.
  split; [reflexivity|]. split; [reflexivity|].
  intros [Hempty _]. now apply Hempty.
Qed.

(** C4 (amended): the candidate set of a cell is empty exactly when the
    cell is filled or every digit 1..9 already occurs in its row, column or
    box. *)
Theorem candidates_empty_iff (g : Board) (r c : Z) :
  is_9x9 g = true -> on_grid r c ->
  (candidates g r c = [] <->
   cell g r c <> 0 \/
   forall v, 1 <= v <= 9 ->
     exists r' c', on_grid r' c' /\ peer r c r' c' /\ cell g r' c' = v).
Proof.
  intros Hwf Hg.
  exact (@candidates_empty_spec Board board_ops board_laws g r c Hwf Hg).
Qed.

Lemma candidates_empty_iff_witness :
  (is_9x9 blocked = true /\ on_grid 0 0) /\
  (candidates blocked 0 0 = [] <->
   cell blocked 0 0 <> 0 \/
   forall v, 1 <= v <= 9 ->
     exists r' c', on_grid r' c' /\ peer 0 0 r' c' /\ cell blocked r' c' = v).
Proof.
  split; [split; [reflexivity | unfold on_grid; lia]|].
  apply (candidates_empty_iff blocked 0 0);
    [reflexivity | unfold on_grid; lia].
Defined.

(** ** The legality re-check of strategy B on a small grid *)

(** The shortest run in which the re-check rejects.  On [pair_grid] the
    entry propagation changes nothing and the root node selects cell (0,0)
    with candidates 1 and 2.  Value 1 passes the re-check, propagation then
    fills (0,1) with 2, and the branch fails.  Only (0,0) is reset, so when
    candidate 2 is tried the 2 at (0,1) is still there and the re-check
    rejects it. *)
Lemma recheck_rejects_second_candidate :
  propagate_singles (deep_copy pair_grid) [] = Some (false, pair_grid, []) /\
  select_mrv_cell pair_grid = Some (0, 0, [1; 2]) /\
  sorted [1; 2] = [1; 2] /\
  is_valid_move pair_grid 0 0 1 = true /\
  propagate_singles (assign pair_grid 0 0 1) ([] ++ [msg_choose 0 0 1]) =
    Some (true, pair_grid_branch, pair_grid_trace) /\
  bp_bt (budget - 1) pair_grid_branch pair_grid_trace =
    Some (false, pair_grid_branch, pair_grid_trace) /\
  In 2 (candidates pair_grid 0 0) /\
  is_valid_move (assign pair_grid_branch 0 0 0) 0 0 2 = false /\
  solve_backtracking_propagation pair_grid [] =
    Some (None, ["MRV choose r1c1 try 1"%string;
                 "Singleton r1c2 = 2"%string;
                 "Backtrack r1c1 (reset from 1 to 0)"%string;
                 "MRV choose r1c1 try 2"%string]).
Proof.
  repeat split; try (vm_compute; reflexivity).
  vm_compute. tauto.
Qed.

(** ** Idempotence of propagation *)

(** C7: on a 9x9 grid [propagate_singles] returns, and a second run on the
    board and trace it leaves changes neither and returns [False]. *)
Theorem propagate_singles_idempotent (g : Board) (m : Moves) :
  is_9x9 g = true ->
  exists ch g1 m1,
    propagate_singles g m = Some (ch, g1, m1) /\
    propagate_singles g1 m1 = Some (false, g1, m1).
Proof.
  intros Hwf.
  destruct (@propagate_singles_spec Board board_ops board_laws no_frame
              (fun _ => I) (fun _ _ _ _ _ => I) (fun _ _ _ _ => I) g m Hwf)
    as (ch & g1 & m1 & Hprop & _ & Hfix).
  exists ch, g1, m1. split; [assumption|].
  unfold propagate_singles, budget. rewrite propagate_loop_S, Hfix.
  reflexivity.
Qed.

Lemma propagate_singles_idempotent_witness :
  is_9x9 classic = true /\
  exists ch g1 m1,
    propagate_singles classic [] = Some (ch, g1, m1) /\
    propagate_singles g1 m1 = Some (false, g1, m1).
Proof.
  split; [reflexivity|].
  apply (propagate_singles_idempotent classic []). reflexivity.
Defined.

(** ** Grids that are already solved *)

Lemma valid_full (g : Board) :
  is_9x9 g = true -> is_complete_and_valid g = true -> full g.
Proof.
  intros Hwf Hv r c [Hr Hc] Hz.
  assert (Hrow := valid_row_cells g r Hwf Hv Hr).
  assert (Hin : In (cell g r c) digits).
  { apply (Permutation_in _ Hrow), in_map, In_range. lia. }
  rewrite Hz in Hin. simpl in Hin. intuition discriminate.
Qed.

(** C8: a 9x9 grid that passes [is_complete_and_valid] is returned as it is
    by both strategies, and the trace is left as it was. *)
Theorem solved_grid_returned_unchanged (g : Board) (m : Moves) :
  is_9x9 g = true -> is_complete_and_valid g = true ->
  solve_bruteforce g m = Some (Some g, m) /\
  solve_backtracking_propagation g m = Some (Some g, m).
Proof.
  intros Hwf Hv. assert (Hfull := valid_full g Hwf Hv). split.
  - unfold solve_bruteforce, solve_bruteforce_run, budget.
    rewrite board_deep_copy.
    now rewrite (bf_bt_full _ g m Hfull).
  - unfold solve_backtracking_propagation,
      solve_backtracking_propagation_run, budget.
    rewrite board_deep_copy.
    rewrite (propagate_singles_full g m Hfull).
    now rewrite (bp_bt_full _ g m Hfull).
Qed.

Lemma solved_grid_returned_unchanged_witness :
  (is_9x9 classic_solution = true /\
   is_complete_and_valid classic_solution = true) /\
  solve_bruteforce classic_solution [] = Some (Some classic_solution, []) /\
  solve_backtracking_propagation classic_solution [] =
    Some (Some classic_solution, []).
Proof.
  split; [split; reflexivity|].
  apply (solved_grid_returned_unchanged classic_solution []); reflexivity.
Defined.

(** ** The classic puzzle *)

(** C9: both strategies solve the classic puzzle; in the grid they return
    every row, column and box is a rearrangement of 1..9 and cell (0,0)
    is 5. *)
Theorem classic_solved :
  option_map fst (solve_bruteforce classic []) =
    Some (Some classic_solution) /\
  option_map fst (solve_backtracking_propagation classic []) =
    Some (Some classic_solution) /\
  ((forall r, 0 <= r < 9 -> Permutation (row_of classic_solution r) digits) /\
   (forall c, 0 <= c < 9 -> Permutation (column classic_solution c) digits) /\
   (forall i j, 0 <= i < 3 -> 0 <= j < 3 ->
                Permutation (box classic_solution (3 * i) (3 * j)) digits)) /\
  cell classic_solution 0 0 = 5.
Proof.
  split; [vm_compute; reflexivity|].
  split; [vm_compute; reflexivity|].
  split; [|reflexivity].
  apply is_complete_and_valid_spec. vm_compute. reflexivity.
Qed.

(** ** The caller's grid *)

Lemma caller_addresses (st : list (list Z)) (caller : list nat) :
  is_9x9 (value st caller) = true ->
  forall a, In a caller -> (a < length st)%nat.
Proof.
  intros H9 a Ha. apply is_9x9_spec in H9 as [_ Hrows].
  rewrite Forall_forall in Hrows.
  assert (Hlen : length (nth a st []) = 9%nat).
  { apply Hrows. unfold value. apply in_map_iff. now exists a. }
  destruct (Nat.lt_ge_cases a (length st)) as [|Hge]; [assumption|].
  rewrite nth_overflow in Hlen by assumption. discriminate.
Qed.

Lemma frame_leaves_grid (st : list (list Z)) (caller : list nat)
    (ok : bool) (o' : Obj) (m' : Moves) :
  is_9x9 (value st caller) = true ->
  frame (deep_copy {| store := st; rows := caller |}) o' ->
  leaves_grid st caller (Some (ok, o', m')).
Proof.
  intros H9 [_ Hframe]. exists ok, o', m'. split; [reflexivity|].
  assert (Hold : forall a, (a < length st)%nat ->
                           nth a (store o') [] = nth a st []).
  { intros a Ha. rewrite Hframe.
    - simpl. now apply app_nth1.
    - simpl. intros Hin. apply in_seq in Hin. lia. }
  split; [exact Hold|].
  apply map_ext_in. intros a Ha. apply Hold.
  now apply (caller_addresses st caller).
Qed.

(** C6: whatever the store and the caller's board (a 9x9 grid), each
    strategy returns and leaves every row list of the caller, hence the
    caller's grid, as it was: all assignments go to the rows allocated by
    [deep_copy]. *)
Theorem solvers_leave_caller_grid (st : list (list Z)) (caller : list nat)
    (m : Moves) :
  is_9x9 (value st caller) = true ->
  leaves_grid st caller
    (solve_bruteforce_run {| store := st; rows := caller |} m) /\
  leaves_grid st caller
    (solve_backtracking_propagation_run {| store := st; rows := caller |} m).
Proof.
  intros H9. assert (Hwf := obj_wf_deep_copy st caller H9). split.
  - unfold solve_bruteforce_run.
    destruct (@bf_bt_returns Obj obj_ops obj_laws frame frame_refl
                frame_trans frame_assign _ m Hwf)
      as ([[ok o'] m'] & Hrun & (_ & _ & _ & Hframe) & _).
    rewrite Hrun. now apply frame_leaves_grid.
  - unfold solve_backtracking_propagation_run.
    destruct (@bp_search_returns Obj obj_ops obj_laws frame frame_refl
                frame_trans frame_assign _ m Hwf)
      as ([[ok o'] m'] & Hrun & (_ & _ & _ & Hframe) & _).
    rewrite Hrun. now apply frame_leaves_grid.
Qed.

Lemma solvers_leave_caller_grid_witness :
  is_9x9 (value classic (seq 0 9)) = true /\
  leaves_grid classic (seq 0 9)
    (solve_bruteforce_run {| store := classic; rows := seq 0 9 |} []) /\
  leaves_grid classic (seq 0 9)
    (solve_backtracking_propagation_run
       {| store := classic; rows := seq 0 9 |} []).
Proof.
  split; [reflexivity|].
  apply (solvers_leave_caller_grid classic (seq 0 9) []). reflexivity.
Defined.

(** The copy matters: run on the caller's own board object, the search
    writes into the caller's rows. *)
Example search_in_place_changes_caller_grid :
  match bf_bt budget {| store := classic; rows := seq 0 9 |} [] with
  | Some (_, o', _) => value (store o') (seq 0 9)
  | None => []
  end = classic_solution.
Proof. vm_compute. reflexivity. Qed.

(** * Further properties of the code *)

(** ** The row-major scan *)

Lemma find_split {A} (f : A -> bool) (l : list A) (x : A) :
  find f l = Some x ->
  exists l1 l2, l = l1 ++ x :: l2 /\ f x = true /\
                forall y, In y l1 -> f y = false.
Proof.
  induction l as [|a l IH]; simpl; [discriminate|].
  destruct (f a) eqn:Ha.
  - intros Heq. inversion Heq; subst. exists [], l. now repeat split.
  - intros Hf. destruct (IH Hf) as (l1 & l2 & -> & Hx & Hl1).
    exists (a :: l1), l2. repeat split; trivial.
    intros y [<- | Hy]; auto.
Qed.

Lemma sorted_split {A} (lt : A -> A -> Prop) (l1 l2 : list A) (x : A) :
  (forall a b c, lt a b -> lt b c -> lt a c) ->
  Sorted.Sorted lt (l1 ++ x :: l2) ->
  (forall y, In y l1 -> lt y x) /\ (forall y, In y l2 -> lt x y).
Proof.
  intros Htrans Hs.
  apply Sorted.Sorted_StronglySorted in Hs; [|exact Htrans].
  induction l1 as [|a l1 IH]; simpl in Hs.
  - apply Sorted.StronglySorted_inv in Hs as [_ Hall].
    rewrite Forall_forall in Hall. split; [intros y []|exact Hall].
  - apply Sorted.StronglySorted_inv in Hs as [Hs Hall].
    destruct (IH Hs) as [H1 H2]. split; [|exact H2].
    rewrite Forall_forall in Hall.
    intros y [<- | Hy]; [|now apply H1].
    apply Hall, in_or_app. right. now left.
Qed.

Lemma grid_cells_sorted :
  Sorted.Sorted (fun x y => scan_pos (fst x) (snd x) < scan_pos (fst y) (snd y))
                grid_cells.
Proof.
  let l := eval vm_compute in grid_cells in change grid_cells with l.
  repeat (apply Sorted.Sorted_cons;
          [|first [apply Sorted.HdRel_nil
                  | apply Sorted.HdRel_cons; reflexivity]]).
  apply Sorted.Sorted_nil.
Qed.

(** The cells before [(r, c)] in the scan are those of smaller position. *)
Lemma grid_cells_split (r c : Z) (l1 l2 : list (Z * Z)) :
  grid_cells = l1 ++ (r, c) :: l2 ->
  (forall r' c', In (r', c') l1 <->
                 on_grid r' c' /\ scan_pos r' c' < scan_pos r c) /\
  (forall r' c', In (r', c') l2 <->
                 on_grid r' c' /\ scan_pos r c < scan_pos r' c').
Proof.
  intros Hsplit. assert (Hs := grid_cells_sorted). rewrite Hsplit in Hs.
  apply sorted_split in Hs as [H1 H2]; [|intros; lia].
  assert (Hin : forall r' c', on_grid r' c' ->
            In (r', c') l1 \/ (r', c') = (r, c) \/ In (r', c') l2).
  { intros r' c' Hg. apply In_grid_cells in Hg. rewrite Hsplit in Hg.
    apply in_app_or in Hg as [Hg | [Hg | Hg]]; auto. }
  assert (Hon : forall r' c', In (r', c') l1 \/ In (r', c') l2 ->
                              on_grid r' c').
  { intros r' c' Hg. apply In_grid_cells. rewrite Hsplit.
    apply in_or_app. destruct Hg; [now left | right; now right]. }
  split; intros r' c'; split.
  - intros Hy. split; [auto|]. exact (H1 _ Hy).
  - intros [Hg Hlt]. destruct (Hin r' c' Hg) as [Hy | [Hy | Hy]]; trivial.
    + inversion Hy; subst. lia.
    + apply H2 in Hy. simpl in Hy. lia.
  - intros Hy. split; [auto|]. exact (H2 _ Hy).
  - intros [Hg Hlt]. destruct (Hin r' c' Hg) as [Hy | [Hy | Hy]]; trivial.
    + apply H1 in Hy. simpl in Hy. lia.
    + inversion Hy; subst. lia.
Qed.

Lemma scan_pos_inj (r c r' c' : Z) :
  on_grid r c -> on_grid r' c' -> scan_pos r c = scan_pos r' c' ->
  (r, c) = (r', c').
Proof.
  unfold on_grid, scan_pos. intros Hg Hg' Heq.
  assert (r = r') by lia. subst. f_equal. lia.
Qed.

(** X1: [find_empty] returns the empty cell that comes first in row-major
    order, and nothing exactly when the grid has no empty cell. *)
Theorem find_empty_first (g : Board) :
  is_9x9 g = true ->
  (forall r c,
     find_empty g = Some (r, c) <->
     on_grid r c /\ cell g r c = 0 /\
     forall r' c', on_grid r' c' -> scan_pos r' c' < scan_pos r c ->
                   cell g r' c' <> 0) /\
  (find_empty g = None <-> forall r c, on_grid r c -> cell g r c <> 0).
Proof.
  intros _. split; [|apply find_empty_none].
  assert (Hfirst : forall r c, find_empty g = Some (r, c) ->
            forall r' c', on_grid r' c' -> scan_pos r' c' < scan_pos r c ->
                          cell g r' c' <> 0).
  { intros r c Hf r' c' Hg' Hlt. unfold find_empty in Hf.
    apply find_split in Hf as (l1 & l2 & Hsplit & _ & Hl1).
    destruct (grid_cells_split r c l1 l2 Hsplit) as [Hbefore _].
    assert (Hin : In (r', c') l1) by now apply Hbefore.
    apply Hl1 in Hin. now apply Z.eqb_neq. }
  intros r c. split.
  - intros Hf. destruct (find_empty_some g r c Hf) as [Hg Hz].
    repeat split; trivial; try apply Hg. now apply Hfirst.
  - intros (Hg & Hz & Hbefore).
    destruct (find_empty g) as [[r0 c0]|] eqn:Hf.
    + destruct (find_empty_some g r0 c0 Hf) as [Hg0 Hz0].
      f_equal. apply scan_pos_inj; trivial.
      destruct (Z.lt_trichotomy (scan_pos r0 c0) (scan_pos r c))
        as [Hlt | [Heq | Hgt]]; trivial; exfalso.
      * now apply (Hbefore r0 c0).
      * now apply (Hfirst r0 c0 eq_refl r c).
    + exfalso. now apply (proj1 (find_empty_none g) Hf r c).
Qed.

Lemma find_empty_first_witness :
  is_9x9 classic = true /\
  ((forall r c,
      find_empty classic = Some (r, c) <->
      on_grid r c /\ cell classic r c = 0 /\
      forall r' c', on_grid r' c' -> scan_pos r' c' < scan_pos r c ->
                    cell classic r' c' <> 0) /\
   (find_empty classic = None <->
    forall r c, on_grid r c -> cell classic r c <> 0)).
Proof.
  split; [reflexivity|]. apply (find_empty_first classic). reflexivity.
Defined.

(** ** Validator and candidate engine *)

(** X2: a placement is legal exactly when the value is 0 or no other cell
    of the row, the column or the 3x3 box holds it. *)
Theorem is_valid_move_iff (g : Board) (r c v : Z) :
  is_9x9 g = true -> on_grid r c ->
  (is_valid_move g r c v = true <->
   v = 0 \/
   forall r' c', on_grid r' c' -> peer r c r' c' -> (r', c') <> (r, c) ->
                 cell g r' c' <> v).
Proof.
  intros _ Hg. split.
  - intros Hv. destruct (Z.eq_dec v 0) as [|Hnz]; [now left | right].
    now apply is_valid_move_sound.
  - intros [-> | Hall]; [reflexivity|].
    now apply is_valid_move_complete.
Qed.

Lemma is_valid_move_iff_witness :
  (is_9x9 classic = true /\ on_grid 0 2) /\
  (is_valid_move classic 0 2 4 = true <->
   4 = 0 \/
   forall r' c', on_grid r' c' -> peer 0 2 r' c' -> (r', c') <> (0, 2) ->
                 cell classic r' c' <> 4).
Proof.
  split; [split; [reflexivity | unfold on_grid; lia]|].
  apply (is_valid_move_iff classic 0 2 4); [reflexivity | unfold on_grid; lia].
Defined.

(** X3: candidate engine and validator agree: on an empty cell the
    candidates are exactly the digits 1..9 that are legal placements; and
    the set is empty on a filled cell. *)
Theorem candidates_are_legal_digits (g : Board) (r c : Z) :
  is_9x9 g = true -> on_grid r c ->
  (cell g r c = 0 ->
   forall v, In v (candidates g r c) <->
             1 <= v <= 9 /\ is_valid_move g r c v = true) /\
  (cell g r c <> 0 -> candidates g r c = []).
Proof.
  intros Hwf Hg. split; [|apply candidates_filled].
  intros Hz v. split.
  - intros Hin. split.
    + apply (@In_candidates Board board_ops board_laws g r c v Hwf Hg) in Hin.
      tauto.
    + exact (@candidates_legal Board board_ops board_laws g r c v Hwf Hg Hin).
  - intros [Hv Hleg].
    apply (@In_candidates Board board_ops board_laws g r c v Hwf Hg).
    split; [assumption|]. split; [assumption|].
    intros r' c' Hg' Hp.
    destruct (cell_eq_dec r' c' r c) as [Heq | Hne].
    + inversion Heq; subst. lia.
    + apply (is_valid_move_sound g r c v); trivial. lia.
Qed.

Lemma candidates_are_legal_digits_witness :
  (is_9x9 classic = true /\ on_grid 0 2) /\
  (cell classic 0 2 = 0 ->
   forall v, In v (candidates classic 0 2) <->
             1 <= v <= 9 /\ is_valid_move classic 0 2 v = true) /\
  (cell classic 0 2 <> 0 -> candidates classic 0 2 = []).
Proof.
  split; [split; [reflexivity | unfold on_grid; lia]|].
  apply (candidates_are_legal_digits classic 0 2);
    [reflexivity | unfold on_grid; lia].
Defined.

(** ** Selection of the branching cell *)

Section Selection.
Context {B : Type} `{BoardLaws B}.

Lemma mrv_scan_no_dead (b : B) (cells : list (Z * Z)) :
  forall best res, mrv_scan b cells best = Some res ->
  forall r c, In (r, c) cells -> cell b r c = 0 -> candidates b r c <> [].
Proof.
  induction cells as [|[r1 c1] cells IH]; intros best res Hscan r c Hin Hz;
    [contradiction|].
  cbn [mrv_scan] in Hscan. destruct Hin as [Heq | Hin].
  - inversion Heq; subst. apply Z.eqb_eq in Hz. rewrite Hz in Hscan.
    destruct (candidates b r c); [discriminate | discriminate].
  - destruct (cell b r1 c1 =? 0); [|now apply (IH _ _ Hscan)].
    destruct (candidates b r1 c1); [discriminate|].
    now apply (IH _ _ Hscan).
Qed.

Lemma mrv_scan_spec (b : B) (cells : list (Z * Z)) :
  forall best r c cand,
    mrv_scan b cells best = Some (r, c, cand) ->
    (best = Some (r, c, cand) /\
     forall r' c', In (r', c') cells -> cell b r' c' = 0 ->
                   (length cand <= length (candidates b r' c'))%nat)
    \/
    (exists l1 l2,
       cells = l1 ++ (r, c) :: l2 /\ cell b r c = 0 /\
       cand = candidates b r c /\
       (forall r' c', In (r', c') l1 -> cell b r' c' = 0 ->
                      (length cand < length (candidates b r' c'))%nat) /\
       (forall r' c', In (r', c') l2 -> cell b r' c' = 0 ->
                      (length cand <= length (candidates b r' c'))%nat) /\
       (forall rb cb bc, best = Some (rb, cb, bc) ->
                         (length cand < length bc)%nat)).
Proof.
  induction cells as [|[r1 c1] cells IH]; intros best r c cand Hscan;
    cbn [mrv_scan] in Hscan.
  - left. split; [assumption | intros r' c' []].
  - destruct (cell b r1 c1 =? 0) eqn:E0.
    2:{ apply Z.eqb_neq in E0.
        destruct (IH _ _ _ _ Hscan) as [[Hb Hall] | Hr].
        - left. split; [assumption|].
          intros r' c' [Heq | Hin] Hz; [inversion Heq; subst; contradiction|].
          now apply Hall.
        - right. destruct Hr as (l1 & l2 & -> & Hz & Hc & H1 & H2 & H3).
          exists ((r1, c1) :: l1), l2.
          split; [reflexivity|]. split; [assumption|]. split; [assumption|].
          split; [|split; assumption].
          intros r' c' [Heq | Hin] Hz';
            [inversion Heq; subst; contradiction | now apply H1]. }
    apply Z.eqb_eq in E0.
    destruct (candidates b r1 c1) as [|x cand1] eqn:Hc1; [discriminate|].
    remember (x :: cand1) as c1s eqn:Hc1s. clear Hc1s x cand1.
    assert (Hnew : forall best0 : option (Z * Z * list Z),
              (forall rb cb bc, best0 = Some (rb, cb, bc) ->
                                (length c1s < length bc)%nat) ->
              Some (r1, c1, c1s) = Some (r, c, cand) ->
              (forall r' c', In (r', c') cells -> cell b r' c' = 0 ->
                 (length cand <= length (candidates b r' c'))%nat) ->
              exists l1 l2,
                (r1, c1) :: cells = l1 ++ (r, c) :: l2 /\ cell b r c = 0 /\
                cand = candidates b r c /\
                (forall r' c', In (r', c') l1 -> cell b r' c' = 0 ->
                   (length cand < length (candidates b r' c'))%nat) /\
                (forall r' c', In (r', c') l2 -> cell b r' c' = 0 ->
                   (length cand <= length (candidates b r' c'))%nat) /\
                (forall rb cb bc, best0 = Some (rb, cb, bc) ->
                                  (length cand < length bc)%nat)).
    { intros best0 Hbest0 Heq Hall. injection Heq as -> -> ->.
      exists [], cells.
      split; [reflexivity|]. split; [assumption|].
      split; [now symmetry|]. split; [intros r' c' []|].
      split; assumption. }
    destruct (IH _ _ _ _ Hscan) as [[Hb Hall] | Hr].
    + destruct best as [[[rb cb] bc]|].
      * destruct (length c1s <? length bc)%nat eqn:Hlt.
        -- right. apply Hnew; trivial.
           intros rb' cb' bc' Heq. injection Heq as <- <- <-.
           now apply Nat.ltb_lt.
        -- left. split; [assumption|]. injection Hb as -> -> ->.
           intros r' c' [Heq | Hin] Hz; [|now apply Hall].
           injection Heq as <- <-. rewrite Hc1. now apply Nat.ltb_ge.
      * right. apply Hnew; trivial. discriminate.
    + right. destruct Hr as (l1 & l2 & -> & Hz & Hc & H1 & H2 & H3).
      exists ((r1, c1) :: l1), l2.
      assert (Hlt1 : (length cand < length c1s)%nat /\
                     forall rb cb bc, best = Some (rb, cb, bc) ->
                                      (length cand < length bc)%nat).
      { destruct best as [[[rb cb] bc]|].
        - destruct (length c1s <? length bc)%nat eqn:Hlt.
          + assert (Hc1s := H3 _ _ _ eq_refl). apply Nat.ltb_lt in Hlt.
            split; [assumption|].
            intros rb' cb' bc' Heq. inversion Heq; subst. lia.
          + assert (Hbc := H3 _ _ _ eq_refl). apply Nat.ltb_ge in Hlt.
            split; [lia|].
            intros rb' cb' bc' Heq. inversion Heq; subst. assumption.
        - split; [exact (H3 _ _ _ eq_refl) | discriminate]. }
      destruct Hlt1 as [Hlt1 Hbest].
      split; [reflexivity|]. split; [assumption|]. split; [assumption|].
      split; [|split; assumption].
      intros r' c' [Heq | Hin] Hz'; [|now apply H1].
      injection Heq as <- <-. now rewrite Hc1.
Qed.

Lemma mrv_scan_none (b : B) (cells : list (Z * Z)) :
  forall best,
    mrv_scan b cells best = None <->
    (exists r c, In (r, c) cells /\ cell b r c = 0 /\ candidates b r c = [])
    \/ (best = None /\ forall r c, In (r, c) cells -> cell b r c <> 0).
Proof.
  induction cells as [|[r1 c1] cells IH]; intros best; cbn [mrv_scan].
  - split.
    + intros ->. right. split; [reflexivity | intros r c []].
    + intros [(r & c & [] & _) | [Hb _]]. assumption.
  - destruct (cell b r1 c1 =? 0) eqn:E0.
    + apply Z.eqb_eq in E0.
      destruct (candidates b r1 c1) as [|x cand1] eqn:Hc1.
      * split; [|reflexivity]. intros _. left. exists r1, c1.
        split; [now left | now split].
      * rewrite IH. split.
        -- intros [(r & c & Hin & Hz & Hc) | [Hb _]].
           ++ left. exists r, c. split; [now right | now split].
           ++ exfalso. destruct best as [[[rb cb] bc]|];
                [destruct (_ <? _)%nat|]; discriminate.
        -- intros [(r & c & [Heq | Hin] & Hz & Hc) | [_ Hall]].
           ++ inversion Heq; subst. congruence.
           ++ left. exists r, c. now repeat split.
           ++ exfalso. apply (Hall r1 c1); [now left | assumption].
    + apply Z.eqb_neq in E0. rewrite IH. split.
      * intros [(r & c & Hin & Hz & Hc) | [Hb Hall]].
        -- left. exists r, c. split; [now right | now split].
        -- right. split; [assumption|].
           intros r c [Heq | Hin]; [now inversion Heq; subst | now apply Hall].
      * intros [(r & c & [Heq | Hin] & Hz & Hc) | [Hb Hall]].
        -- inversion Heq; subst. contradiction.
        -- left. exists r, c. now repeat split.
        -- right. split; [assumption|]. intros r c Hin. apply Hall. now right.
Qed.

End Selection.

(** X4: [select_mrv_cell] returns an empty cell with the fewest candidates,
    the first such cell in row-major order, together with its candidate
    set; it does so only when every empty cell has a candidate.  It returns
    nothing exactly when the grid is full or some empty cell has no
    candidate. *)
Theorem select_mrv_cell_minimal (g : Board) :
  is_9x9 g = true ->
  (forall r c cand,
     select_mrv_cell g = Some (r, c, cand) ->
     on_grid r c /\ cell g r c = 0 /\ cand = candidates g r c /\
     forall r' c', on_grid r' c' -> cell g r' c' = 0 ->
       candidates g r' c' <> [] /\
       (length cand <= length (candidates g r' c'))%nat /\
       (scan_pos r' c' < scan_pos r c ->
        (length cand < length (candidates g r' c'))%nat)) /\
  (select_mrv_cell g = None <->
   (forall r c, on_grid r c -> cell g r c <> 0) \/
   exists r c, on_grid r c /\ cell g r c = 0 /\ candidates g r c = []).
Proof.
  intros _. split.
  - intros r c cand Hsel.
    destruct (select_mrv_cell_some g r c cand Hsel) as (Hg & Hz & Hc).
    split; [assumption|]. split; [assumption|]. split; [assumption|].
    intros r' c' Hg' Hz'.
    assert (Hin := proj2 (In_grid_cells r' c') Hg').
    split; [exact (mrv_scan_no_dead g grid_cells None _ Hsel r' c' Hin Hz')|].
    unfold select_mrv_cell in Hsel.
    apply mrv_scan_spec in Hsel
      as [[Hb _] | (l1 & l2 & Hsplit & _ & _ & H1 & H2 & _)];
      [discriminate|].
    split.
    + rewrite Hsplit in Hin.
      apply in_app_or in Hin as [Hin | [Heq | Hin]].
      * apply Nat.lt_le_incl. now apply H1.
      * injection Heq as <- <-. now rewrite Hc.
      * now apply H2.
    + intros Hlt. apply H1; [|assumption].
      now apply (proj1 (grid_cells_split r c l1 l2 Hsplit)).
  - unfold select_mrv_cell. rewrite mrv_scan_none. split.
    + intros [(r & c & Hin & Hz & Hc) | [_ Hall]].
      * right. exists r, c. split; [now apply In_grid_cells | now split].
      * left. intros r c Hg. now apply Hall, In_grid_cells.
    + intros [Hall | (r & c & Hg & Hz & Hc)].
      * right. split; [reflexivity|]. intros r c Hin.
        now apply Hall, In_grid_cells.
      * left. exists r, c. split; [now apply In_grid_cells | now split].
Qed.

Lemma select_mrv_cell_minimal_witness :
  is_9x9 pair_grid = true /\
  ((forall r c cand,
      select_mrv_cell pair_grid = Some (r, c, cand) ->
      on_grid r c /\ cell pair_grid r c = 0 /\
      cand = candidates pair_grid r c /\
      forall r' c', on_grid r' c' -> cell pair_grid r' c' = 0 ->
        candidates pair_grid r' c' <> [] /\
        (length cand <= length (candidates pair_grid r' c'))%nat /\
        (scan_pos r' c' < scan_pos r c ->
         (length cand < length (candidates pair_grid r' c'))%nat)) /\
   (select_mrv_cell pair_grid = None <->
    (forall r c, on_grid r c -> cell pair_grid r c <> 0) \/
    exists r c, on_grid r c /\ cell pair_grid r c = 0 /\
                candidates pair_grid r c = [])).
Proof.
  split; [reflexivity|]. apply (select_mrv_cell_minimal pair_grid).
  reflexivity.
Defined.

(** ** Counting empty cells *)

Lemma NoDup_grid_cells : NoDup grid_cells.
Proof.
  assert (Hs := grid_cells_sorted).
  apply Sorted.Sorted_StronglySorted in Hs; [|intros x y z; lia].
  induction Hs as [|a l Hs IH Hall]; constructor; [|assumption].
  intros Hin. rewrite Forall_forall in Hall. apply Hall in Hin. lia.
Qed.

Lemma filter_length_flip {A} (f g : A -> bool) (l : list A) (a : A) :
  NoDup l -> In a l -> f a = true -> g a = false ->
  (forall x, In x l -> x <> a -> g x = f x) ->
  length (filter f l) = S (length (filter g l)).
Proof.
  intros Hnd. induction Hnd as [|x l Hnin Hnd IH]; intros Hin Hf Hg Hsame;
    [contradiction|].
  simpl. destruct Hin as [-> | Hin].
  - rewrite Hf, Hg. simpl. f_equal. f_equal. apply filter_ext_in.
    intros y Hy. symmetry. apply Hsame; [now right|].
    intros ->. contradiction.
  - assert (Hxa : x <> a) by (intros ->; contradiction).
    rewrite (Hsame x (or_introl eq_refl) Hxa).
    assert (IH' := IH Hin Hf Hg (fun y Hy => Hsame y (or_intror Hy))).
    destruct (f x); simpl; lia.
Qed.

Section Counting.
Context {B : Type} `{BoardLaws B}.

Lemma empties_fill (b : B) (r c v : Z) :
  well_formed b -> on_grid r c -> cell b r c = 0 -> v <> 0 ->
  empties b = S (empties (assign b r c v)).
Proof.
  intros Hwf Hg Hz Hv. unfold empties.
  apply filter_length_flip with (a := (r, c)).
  - apply NoDup_grid_cells.
  - now apply In_grid_cells.
  - now apply Z.eqb_eq.
  - apply Z.eqb_neq. now rewrite cell_assign_same.
  - intros [r' c'] Hin Hne. apply In_grid_cells in Hin.
    now rewrite cell_assign_other.
Qed.

Lemma empties_reset (b : B) (r c : Z) :
  well_formed b -> on_grid r c -> cell b r c <> 0 ->
  empties (assign b r c 0) = S (empties b).
Proof.
  intros Hwf Hg Hnz. unfold empties.
  apply filter_length_flip with (a := (r, c)).
  - apply NoDup_grid_cells.
  - now apply In_grid_cells.
  - apply Z.eqb_eq. now rewrite cell_assign_same.
  - now apply Z.eqb_neq.
  - intros [r' c'] Hin Hne. apply In_grid_cells in Hin.
    now rewrite cell_assign_other.
Qed.

Lemma empties_same (b b' : B) : same_cells b b' -> empties b' = empties b.
Proof.
  intros Hsame. unfold empties.
  rewrite (filter_ext_in (fun '(r, c) => cell b' r c =? 0)
             (fun '(r, c) => cell b r c =? 0)); [reflexivity|].
  intros [r c] Hin. apply In_grid_cells in Hin. now rewrite Hsame.
Qed.

Lemma empties_full (b : B) : full b -> empties b = 0%nat.
Proof.
  intros Hfull. unfold empties.
  rewrite (filter_ext_in _ (fun _ => false)); [now rewrite filter_false|].
  intros [r c] Hin. apply In_grid_cells in Hin.
  now apply Z.eqb_neq, Hfull.
Qed.

End Counting.

(** ** More on the propagator *)

Section PropagatorFacts.
Context {B : Type} `{BoardLaws B}.

Lemma propagate_fold_progress (cells : list (Z * Z)) :
  forall (b : B) (m : Moves) b' m' p',
    fold_left propagate_cell cells (b, m, true) = (b', m', p') -> p' = true.
Proof.
  induction cells as [|[r c] cells IH]; intros b m b' m' p' Hfold;
    cbn [fold_left] in Hfold; [now inversion Hfold|].
  unfold propagate_cell at 2 in Hfold.
  destruct (cell b r c =? 0); [|now apply (IH _ _ _ _ _ Hfold)].
  destruct (candidates b r c) as [|val [|]]; now apply (IH _ _ _ _ _ Hfold).
Qed.

(** A pass without progress met no empty cell with a single candidate. *)
Lemma propagate_fold_quiet (cells : list (Z * Z)) :
  forall (b : B) (m : Moves) b' m',
    fold_left propagate_cell cells (b, m, false) = (b', m', false) ->
    forall r c, In (r, c) cells -> cell b r c = 0 ->
                length (candidates b r c) <> 1%nat.
Proof.
  induction cells as [|[r1 c1] cells IH]; intros b m b' m' Hfold r c Hin Hz;
    [contradiction|].
  cbn [fold_left] in Hfold. unfold propagate_cell at 2 in Hfold.
  destruct (cell b r1 c1 =? 0) eqn:E0.
  - destruct (candidates b r1 c1) as [|val [|]] eqn:Hc.
    + destruct Hin as [Heq | Hin]; [|now apply (IH _ _ _ _ Hfold)].
      injection Heq as <- <-. now rewrite Hc.
    + apply propagate_fold_progress in Hfold. discriminate.
    + destruct Hin as [Heq | Hin]; [|now apply (IH _ _ _ _ Hfold)].
      injection Heq as <- <-. rewrite Hc. simpl. lia.
  - destruct Hin as [Heq | Hin]; [|now apply (IH _ _ _ _ Hfold)].
    injection Heq as <- <-. apply Z.eqb_neq in E0. contradiction.
Qed.

Lemma propagate_pass_unfold (b : B) (m : Moves) :
  propagate_pass b m = fold_left propagate_cell grid_cells (b, m, false).
Proof. reflexivity. Qed.

Lemma quiet_pass_no_single (b : B) (m : Moves) :
  propagate_pass b m = (b, m, false) -> no_single b.
Proof.
  intros Hpass r c Hg.
  destruct (Z.eq_dec (cell b r c) 0) as [Hz | Hnz].
  - rewrite propagate_pass_unfold in Hpass.
    exact (propagate_fold_quiet grid_cells b m b m Hpass r c
             (proj2 (In_grid_cells r c) Hg) Hz).
  - rewrite candidates_filled by assumption. discriminate.
Qed.

Lemma propagate_cell_count (b0 : B) (m0 : Moves) st (r c : Z) :
  on_grid r c -> pass_count b0 m0 st ->
  pass_count b0 m0 (propagate_cell st (r, c)).
Proof.
  destruct st as [[b m] p]. intros Hg (Hwf & suf & -> & Hlen).
  unfold propagate_cell.
  destruct (cell b r c =? 0) eqn:E0; [|split; eauto].
  destruct (candidates b r c) as [|val [|y l]] eqn:Hc;
    [split; eauto | | split; eauto].
  assert (Hin : In val (candidates b r c)) by (rewrite Hc; now left).
  apply In_candidates in Hin as (Hz & Hv & _); trivial.
  split; [now apply wf_assign|].
  exists (suf ++ [msg_singleton r c val]).
  split; [symmetry; apply app_assoc|].
  rewrite length_app. simpl.
  assert (Hfill := empties_fill b r c val Hwf Hg Hz). lia.
Qed.

Lemma propagate_fold_count (b0 : B) (m0 : Moves) (cells : list (Z * Z)) :
  (forall r c, In (r, c) cells -> on_grid r c) ->
  forall st, pass_count b0 m0 st ->
             pass_count b0 m0 (fold_left propagate_cell cells st).
Proof.
  induction cells as [|[r c] cells IH]; intros Hcells st Hst;
    cbn [fold_left]; [assumption|].
  apply IH; [intros; apply Hcells; now right|].
  apply propagate_cell_count; trivial. apply Hcells. now left.
Qed.

Lemma propagate_singles_unfold (b : B) (m : Moves) :
  propagate_singles b m = propagate_loop budget b m false.
Proof. reflexivity. Qed.

Lemma propagate_loop_flag (fuel : nat) :
  forall (b : B) (m : Moves) (ch ch' : bool) b' m',
    well_formed b -> propagate_loop fuel b m ch = Some (ch', b', m') ->
    (ch' = false -> ch = false /\ b' = b /\ m' = m) /\
    (ch' = true -> ch = true \/ (empties b' < empties b)%nat) /\
    exists suf, m' = m ++ suf /\ (length suf + empties b' = empties b)%nat.
Proof.
  induction fuel as [|fuel IH]; intros b m ch ch' b' m' Hwf Hrun;
    [discriminate|].
  rewrite propagate_loop_S in Hrun.
  assert (Hinv := propagate_pass_inv (fun _ _ => True) (fun _ => I)
                    (fun _ _ _ _ _ => I) (fun _ _ _ _ => I) b m Hwf).
  assert (Hcnt : pass_count b m (propagate_pass b m)).
  { rewrite propagate_pass_unfold. apply propagate_fold_count.
    - intros r c. apply In_grid_cells.
    - split; [assumption|]. exists [].
      split; [symmetry; apply app_nil_r | reflexivity]. }
  destruct (propagate_pass b m) as [[b1 m1] p].
  destruct Hinv as [Hs Hp]. destruct Hcnt as (Hwf1 & suf1 & -> & Hlen1).
  destruct p; cbn [negb] in Hrun.
  - destruct (IH _ _ _ _ _ _ Hwf1 Hrun) as (Hf & Ht & suf & -> & Hlen).
    split; [intros Hch; destruct (Hf Hch); discriminate|].
    split; [intros _; right; lia|].
    exists (suf1 ++ suf). split; [symmetry; apply app_assoc|].
    rewrite length_app. lia.
  - inversion Hrun; subst ch' b' m'. destruct Hp as [-> Hm].
    split; [intros ->; split; [reflexivity | split; [reflexivity | exact Hm]]|].
    split; [intros ->; left; reflexivity|].
    exists suf1. split; [reflexivity | exact Hlen1].
Qed.

End PropagatorFacts.

Lemma consistent_givens (g : Board) :
  consistent g -> givens_consistent g = true.
Proof.
  intros Hc. apply forallb_forall. intros [r c] Hin.
  apply In_grid_cells in Hin.
  destruct (Z.eq_dec (cell g r c) 0) as [Hz | Hnz].
  - rewrite Hz. reflexivity.
  - apply is_valid_move_complete; trivial.
    intros r' c' Hg' Hp Hne. now apply Hc.
Qed.

Lemma digits_cells_in_range (g : Board) :
  digits_ok g -> cells_in_range g = true.
Proof.
  intros Hd. apply forallb_forall. intros [r c] Hin.
  apply In_grid_cells in Hin. specialize (Hd r c Hin).
  apply andb_true_iff. split; apply Z.leb_le; lia.
Qed.

(** X5: [propagate_singles] returns on every 9x9 grid; the grid it leaves
    keeps every filled cell of the input, has no empty cell with exactly
    one candidate, and has conflict-free givens in 0..9 if the input had. *)
Theorem propagate_singles_result (g : Board) (m : Moves) :
  is_9x9 g = true ->
  exists ch g1 m1,
    propagate_singles g m = Some (ch, g1, m1) /\
    is_9x9 g1 = true /\ keeps_givens g g1 /\ no_single g1 /\
    (cells_in_range g = true -> givens_consistent g = true ->
     cells_in_range g1 = true /\ givens_consistent g1 = true).
Proof.
  intros Hwf.
  destruct (@propagate_singles_spec Board board_ops board_laws no_frame
              (fun _ => I) (fun _ _ _ _ _ => I) (fun _ _ _ _ => I) g m Hwf)
    as (ch & g1 & m1 & Hprop & (Hwf1 & Hext & Hinv & _) & Hfix).
  exists ch, g1, m1. split; [assumption|]. split; [assumption|].
  split; [exact Hext|]. split; [now apply (quiet_pass_no_single g1 m1)|].
  intros Hr Hc. destruct Hinv as [Hc1 Hd1];
    [now apply givens_consistent_spec | now apply cells_in_range_digits|].
  split; [now apply digits_cells_in_range | now apply consistent_givens].
Qed.

Lemma propagate_singles_result_witness :
  is_9x9 classic = true /\
  exists ch g1 m1,
    propagate_singles classic [] = Some (ch, g1, m1) /\
    is_9x9 g1 = true /\ keeps_givens classic g1 /\ no_single g1 /\
    (cells_in_range classic = true -> givens_consistent classic = true ->
     cells_in_range g1 = true /\ givens_consistent g1 = true).
Proof.
  split; [reflexivity|].
  apply (propagate_singles_result classic []). reflexivity.
Defined.

(** X6: the flag and the trace of [propagate_singles]: it returns [False]
    exactly when it leaves the grid as it was, and it appends to the trace
    one entry for each cell it filled. *)
Theorem propagate_singles_flag_and_trace (g : Board) (m : Moves) (ch : bool)
    (g1 : Board) (m1 : Moves) :
  is_9x9 g = true -> propagate_singles g m = Some (ch, g1, m1) ->
  (ch = false <-> g1 = g) /\
  exists suf, m1 = m ++ suf /\ (length suf + empties g1 = empties g)%nat.
Proof.
  intros Hwf Hprop. rewrite propagate_singles_unfold in Hprop.
  destruct (@propagate_loop_flag Board board_ops board_laws budget g m false
              ch g1 m1 Hwf Hprop) as (Hf & Ht & Hsuf).
  split; [|exact Hsuf]. split.
  - intros Hch. now destruct (Hf Hch) as (_ & -> & _).
  - intros ->. destruct ch; [|reflexivity].
    destruct (Ht eq_refl) as [Habs | Hlt]; [discriminate | lia].
Qed.

Lemma propagate_singles_flag_and_trace_witness :
  (is_9x9 classic = true /\
   propagate_singles classic [] =
     Some (true, classic_solution, classic_singles)) /\
  (true = false <-> classic_solution = classic) /\
  exists suf, classic_singles = [] ++ suf /\
              (length suf + empties classic_solution = empties classic)%nat.
Proof.
  split; [split; vm_compute; reflexivity|].
  apply (propagate_singles_flag_and_trace classic [] true classic_solution
           classic_singles); vm_compute; reflexivity.
Defined.

(** ** Strategy A: exhaustive, in order *)

Lemma range_cons (a b : Z) : a < b -> range a b = a :: range (a + 1) b.
Proof.
  intros Hlt. unfold range.
  replace (Z.to_nat (b - a)) with (S (Z.to_nat (b - (a + 1)))) by lia.
  cbn [seq map]. f_equal; [lia|].
  rewrite <- seq_shift, map_map. apply map_ext. intros i. lia.
Qed.

Lemma range_empty (a b : Z) : range a b = [] -> b <= a.
Proof.
  intros Hnil. destruct (Z_lt_ge_dec a b) as [Hlt | Hge]; [|lia].
  rewrite range_cons in Hnil by assumption. discriminate.
Qed.

Lemma tries_app_try (m : Moves) (r c v : Z) :
  tries (m ++ [msg_try r c v]) = S (tries m) /\
  backtracks (m ++ [msg_try r c v]) = backtracks m.
Proof.
  unfold tries, backtracks. rewrite !filter_app, !length_app.
  split; cbn; lia.
Qed.

Lemma tries_app_backtrack (m : Moves) (r c v : Z) :
  tries (m ++ [msg_backtrack r c v]) = tries m /\
  backtracks (m ++ [msg_backtrack r c v]) = S (backtracks m).
Proof.
  unfold tries, backtracks. rewrite !filter_app, !length_app.
  split; cbn; lia.
Qed.

Section BruteForceFacts.
Context {B : Type} `{BoardLaws B}.

Lemma find_empty_before (b : B) (r c : Z) :
  find_empty b = Some (r, c) ->
  forall r' c', on_grid r' c' -> scan_pos r' c' < scan_pos r c ->
                cell b r' c' <> 0.
Proof.
  intros Hf r' c' Hg' Hlt. unfold find_empty in Hf.
  apply find_split in Hf as (l1 & l2 & Hsplit & _ & Hl1).
  destruct (grid_cells_split r c l1 l2 Hsplit) as [Hbefore _].
  assert (Hin : In (r', c') l1) by now apply Hbefore.
  apply Hl1 in Hin. now apply Z.eqb_neq.
Qed.

Lemma same_cells_refl (b : B) : same_cells b b.
Proof. now intros r c _. Qed.

Lemma same_cells_trans (b1 b2 b3 : B) :
  same_cells b1 b2 -> same_cells b2 b3 -> same_cells b1 b3.
Proof. intros H12 H23 r c Hg. now rewrite H23, H12. Qed.

Lemma same_cells_extends (b b' : B) : same_cells b b' -> extends b b'.
Proof. intros Hs r c Hg _. now apply Hs. Qed.

Lemma completes_same (b b' s : B) :
  same_cells b b' -> completes b s -> completes b' s.
Proof.
  intros Hs (Hf & Hc & Hd & He).
  split; [assumption|]. split; [assumption|]. split; [assumption|].
  intros r c Hg Hnz. rewrite (Hs r c Hg) in *. now apply He.
Qed.

Lemma completes_same_inv (b b' s : B) :
  same_cells b b' -> completes b' s -> completes b s.
Proof.
  intros Hs (Hf & Hc & Hd & He).
  split; [assumption|]. split; [assumption|]. split; [assumption|].
  intros r c Hg Hnz. rewrite <- (Hs r c Hg) in *. now apply He.
Qed.

Lemma completes_value (b s : B) (r c : Z) :
  completes b s -> on_grid r c -> 1 <= cell s r c <= 9.
Proof.
  intros (Hf & _ & Hd & _) Hg. specialize (Hf r c Hg).
  specialize (Hd r c Hg). lia.
Qed.

(** The value a completion has at an empty cell is a legal placement. *)
Lemma completes_legal (b s : B) (r c : Z) :
  completes b s -> on_grid r c ->
  is_valid_move b r c (cell s r c) = true.
Proof.
  intros (Hf & Hc & Hd & He) Hg. apply is_valid_move_complete; trivial.
  intros r' c' Hg' Hp Hne.
  destruct (Z.eq_dec (cell b r' c') 0) as [Hz | Hnz].
  - rewrite Hz. intros Heq. symmetry in Heq. now apply (Hf r c).
  - rewrite <- (He r' c' Hg' Hnz). apply Hc; trivial. now apply Hf.
Qed.

Lemma completes_fill (b s : B) (r c : Z) :
  well_formed b -> on_grid r c -> completes b s ->
  completes (assign b r c (cell s r c)) s.
Proof.
  intros Hwf Hg (Hf & Hc & Hd & He).
  split; [assumption|]. split; [assumption|]. split; [assumption|].
  intros r' c' Hg' Hnz.
  destruct (cell_eq_dec r' c' r c) as [Heq | Hne].
  - injection Heq as -> ->. now rewrite cell_assign_same.
  - rewrite cell_assign_other in * by assumption. now apply He.
Qed.

Lemma bf_loop_result rec (r c : Z) :
  (forall (b : B) m res, well_formed b -> rec b m = Some res ->
                         bf_result b m res) ->
  on_grid r c ->
  forall vs lo (b : B) (m : Moves) res,
    vs = range lo 10 -> 1 <= lo ->
    well_formed b -> cell b r c = 0 ->
    (forall r' c', on_grid r' c' -> scan_pos r' c' < scan_pos r c ->
                   cell b r' c' <> 0) ->
    (forall s, completes b s -> lo <= cell s r c) ->
    bf_loop rec r c vs b m = Some res -> bf_result b m res.
Proof.
  intros Hrec Hg.
  induction vs as [|v vs IH]; intros lo b m res Hvs Hlo Hwf Hz Hbefore Hmin
    Hrun; cbn [bf_loop] in Hrun.
  - injection Hrun as <-. symmetry in Hvs. apply range_empty in Hvs.
    split; [assumption|]. split; [apply extends_refl|].
    split; [reflexivity|]. split; [|discriminate].
    intros _. split; [apply same_cells_refl|].
    intros s Hs. assert (H1 := Hmin s Hs).
    assert (H2 := completes_value b s r c Hs Hg). lia.
  - assert (Hlt : lo < 10).
    { destruct (Z_lt_ge_dec lo 10) as [|Hge]; [assumption|].
      unfold range in Hvs. replace (Z.to_nat (10 - lo)) with 0%nat in Hvs by lia.
      discriminate. }
    rewrite range_cons in Hvs by assumption. injection Hvs as -> ->.
    assert (Hnext : forall b3 : B, same_cells b b3 ->
              (forall s, completes b s -> cell s r c <> lo) ->
              (forall r' c', on_grid r' c' ->
                 scan_pos r' c' < scan_pos r c -> cell b3 r' c' <> 0) /\
              (forall s, completes b3 s -> lo + 1 <= cell s r c)).
    { intros b3 Hs3 Hnot. split.
      - intros r' c' Hg' Hlt'. rewrite (Hs3 r' c' Hg'). now apply Hbefore.
      - intros s Hs. apply (completes_same_inv b b3 s Hs3) in Hs.
        assert (H1 := Hmin s Hs). assert (H2 := Hnot s Hs). lia. }
    destruct (is_valid_move b r c lo) eqn:Hleg.
    2:{ destruct (Hnext b (same_cells_refl b)) as [Hb3 Hm3].
        - intros s Hs Heq. assert (Hl := completes_legal b s r c Hs Hg).
          rewrite Heq in Hl. congruence.
        - apply (IH (lo + 1) b m res); trivial. lia. }
    destruct (rec (assign b r c lo) (m ++ [msg_try r c lo]))
      as [[[ok b2] m2]|] eqn:Hcall; [|discriminate].
    assert (Hwf1 : well_formed (assign b r c lo)) by now apply wf_assign.
    assert (Hc1 : cell (assign b r c lo) r c = lo)
      by now apply cell_assign_same.
    assert (He1 : extends b (assign b r c lo)) by now apply fill_extends.
    assert (Hn1 := empties_fill b r c lo Hwf Hg Hz ltac:(lia)).
    destruct (tries_app_try m r c lo) as [Ht1 Hk1].
    destruct (Hrec _ _ _ Hwf1 Hcall) as (Hwf2 & He2 & Hcnt & Hfail & Hok).
    destruct ok.
    + injection Hrun as <-. destruct (Hok eq_refl) as [Hfull Hlex].
      assert (He02 : extends b b2) by (eapply extends_trans; eassumption).
      split; [assumption|]. split; [assumption|].
      split; [lia|]. split; [discriminate|].
      intros _. split; [assumption|]. intros s Hs.
      assert (H1 := Hmin s Hs).
      destruct (Z.eq_dec (cell s r c) lo) as [Heq | Hne].
      * apply Hlex. rewrite <- Heq. now apply completes_fill.
      * right. exists r, c. split; [assumption|].
        split; [rewrite (He2 r c Hg) by lia; lia|].
        intros r' c' Hg' Hlt'. assert (Hnz := Hbefore r' c' Hg' Hlt').
        destruct Hs as (_ & _ & _ & Hes).
        rewrite (Hes r' c' Hg' Hnz). symmetry. now apply He02.
    + destruct (Hfail eq_refl) as [Hsame Hnone].
      assert (Hs3 : same_cells b (assign b2 r c 0)).
      { intros r' c' Hg'. destruct (cell_eq_dec r' c' r c) as [Heq | Hne].
        - injection Heq as -> ->. rewrite cell_assign_same by assumption.
          now symmetry.
        - rewrite cell_assign_other by assumption.
          rewrite (Hsame r' c' Hg'). now apply cell_assign_other. }
      destruct (Hnext _ Hs3) as [Hb3 Hm3].
      { intros s Hs Heq. apply (Hnone s). rewrite <- Heq.
        now apply completes_fill. }
      assert (Hwf3 : well_formed (assign b2 r c 0)) by now apply wf_assign.
      assert (Hz3 : cell (assign b2 r c 0) r c = 0)
        by now apply cell_assign_same.
      destruct (tries_app_backtrack m2 r c lo) as [Ht3 Hk3].
      assert (Hn2 := empties_same _ _ Hsame).
      assert (Hn3 := empties_same _ _ Hs3).
      specialize (IH (lo + 1) _ _ _ eq_refl ltac:(lia) Hwf3 Hz3 Hb3 Hm3 Hrun).
      destruct res as [[ok' b'] m'].
      destruct IH as (Hwf' & He' & Hcnt' & Hfail' & Hok').
      split; [assumption|].
      split; [eapply extends_trans; [apply same_cells_extends|]; eassumption|].
      split; [lia|]. split.
      * intros Hf. destruct (Hfail' Hf) as [Hsame' Hnone'].
        split; [eapply same_cells_trans; eassumption|].
        intros s Hs. apply (Hnone' s). now apply (completes_same b).
      * intros Ht. destruct (Hok' Ht) as [Hfull' Hlex'].
        split; [assumption|]. intros s Hs. apply Hlex'.
        now apply (completes_same b).
Qed.

Lemma bf_bt_result (fuel : nat) :
  forall (b : B) (m : Moves) res,
    well_formed b -> bf_bt fuel b m = Some res -> bf_result b m res.
Proof.
  induction fuel as [|fuel IH]; intros b m res Hwf Hrun; [discriminate|].
  cbn [bf_bt] in Hrun. destruct (find_empty b) as [[r c]|] eqn:Hf.
  - destruct (find_empty_some b r c Hf) as [Hg Hz].
    apply (bf_loop_result (bf_bt fuel) r c IH Hg (range 1 10) 1 b m res);
      trivial; try lia.
    + now apply find_empty_before.
    + intros s Hs. apply (completes_value b s r c Hs Hg).
  - injection Hrun as <-. assert (Hfull := proj1 (find_empty_none b) Hf).
    split; [assumption|]. split; [apply extends_refl|].
    split; [reflexivity|]. split; [discriminate|].
    intros _. split; [assumption|].
    intros s (_ & _ & _ & He). left. intros r c Hg.
    apply He; trivial. now apply Hfull.
Qed.

End BruteForceFacts.

Lemma NoDup_map_inj {A C} (f : A -> C) (l : list A) (x y : A) :
  NoDup (map f l) -> In x l -> In y l -> f x = f y -> x = y.
Proof.
  induction l as [|a l IH]; simpl; intros Hnd Hx Hy Heq; [contradiction|].
  inversion Hnd as [|? ? Hnin Hnd']; subst.
  destruct Hx as [-> | Hx], Hy as [-> | Hy]; auto.
  - exfalso. apply Hnin. rewrite Heq. now apply in_map.
  - exfalso. apply Hnin. rewrite <- Heq. now apply in_map.
Qed.

Lemma board_ext (b b' : Board) :
  is_9x9 b = true -> is_9x9 b' = true -> same_cells b b' -> b' = b.
Proof.
  intros Hwf Hwf' Hsame.
  assert (Hl := proj1 (proj1 (is_9x9_spec b) Hwf)).
  assert (Hl' := proj1 (proj1 (is_9x9_spec b') Hwf')).
  apply nth_ext with (d := []) (d' := []); [congruence|].
  intros n Hn.
  assert (Hr : 0 <= Z.of_nat n < 9) by lia.
  assert (Hrow := row_length b (Z.of_nat n) Hwf Hr).
  assert (Hrow' := row_length b' (Z.of_nat n) Hwf' Hr).
  rewrite Nat2Z.id in Hrow, Hrow'.
  apply nth_ext with (d := 0) (d' := 0); [congruence|].
  intros k Hk.
  assert (Hg : on_grid (Z.of_nat n) (Z.of_nat k)) by (unfold on_grid; lia).
  specialize (Hsame _ _ Hg). simpl in Hsame. unfold board_cell in Hsame.
  now rewrite !Nat2Z.id in Hsame.
Qed.

Lemma valid_digits (s : Board) :
  is_9x9 s = true -> is_complete_and_valid s = true -> digits_ok s.
Proof.
  intros Hwf Hv r c [Hr Hc].
  assert (Hrow := valid_row_cells s r Hwf Hv Hr).
  assert (Hin : In (cell s r c) digits).
  { apply (Permutation_in _ Hrow), in_map, In_range. lia. }
  change digits with (range 1 10) in Hin. apply In_range in Hin. lia.
Qed.

Lemma valid_consistent (s : Board) :
  is_9x9 s = true -> is_complete_and_valid s = true -> consistent s.
Proof.
  intros Hwf Hv r c r' c' [Hr Hc] [Hr' Hc'] Hp Hne _ Heq.
  apply Hne. destruct Hp as [-> | [-> | [Hbr Hbc]]].
  - f_equal.
    assert (Hnd := valid_row_cells s r Hwf Hv Hr).
    apply Permutation_sym, Permutation_NoDup in Hnd; [|apply NoDup_digits].
    apply (NoDup_map_inj (cell s r) (range 0 9)); trivial;
      apply In_range; lia.
  - f_equal.
    assert (Hnd := valid_column_cells s c Hv Hc).
    apply Permutation_sym, Permutation_NoDup in Hnd; [|apply NoDup_digits].
    apply (NoDup_map_inj (fun x => cell s x c) (range 0 9)); trivial;
      apply In_range; lia.
  - apply is_complete_and_valid_spec in Hv as (_ & _ & Hbox).
    assert (Hnd := Hbox (r / 3) (c / 3) ltac:(dlia) ltac:(dlia)).
    rewrite box_as_map in Hnd.
    apply Permutation_sym, Permutation_NoDup in Hnd; [|apply NoDup_digits].
    apply (NoDup_map_inj (fun rc => cell s (fst rc) (snd rc))
             (box_cells (3 * (r / 3)) (3 * (c / 3)))); trivial;
      apply In_box_cells; dlia.
Qed.

Lemma completion_completes (g s : Board) : completion g s -> completes g s.
Proof.
  intros (Hwf & Hk & Hv). split; [now apply valid_full|].
  split; [now apply valid_consistent|].
  split; [now apply valid_digits | exact Hk].
Qed.

Lemma completes_completion (g s : Board) :
  is_9x9 s = true -> completes g s -> completion g s.
Proof.
  intros Hwf (Hf & Hc & Hd & He). split; [assumption|].
  split; [exact He|].
  exact (@full_consistent_valid Board board_ops board_laws s Hwf Hf Hc Hd).
Qed.

(** The givens of a grid that has a completion are conflict-free digits. *)
Lemma completes_givens (g s : Board) :
  completes g s -> consistent g /\ digits_ok g.
Proof.
  intros (Hf & Hc & Hd & He). split.
  - intros r c r' c' Hg Hg' Hp Hne Hnz.
    destruct (Z.eq_dec (cell g r' c') 0) as [Hz | Hnz']; [congruence|].
    rewrite <- (He r c Hg Hnz), <- (He r' c' Hg' Hnz').
    apply Hc; trivial. now apply Hf.
  - intros r c Hg. destruct (Z.eq_dec (cell g r c) 0) as [Hz | Hnz]; [lia|].
    rewrite <- (He r c Hg Hnz). now apply Hd.
Qed.

(** ** Soundness of the two strategies *)

Lemma run_result (g : Board) (ok : bool) (s : Board) :
  cells_in_range g = true ->
  step_ok no_frame g s -> (ok = true -> full s) ->
  forall s', (if ok then Some s else None) = Some s' ->
    keeps_givens g s' /\
    (is_complete_and_valid s' = true <-> givens_consistent g = true).
Proof.
  intros Hr Hs Hfull s' Hs'.
  split.
  - destruct ok; [|discriminate]. injection Hs' as <-. apply Hs.
  - split.
    + intros Hv. apply consistent_givens.
      assert (Hc : completion g s').
      { destruct ok; [|discriminate]. injection Hs' as <-.
        split; [apply Hs|]. split; [apply Hs | assumption]. }
      apply completion_completes in Hc. now apply completes_givens in Hc.
    + intros Hc. now apply (run_sound g ok s Hr Hc Hs Hfull s').
Qed.

(** C1, as stated, fails: the full grid of ones is returned as solved by both
    strategies although it does not pass [is_complete_and_valid]. *)
Lemma solved_grid_may_be_invalid :
  is_9x9 ones = true /\ cells_in_range ones = true /\
  solve_bruteforce ones [] = Some (Some ones, []) /\
  solve_backtracking_propagation ones [] = Some (Some ones, []) /\
  is_complete_and_valid ones = false.
Proof. repeat split; vm_compute; reflexivity. Qed.

(** C1 (amended): on a 9x9 grid with cells in 0..9 each strategy returns; a
    grid it returns keeps every non-zero cell of the input, and it passes
    [is_complete_and_valid] exactly when the non-zero cells of the input do
    not conflict. *)
Theorem solvers_sound (g : Board) (m : Moves) :
  is_9x9 g = true -> cells_in_range g = true ->
  sound_result g (solve_bruteforce g m) /\
  sound_result g (solve_backtracking_propagation g m).
Proof.
  intros Hwf Hr. split.
  - destruct (bruteforce_run g m Hwf) as (ok & s & m' & Hrun & Hs & Hfull).
    unfold solve_bruteforce. rewrite Hrun.
    eexists _, _. split; [reflexivity|]. now apply run_result.
  - destruct (propagation_run g m Hwf) as (ok & s & m' & Hrun & Hs & Hfull).
    unfold solve_backtracking_propagation. rewrite Hrun.
    eexists _, _. split; [reflexivity|]. now apply run_result.
Qed.

Lemma solvers_sound_witness :
  (is_9x9 classic = true /\ cells_in_range classic = true) /\
  sound_result classic (solve_bruteforce classic []) /\
  sound_result classic (solve_backtracking_propagation classic []).
Proof.
  split; [split; reflexivity|].
  apply (solvers_sound classic []); reflexivity.
Defined.

Lemma solve_bruteforce_unfold (g : Board) (m : Moves) :
  solve_bruteforce g m =
    match bf_bt budget g m with
    | None => None
    | Some (ok, b, m') => Some (if ok then Some b else None, m')
    end.
Proof.
  unfold solve_bruteforce, solve_bruteforce_run.
  now rewrite board_deep_copy.
Qed.

(** What a run of strategy A on a 9x9 grid leaves. *)
Lemma bruteforce_run_result (g : Board) (m : Moves) :
  is_9x9 g = true ->
  exists ok b' m',
    bf_bt budget g m = Some (ok, b', m') /\
    bf_result g m (ok, b', m') /\
    (consistent g -> digits_ok g -> consistent b' /\ digits_ok b').
Proof.
  intros Hwf.
  destruct (@bf_bt_returns Board board_ops board_laws no_frame
              (fun _ => I) (fun _ _ _ _ _ => I) (fun _ _ _ _ => I) g m Hwf)
    as ([[ok b'] m'] & Hrun & (_ & _ & Hinv & _) & _).
  exists ok, b', m'. split; [assumption|]. split; [|exact Hinv].
  exact (@bf_bt_result Board board_ops board_laws budget g m _ Hwf Hrun).
Qed.

(** X7: strategy A is exhaustive.  On a 9x9 grid it returns; when it returns
    "no solution" the grid has no valid completion, and when the grid has a
    valid completion it returns one. *)
Theorem bruteforce_complete (g : Board) (m : Moves) :
  is_9x9 g = true ->
  exists res tr,
    solve_bruteforce g m = Some (res, tr) /\
    (res = None -> forall s, ~ completion g s) /\
    ((exists s, completion g s) ->
     exists sol, res = Some sol /\ completion g sol).
Proof.
  intros Hwf.
  destruct (bruteforce_run_result g m Hwf)
    as (ok & b' & m' & Hrun & (Hwf' & He & _ & Hfail & Hok) & Hinv).
  rewrite solve_bruteforce_unfold, Hrun. eexists _, _.
  split; [reflexivity|]. destruct ok.
  - split; [discriminate|]. intros (s & Hs). exists b'.
    split; [reflexivity|].
    apply completion_completes in Hs.
    destruct (completes_givens g s Hs) as [Hc Hd].
    destruct (Hinv Hc Hd) as [Hc' Hd'].
    apply completes_completion; trivial.
    split; [now apply Hok|]. split; [assumption|].
    split; [assumption | exact He].
  - destruct (Hfail eq_refl) as [_ Hnone]. split.
    + intros _ s Hs. apply (Hnone s). now apply completion_completes.
    + intros (s & Hs). exfalso. apply (Hnone s).
      now apply completion_completes.
Qed.

Lemma bruteforce_complete_witness :
  is_9x9 classic = true /\
  exists res tr,
    solve_bruteforce classic [] = Some (res, tr) /\
    (res = None -> forall s, ~ completion classic s) /\
    ((exists s, completion classic s) ->
     exists sol, res = Some sol /\ completion classic sol).
Proof.
  split; [reflexivity|]. apply (bruteforce_complete classic []). reflexivity.
Defined.



(** X9: in the trace of strategy A the Try entries that no Backtrack entry
    undoes are the cells of the returned solution that were empty in the
    input; when it returns "no solution" every Try entry is undone. *)
Theorem bruteforce_trace_balance (g : Board) (m : Moves)
    (res : option Board) (tr : Moves) :
  is_9x9 g = true -> solve_bruteforce g m = Some (res, tr) ->
  (tries tr + backtracks m =
   tries m + backtracks tr +
   match res with Some _ => empties g | None => 0 end)%nat.
Proof.
  intros Hwf Hsolve.
  destruct (bruteforce_run_result g m Hwf)
    as (ok & b' & m' & Hrun & (_ & _ & Hcnt & Hfail & Hok) & _).
  rewrite solve_bruteforce_unfold, Hrun in Hsolve.
  injection Hsolve as <- <-. destruct ok.
  - destruct (Hok eq_refl) as [Hfull _].
    assert (Hz := empties_full b' Hfull). lia.
  - destruct (Hfail eq_refl) as [Hsame _].
    assert (Hz := empties_same g b' Hsame). lia.
Qed.

Lemma bruteforce_trace_balance_witness :
  (is_9x9 pair_grid = true /\
   solve_bruteforce pair_grid [] =
     Some (None,
           ["Try r1c1 = 1"%string; "Try r1c2 = 2"%string;
            "Backtrack r1c2 (reset from 2 to 0)"%string;
            "Backtrack r1c1 (reset from 1 to 0)"%string;
            "Try r1c1 = 2"%string; "Try r1c2 = 1"%string;
            "Backtrack r1c2 (reset from 1 to 0)"%string;
            "Backtrack r1c1 (reset from 2 to 0)"%string])) /\
  (tries ["Try r1c1 = 1"%string; "Try r1c2 = 2"%string;
          "Backtrack r1c2 (reset from 2 to 0)"%string;
          "Backtrack r1c1 (reset from 1 to 0)"%string;
          "Try r1c1 = 2"%string; "Try r1c2 = 1"%string;
          "Backtrack r1c2 (reset from 1 to 0)"%string;
          "Backtrack r1c1 (reset from 2 to 0)"%string] + backtracks [] =
   tries [] +
   backtracks ["Try r1c1 = 1"%string; "Try r1c2 = 2"%string;
               "Backtrack r1c2 (reset from 2 to 0)"%string;
               "Backtrack r1c1 (reset from 1 to 0)"%string;
               "Try r1c1 = 2"%string; "Try r1c2 = 1"%string;
               "Backtrack r1c2 (reset from 1 to 0)"%string;
               "Backtrack r1c1 (reset from 2 to 0)"%string] + 0)%nat.
Proof.
  split; [split; vm_compute; reflexivity|].
  apply (bruteforce_trace_balance pair_grid [] None); vm_compute; reflexivity.
Defined.

(** X10: when the search of strategy A fails, its working board is again the
    grid it started from: every placement has been undone. *)
Theorem bruteforce_failure_restores (g : Board) (m : Moves) (b' : Board)
    (m' : Moves) :
  is_9x9 g = true -> solve_bruteforce_run g m = Some (false, b', m') ->
  b' = g.
Proof.
  intros Hwf Hsolve. unfold solve_bruteforce_run in Hsolve.
  rewrite board_deep_copy in Hsolve.
  destruct (@bf_bt_result Board board_ops board_laws budget g m _ Hwf Hsolve)
    as (Hwf' & _ & _ & Hfail & _).
  destruct (Hfail eq_refl) as [Hsame _]. now apply board_ext.
Qed.

Lemma bruteforce_failure_restores_witness :
  (is_9x9 pair_grid = true /\
   solve_bruteforce_run pair_grid [] =
     Some (false, pair_grid,
           ["Try r1c1 = 1"%string; "Try r1c2 = 2"%string;
            "Backtrack r1c2 (reset from 2 to 0)"%string;
            "Backtrack r1c1 (reset from 1 to 0)"%string;
            "Try r1c1 = 2"%string; "Try r1c2 = 1"%string;
            "Backtrack r1c2 (reset from 1 to 0)"%string;
            "Backtrack r1c1 (reset from 2 to 0)"%string])) /\
  pair_grid = pair_grid.
Proof.
  split; [split; vm_compute; reflexivity|].
  apply (bruteforce_failure_restores pair_grid [] pair_grid
           ["Try r1c1 = 1"%string; "Try r1c2 = 2"%string;
            "Backtrack r1c2 (reset from 2 to 0)"%string;
            "Backtrack r1c1 (reset from 1 to 0)"%string;
            "Try r1c1 = 2"%string; "Try r1c2 = 1"%string;
            "Backtrack r1c2 (reset from 1 to 0)"%string;
            "Backtrack r1c1 (reset from 2 to 0)"%string]);
    vm_compute; reflexivity.
Defined.

(** ** Strategy B can miss a solution *)

Lemma keeps_givensb_spec (g s : Board) :
  keeps_givensb g s = true -> keeps_givens g s.
Proof.
  intros Hk r c Hg Hnz. unfold keeps_givensb in Hk.
  rewrite forallb_forall in Hk. apply In_grid_cells in Hg.
  apply Hk in Hg. apply orb_true_iff in Hg as [Hz | Heq].
  - apply Z.eqb_eq in Hz. contradiction.
  - now apply Z.eqb_eq.
Qed.

(** X11: strategy B is not exhaustive.  The built-in puzzle
    [MEDIUM_PUZZLES[0]] has conflict-free givens and a valid completion,
    which strategy A returns, and strategy B returns "no solution" on it. *)
Theorem propagation_search_misses_solution :
  (is_9x9 medium_puzzle_0 = true /\
   cells_in_range medium_puzzle_0 = true /\
   givens_consistent medium_puzzle_0 = true /\
   completion medium_puzzle_0 medium_solution_0 /\
   option_map fst (solve_bruteforce medium_puzzle_0 []) =
     Some (Some medium_solution_0) /\
   option_map fst (solve_backtracking_propagation medium_puzzle_0 []) =
     Some None) /\
  ~ (forall g, is_9x9 g = true -> cells_in_range g = true ->
               givens_consistent g = true -> (exists s, completion g s) ->
               exists sol tr,
                 solve_backtracking_propagation g [] = Some (Some sol, tr)).
Proof.
  assert (Hcomp : completion medium_puzzle_0 medium_solution_0).
  { split; [reflexivity|]. split; [|vm_compute; reflexivity].
    apply keeps_givensb_spec. vm_compute. reflexivity. }
  assert (Hnone : option_map fst
                    (solve_backtracking_propagation medium_puzzle_0 []) =
                  Some None) by (vm_compute; reflexivity).
  split.
  - split; [reflexivity|]. split; [reflexivity|]. split; [reflexivity|].
    split; [exact Hcomp|]. split; [vm_compute; reflexivity | exact Hnone].
  - intros Hall.
    destruct (Hall medium_puzzle_0 eq_refl eq_refl eq_refl
                (ex_intro _ _ Hcomp)) as (sol & tr & Hsolve).
    rewrite Hsolve in Hnone. clear Hsolve. discriminate Hnone.
Qed.

(** ** The trace is only appended to *)

Section TraceFacts.
Context {B : Type} `{BoardLaws B}.

Lemma propagate_cell_trace (b : B) (m t : Moves) (p : bool) (rc : Z * Z) :
  propagate_cell (b, m ++ t, p) rc =
    let '(b', t', p') := propagate_cell (b, t, p) rc in (b', m ++ t', p').
Proof.
  destruct rc as [r c]. unfold propagate_cell.
  destruct (cell b r c =? 0); [|reflexivity].
  destruct (candidates b r c) as [|val [|]]; try reflexivity.
  now rewrite app_assoc.
Qed.

Lemma propagate_fold_trace (cells : list (Z * Z)) :
  forall (b : B) (m t : Moves) (p : bool),
    fold_left propagate_cell cells (b, m ++ t, p) =
      let '(b', t', p') := fold_left propagate_cell cells (b, t, p) in
      (b', m ++ t', p').
Proof.
  induction cells as [|rc cells IH]; intros b m t p; cbn [fold_left];
    [reflexivity|].
  rewrite propagate_cell_trace.
  destruct (propagate_cell (b, t, p) rc) as [[b1 t1] p1]. apply IH.
Qed.

Lemma propagate_loop_trace (fuel : nat) :
  forall (b : B) (m t : Moves) (ch : bool),
    propagate_loop fuel b (m ++ t) ch =
      after_trace m (propagate_loop fuel b t ch).
Proof.
  induction fuel as [|fuel IH]; intros b m t ch; [reflexivity|].
  rewrite !propagate_loop_S, !propagate_pass_unfold, propagate_fold_trace.
  destruct (fold_left propagate_cell grid_cells (b, t, false))
    as [[b1 t1] p1].
  destruct p1; cbn [negb]; [apply IH | reflexivity].
Qed.

Lemma propagate_singles_trace (b : B) (m t : Moves) :
  propagate_singles b (m ++ t) = after_trace m (propagate_singles b t).
Proof. rewrite !propagate_singles_unfold. apply propagate_loop_trace. Qed.

Lemma bf_loop_trace rec (r c : Z) :
  trace_blind rec -> forall vs, trace_blind (bf_loop rec r c vs).
Proof.
  intros Hrec. induction vs as [|v vs IH]; intros b m t; cbn [bf_loop];
    [reflexivity|].
  destruct (is_valid_move b r c v); [|apply IH].
  rewrite <- app_assoc, Hrec.
  destruct (rec (assign b r c v) (t ++ [msg_try r c v]))
    as [[[ok b2] t2]|]; [|reflexivity].
  cbn [after_trace]. destruct ok; [reflexivity|].
  rewrite <- app_assoc. apply IH.
Qed.

Lemma bf_bt_trace (fuel : nat) : trace_blind (bf_bt fuel).
Proof.
  induction fuel as [|fuel IH]; intros b m t; [reflexivity|].
  cbn [bf_bt]. destruct (find_empty b) as [[r c]|]; [|reflexivity].
  now apply bf_loop_trace.
Qed.

Lemma bp_loop_trace rec (r c : Z) :
  trace_blind rec -> forall vs, trace_blind (bp_loop rec r c vs).
Proof.
  intros Hrec. induction vs as [|v vs IH]; intros b m t; cbn [bp_loop];
    [reflexivity|].
  rewrite <- app_assoc.
  destruct (is_valid_move b r c v); [|apply IH].
  rewrite propagate_singles_trace.
  destruct (propagate_singles (assign b r c v) (t ++ [msg_choose r c v]))
    as [[[ch b1] t1]|]; [|reflexivity].
  cbn [after_trace]. rewrite Hrec.
  destruct (rec b1 t1) as [[[ok b2] t2]|]; [|reflexivity].
  cbn [after_trace]. destruct ok; [reflexivity|].
  rewrite <- app_assoc. apply IH.
Qed.

Lemma bp_bt_trace (fuel : nat) : trace_blind (bp_bt fuel).
Proof.
  induction fuel as [|fuel IH]; intros b m t; [reflexivity|].
  cbn [bp_bt]. destruct (select_mrv_cell b) as [[[r c] cand]|];
    [|reflexivity].
  now apply bp_loop_trace.
Qed.

End TraceFacts.

(** X12: the trace is write-only.  Whatever the trace holds on entry, each
    solver and the propagator return what they return on an empty trace,
    and leave the entries that were there, in order, before the ones they
    add. *)
Theorem trace_only_appended (g : Board) (m : Moves) :
  is_9x9 g = true ->
  solve_bruteforce g m = after_trace m (solve_bruteforce g []) /\
  solve_backtracking_propagation g m =
    after_trace m (solve_backtracking_propagation g []) /\
  propagate_singles g m = after_trace m (propagate_singles g []).
Proof.
  intros _.
  assert (Hp : forall b : Board,
            propagate_singles b m = after_trace m (propagate_singles b [])).
  { intros b. rewrite <- (app_nil_r m) at 1. apply propagate_singles_trace. }
  split; [|split; [|apply Hp]].
  - unfold solve_bruteforce, solve_bruteforce_run.
    rewrite <- (app_nil_r m) at 1. rewrite bf_bt_trace.
    destruct (bf_bt budget (deep_copy g) []) as [[[ok b] t]|]; reflexivity.
  - unfold solve_backtracking_propagation,
      solve_backtracking_propagation_run.
    rewrite Hp.
    destruct (propagate_singles (deep_copy g) []) as [[[ch b1] t1]|];
      [|reflexivity].
    cbn [after_trace]. rewrite bp_bt_trace.
    destruct (bp_bt budget b1 t1) as [[[ok b] t]|]; reflexivity.
Qed.

Lemma trace_only_appended_witness :
  is_9x9 pair_grid = true /\
  solve_bruteforce pair_grid ["earlier entry"%string] =
    after_trace ["earlier entry"%string] (solve_bruteforce pair_grid []) /\
  solve_backtracking_propagation pair_grid ["earlier entry"%string] =
    after_trace ["earlier entry"%string]
      (solve_backtracking_propagation pair_grid []) /\
  propagate_singles pair_grid ["earlier entry"%string] =
    after_trace ["earlier entry"%string] (propagate_singles pair_grid []).
Proof.
  split; [reflexivity|].
  apply (trace_only_appended pair_grid ["earlier entry"%string]).
  reflexivity.
Defined.

(** ** Backtracking in strategy B *)

Lemma str_digit (k : Z) :
  1 <= k <= 9 -> str k = String (ascii_of_nat (48 + Z.to_nat k)) EmptyString.
Proof.
  intros Hk.
  assert (Hc : k = 1 \/ k = 2 \/ k = 3 \/ k = 4 \/ k = 5 \/ k = 6 \/ k = 7 \/
               k = 8 \/ k = 9) by lia.
  destruct Hc as [-> | [-> | [-> | [-> | [-> | [-> | [-> | [-> | ->]]]]]]]];
    reflexivity.
Qed.

Lemma digit_ascii_inj (j k : Z) :
  1 <= j <= 9 -> 1 <= k <= 9 ->
  ascii_of_nat (48 + Z.to_nat j) = ascii_of_nat (48 + Z.to_nat k) -> j = k.
Proof.
  intros Hj Hk Heq. apply (f_equal nat_of_ascii) in Heq.
  rewrite !nat_ascii_embedding in Heq by lia. lia.
Qed.

Lemma msg_singleton_inj (r c v r' c' v' : Z) :
  on_grid r c -> 1 <= v <= 9 -> on_grid r' c' -> 1 <= v' <= 9 ->
  msg_singleton r c v = msg_singleton r' c' v' ->
  r = r' /\ c = c' /\ v = v'.
Proof.
  intros [Hr Hc] Hv [Hr' Hc'] Hv'. unfold msg_singleton.
  rewrite (str_digit (r + 1)), (str_digit (c + 1)), (str_digit v),
    (str_digit (r' + 1)), (str_digit (c' + 1)), (str_digit v') by lia.
  cbn [append]. intros Heq. injection Heq as E1 E2 E3.
  apply digit_ascii_inj in E1, E2, E3; lia.
Qed.

Lemma msg_choose_not_singleton (r c v r' c' v' : Z) :
  msg_choose r c v <> msg_singleton r' c' v'.
Proof. unfold msg_choose, msg_singleton. cbn [append]. discriminate. Qed.

Lemma msg_backtrack_not_singleton (r c v r' c' v' : Z) :
  msg_backtrack r c v <> msg_singleton r' c' v'.
Proof. unfold msg_backtrack, msg_singleton. cbn [append]. discriminate. Qed.

Section BranchLog.
Context {B : Type} `{BoardLaws B}.

Lemma logs_refl (b : B) (m : Moves) : well_formed b -> run_logs b m b m.
Proof.
  intros Hwf. split; [assumption|]. split; [apply extends_refl|].
  exists []. split; [now rewrite app_nil_r|]. intros r c v _ _ [].
Qed.

Lemma logs_trans (b1 b2 b3 : B) (m1 m2 m3 : Moves) :
  run_logs b1 m1 b2 m2 -> run_logs b2 m2 b3 m3 -> run_logs b1 m1 b3 m3.
Proof.
  intros (_ & He1 & s1 & -> & Hs1) (Hwf & He2 & s2 & -> & Hs2).
  split; [assumption|]. split; [eapply extends_trans; eassumption|].
  exists (s1 ++ s2). split; [now rewrite app_assoc|].
  intros r c v Hg Hv Hin. apply in_app_or in Hin as [Hin | Hin].
  - destruct (Hs1 r c v Hg Hv Hin) as [Hz Hc]. split; [assumption|].
    rewrite He2; [assumption | assumption | lia].
  - destruct (Hs2 r c v Hg Hv Hin) as [Hz Hc]. split; [|assumption].
    destruct (Z.eq_dec (cell b1 r c) 0) as [|Hnz]; [assumption|].
    rewrite (He1 r c Hg Hnz) in Hz. contradiction.
Qed.

(** An entry that is not a Singleton entry records nothing. *)
Lemma logs_note (b : B) (m : Moves) (e : string) :
  well_formed b -> (forall r c v, e <> msg_singleton r c v) ->
  run_logs b m b (m ++ [e]).
Proof.
  intros Hwf He. split; [assumption|]. split; [apply extends_refl|].
  exists [e]. split; [reflexivity|].
  intros r c v _ _ [Heq | []]. exfalso. exact (He r c v Heq).
Qed.

(** Filling an empty cell with a digit and recording it. *)
Lemma logs_single (b : B) (m : Moves) (r c v : Z) :
  well_formed b -> on_grid r c -> cell b r c = 0 -> 1 <= v <= 9 ->
  run_logs b m (assign b r c v) (m ++ [msg_singleton r c v]).
Proof.
  intros Hwf Hg Hz Hv. split; [now apply wf_assign|].
  split; [now apply fill_extends|].
  exists [msg_singleton r c v]. split; [reflexivity|].
  intros r' c' v' Hg' Hv' [Heq | []].
  apply msg_singleton_inj in Heq as (-> & -> & ->); trivial.
  split; [assumption | now apply cell_assign_same].
Qed.

Lemma propagate_cell_logs (b : B) (m : Moves) (p : bool) (r c : Z) :
  well_formed b -> on_grid r c ->
  let '(b', m', _) := propagate_cell (b, m, p) (r, c) in run_logs b m b' m'.
Proof.
  intros Hwf Hg. unfold propagate_cell.
  destruct (cell b r c =? 0) eqn:E0; [|now apply logs_refl].
  destruct (candidates b r c) as [|val [|y l]] eqn:Hc;
    [now apply logs_refl | | now apply logs_refl].
  assert (Hin : In val (candidates b r c)) by (rewrite Hc; now left).
  apply In_candidates in Hin as (Hz & Hv & _); trivial.
  now apply logs_single.
Qed.

Lemma propagate_fold_logs (cells : list (Z * Z)) :
  (forall r c, In (r, c) cells -> on_grid r c) ->
  forall (b : B) (m : Moves) (p : bool), well_formed b ->
    let '(b', m', _) := fold_left propagate_cell cells (b, m, p) in
    run_logs b m b' m'.
Proof.
  induction cells as [|[r c] cells IH]; intros Hcells b m p Hwf;
    cbn [fold_left]; [now apply logs_refl|].
  assert (H1 := propagate_cell_logs b m p r c Hwf (Hcells r c (or_introl eq_refl))).
  destruct (propagate_cell (b, m, p) (r, c)) as [[b1 m1] p1].
  assert (H2 := IH (fun r c Hin => Hcells r c (or_intror Hin)) b1 m1 p1
                  (proj1 H1)).
  destruct (fold_left propagate_cell cells (b1, m1, p1)) as [[b2 m2] p2].
  eapply logs_trans; eassumption.
Qed.

Lemma propagate_loop_logs (fuel : nat) :
  forall (b : B) (m : Moves) (ch ch' : bool) (b' : B) (m' : Moves),
    well_formed b -> propagate_loop fuel b m ch = Some (ch', b', m') ->
    run_logs b m b' m'.
Proof.
  induction fuel as [|fuel IH]; intros b m ch ch' b' m' Hwf; [discriminate|].
  rewrite propagate_loop_S, propagate_pass_unfold.
  assert (H1 := propagate_fold_logs grid_cells
                  (fun r c => proj1 (In_grid_cells r c)) b m false Hwf).
  destruct (fold_left propagate_cell grid_cells (b, m, false))
    as [[b1 m1] p1].
  destruct p1; cbn [negb].
  - intros Hrun. apply (logs_trans _ _ _ _ _ _ H1).
    exact (IH b1 m1 true ch' b' m' (proj1 H1) Hrun).
  - intros [= _ <- <-]. exact H1.
Qed.

Lemma propagate_singles_logs (b : B) (m : Moves) (ch : bool) (b' : B)
    (m' : Moves) :
  well_formed b -> propagate_singles b m = Some (ch, b', m') ->
  run_logs b m b' m'.
Proof. rewrite propagate_singles_unfold. apply propagate_loop_logs. Qed.

(** A branch of the loop: the cell is filled, the branch runs from the
    filled board, and the cell is reset. *)
Lemma logs_branch (b b2 : B) (m m2 : Moves) (r c v : Z) :
  well_formed b -> on_grid r c -> cell b r c = 0 -> v <> 0 ->
  run_logs (assign b r c v) m b2 m2 ->
  run_logs b m b2 m2 /\ run_logs b m (assign b2 r c 0) m2.
Proof.
  intros Hwf Hg Hz Hv (Hwf2 & He & suf & -> & Hs).
  assert (Hfill : extends b (assign b r c v)) by now apply fill_extends.
  assert (Hother : forall r' c', on_grid r' c' ->
            cell (assign b r c v) r' c' = 0 ->
            (r', c') <> (r, c) /\ cell b r' c' = 0).
  { intros r' c' Hg' Hz'.
    assert (Hne : (r', c') <> (r, c)).
    { intros [= -> ->]. rewrite cell_assign_same in Hz'; trivial.
      contradiction. }
    split; [assumption|].
    now rewrite cell_assign_other in Hz'. }
  split.
  - split; [assumption|]. split; [eapply extends_trans; eassumption|].
    exists suf. split; [reflexivity|]. intros r' c' v' Hg' Hv' Hin.
    destruct (Hs r' c' v' Hg' Hv' Hin) as [Hz' Hc].
    split; [now apply Hother | assumption].
  - split; [now apply wf_assign|]. split.
    + intros r' c' Hg' Hnz.
      assert (Hne : (r', c') <> (r, c)) by (intros [= -> ->]; contradiction).
      rewrite cell_assign_other by assumption.
      rewrite He; [now apply cell_assign_other | assumption|].
      now rewrite cell_assign_other.
    + exists suf. split; [reflexivity|]. intros r' c' v' Hg' Hv' Hin.
      destruct (Hs r' c' v' Hg' Hv' Hin) as [Hz' Hc].
      destruct (Hother r' c' Hg' Hz') as [Hne Hz0].
      split; [assumption|]. now rewrite cell_assign_other.
Qed.

Lemma bp_loop_logs rec (r c : Z) :
  rec_logs rec -> on_grid r c ->
  forall vs (b : B) (m : Moves) ok b' m',
    well_formed b -> cell b r c = 0 -> (forall v, In v vs -> v <> 0) ->
    bp_loop rec r c vs b m = Some (ok, b', m') -> run_logs b m b' m'.
Proof.
  intros Hrec Hg. induction vs as [|v vs IH];
    intros b m ok b' m' Hwf Hz Hvs; cbn [bp_loop].
  - intros [= _ <- <-]. now apply logs_refl.
  - assert (Hvs' : forall x, In x vs -> x <> 0)
      by (intros; apply Hvs; now right).
    assert (Hv : v <> 0) by (apply Hvs; now left).
    assert (Hnote : run_logs b m b (m ++ [msg_choose r c v])).
    { apply logs_note; [assumption|]. intros. apply msg_choose_not_singleton. }
    destruct (is_valid_move b r c v).
    2:{ intros Hrun. apply (logs_trans _ _ _ _ _ _ Hnote).
        exact (IH b _ ok b' m' Hwf Hz Hvs' Hrun). }
    assert (Hwf0 : well_formed (assign b r c v)) by now apply wf_assign.
    destruct (propagate_singles (assign b r c v) (m ++ [msg_choose r c v]))
      as [[[ch b1] m1]|] eqn:Hprop; [|discriminate].
    assert (H1 := propagate_singles_logs _ _ _ _ _ Hwf0 Hprop).
    destruct (rec b1 m1) as [[[ok2 b2] m2]|] eqn:Hrun2; [|discriminate].
    assert (H2 := Hrec b1 m1 ok2 b2 m2 (proj1 H1) Hrun2).
    assert (H12 := logs_trans _ _ _ _ _ _ H1 H2).
    destruct (logs_branch b b2 _ m2 r c v Hwf Hg Hz Hv H12) as [Hkeep Hreset].
    destruct ok2.
    + intros [= _ <- <-]. exact (logs_trans _ _ _ _ _ _ Hnote Hkeep).
    + intros Hrun.
      assert (Hwf3 : well_formed (assign b2 r c 0)) by apply Hreset.
      apply (logs_trans _ _ _ _ _ _ Hnote).
      apply (logs_trans _ _ _ _ _ _ Hreset).
      apply (logs_trans _ (assign b2 r c 0) _ _ (m2 ++ [msg_backtrack r c v]) _).
      * apply logs_note; [assumption|].
        intros. apply msg_backtrack_not_singleton.
      * apply (IH _ _ ok b' m'); trivial.
        apply cell_assign_same; [apply H12 | assumption].
Qed.

Lemma bp_bt_logs (fuel : nat) : rec_logs (bp_bt fuel).
Proof.
  induction fuel as [|fuel IH]; intros b m ok b' m' Hwf; [discriminate|].
  cbn [bp_bt]. destruct (select_mrv_cell b) as [[[r c] cand]|] eqn:Hsel.
  - apply select_mrv_cell_some in Hsel as (Hg & Hz & ->).
    apply bp_loop_logs; trivial.
    intros v Hv. apply (Permutation_in _ (sorted_perm _)) in Hv.
    apply In_candidates in Hv as (_ & Hv & _); trivial. lia.
  - intros [= _ <- <-]. now apply logs_refl.
Qed.

End BranchLog.


(** C10: at a node of strategy B with branched cell (r, c), let [v] pass the
    re-check on the node's board [g], let [b1] be the board after placing
    [v] and propagating, and let the recursive call fail leaving [b2] and
    the trace [m2].  Then the loop goes on with the remaining candidates on
    the board [next] obtained from [b2] by resetting (r, c) alone: (r, c)
    is 0 in it and it agrees with [b2] on every other cell.  It still holds
    every value that propagation wrote in the failed branch, at the node
    and at any depth below it: each cell for which the branch added an
    entry "Singleton" to the trace was empty when the branch started and
    holds the value of the entry in [next]. *)
Theorem backtrack_resets_only_branch_cell (g : Board) (r c v : Z)
    (vs : list Z) (m : Moves) (fuel : nat) (ch : bool) (b1 b2 : Board)
    (m1 m2 : Moves) :
  is_9x9 g = true -> on_grid r c -> v <> 0 ->
  is_valid_move g r c v = true ->
  propagate_singles (assign g r c v) (m ++ [msg_choose r c v]) =
    Some (ch, b1, m1) ->
  bp_bt fuel b1 m1 = Some (false, b2, m2) ->
  let next := assign b2 r c 0 in
  bp_loop (bp_bt fuel) r c (v :: vs) g m =
    bp_loop (bp_bt fuel) r c vs next (m2 ++ [msg_backtrack r c v]) /\
  cell next r c = 0 /\
  (forall r' c', on_grid r' c' -> (r', c') <> (r, c) ->
                 cell next r' c' = cell b2 r' c') /\
  (forall r' c', on_grid r' c' ->
                 cell (assign g r c v) r' c' = 0 -> cell b1 r' c' <> 0 ->
                 cell next r' c' = cell b1 r' c') /\
  exists branch,
    m2 = (m ++ [msg_choose r c v]) ++ branch /\
    forall r' c' v', on_grid r' c' -> 1 <= v' <= 9 ->
      In (msg_singleton r' c' v') branch ->
      cell (assign g r c v) r' c' = 0 /\ cell next r' c' = v'.
Proof.
  intros Hwf Hg Hv Hleg Hprop Hrun next.
  assert (Hwf0 : is_9x9 (assign g r c v) = true) by now apply board_wf_assign.
  assert (H1 := @propagate_singles_logs Board board_ops board_laws
                  _ _ _ _ _ Hwf0 Hprop).
  assert (Hwf1 : is_9x9 b1 = true) by apply H1.
  assert (H2 := @bp_bt_logs Board board_ops board_laws fuel
                  b1 m1 false b2 m2 Hwf1 Hrun).
  destruct (@logs_trans Board board_ops board_laws _ _ _ _ _ _ H1 H2)
    as (Hwf2 & He & branch & Hm2 & Hkept).
  assert (Hsame : cell (assign g r c v) r c = v)
    by exact (@cell_assign_same Board board_ops board_laws g r c v Hwf Hg).
  assert (Hother : forall r' c', on_grid r' c' -> (r', c') <> (r, c) ->
            cell next r' c' = cell b2 r' c').
  { intros r' c' Hg' Hne.
    exact (@cell_assign_other Board board_ops board_laws b2 r c 0 r' c'
             Hwf2 Hg Hg' Hne). }
  assert (Hstart : forall r' c', cell (assign g r c v) r' c' = 0 ->
            (r', c') <> (r, c)).
  { intros r' c' Hz [= -> ->]. rewrite Hsame in Hz. contradiction. }
  split; [|split; [|split; [|split]]].
  - cbn [bp_loop]. now rewrite Hleg, Hprop, Hrun.
  - exact (@cell_assign_same Board board_ops board_laws b2 r c 0 Hwf2 Hg).
  - exact Hother.
  - intros r' c' Hg' Hz Hnz.
    rewrite (Hother r' c' Hg' (Hstart r' c' Hz)).
    destruct H2 as (_ & He2 & _). now apply He2.
  - exists branch. split; [exact Hm2|].
    intros r' c' v' Hg' Hv' Hin.
    destruct (Hkept r' c' v' Hg' Hv' Hin) as [Hz Hc].
    split; [assumption|].
    now rewrite (Hother r' c' Hg' (Hstart r' c' Hz)).
Qed.

Lemma backtrack_resets_only_branch_cell_witness :
  (is_9x9 medium_node_0 = true /\ on_grid 1 3 /\ 2 <> 0 /\
   is_valid_move medium_node_0 1 3 2 = true /\
   propagate_singles (assign medium_node_0 1 3 2)
       (firstn 2 medium_branch_trace_0 ++ [msg_choose 1 3 2]) =
     Some (true, medium_node_filled_0, firstn 6 medium_branch_trace_0) /\
   bp_bt (budget - 3) medium_node_filled_0 (firstn 6 medium_branch_trace_0) =
     Some (false, medium_node_failed_0, firstn 58 medium_branch_trace_0)) /\
  let next := assign medium_node_failed_0 1 3 0 in
  bp_loop (bp_bt (budget - 3)) 1 3 [2; 3] medium_node_0
      (firstn 2 medium_branch_trace_0) =
    bp_loop (bp_bt (budget - 3)) 1 3 [3] next
      (firstn 58 medium_branch_trace_0 ++ [msg_backtrack 1 3 2]) /\
  cell next 1 3 = 0 /\
  (forall r' c', on_grid r' c' -> (r', c') <> (1, 3) ->
                 cell next r' c' = cell medium_node_failed_0 r' c') /\
  (forall r' c', on_grid r' c' ->
                 cell (assign medium_node_0 1 3 2) r' c' = 0 ->
                 cell medium_node_filled_0 r' c' <> 0 ->
                 cell next r' c' = cell medium_node_filled_0 r' c') /\
  exists branch,
    firstn 58 medium_branch_trace_0 =
      (firstn 2 medium_branch_trace_0 ++ [msg_choose 1 3 2]) ++ branch /\
    forall r' c' v', on_grid r' c' -> 1 <= v' <= 9 ->
      In (msg_singleton r' c' v') branch ->
      cell (assign medium_node_0 1 3 2) r' c' = 0 /\ cell next r' c' = v'.
Proof.
  split.
  - split; [reflexivity|]. split; [unfold on_grid; lia|].
    split; [lia|]. split; [reflexivity|]. split; vm_compute; reflexivity.
  - apply (backtrack_resets_only_branch_cell medium_node_0 1 3 2 [3]
             (firstn 2 medium_branch_trace_0) (budget - 3) true
             medium_node_filled_0 medium_node_failed_0
             (firstn 6 medium_branch_trace_0)
             (firstn 58 medium_branch_trace_0));
      [reflexivity | unfold on_grid; lia | lia | reflexivity
      | vm_compute; reflexivity | vm_compute; reflexivity].
Defined.

(** ** The legality re-check of strategy B *)

(** C5: the re-check of strategy B does reject.  On the built-in puzzle
    [MEDIUM_PUZZLES[0]] the entry propagation changes nothing and the root
    node selects r1c9 with candidates 1 and 9.  Value 1 passes the re-check
    and its branch fails, leaving among others the 9 that propagation wrote
    at r1c7.  Only r1c9 is reset, so the re-check rejects 9, the value a
    valid completion of the puzzle has at r1c9, and the search ends with
    "no solution". *)
Theorem recheck_rejects_solution_value :
  propagate_singles (deep_copy medium_puzzle_0) [] =
    Some (false, medium_puzzle_0, []) /\
  select_mrv_cell medium_puzzle_0 = Some (0, 8, [1; 9]) /\
  sorted [1; 9] = [1; 9] /\
  is_valid_move medium_puzzle_0 0 8 1 = true /\
  propagate_singles (assign medium_puzzle_0 0 8 1)
      ([] ++ [msg_choose 0 8 1]) =
    Some (false, assign medium_puzzle_0 0 8 1, [msg_choose 0 8 1]) /\
  bp_bt (budget - 1) (assign medium_puzzle_0 0 8 1) [msg_choose 0 8 1] =
    Some (false, medium_branch_0, medium_branch_trace_0) /\
  In 9 (candidates medium_puzzle_0 0 8) /\
  cell medium_puzzle_0 0 6 = 0 /\
  cell (assign medium_branch_0 0 8 0) 0 6 = 9 /\
  is_valid_move (assign medium_branch_0 0 8 0) 0 8 9 = false /\
  completion medium_puzzle_0 medium_solution_0 /\
  cell medium_solution_0 0 8 = 9 /\
  solve_backtracking_propagation medium_puzzle_0 [] =
    Some (None,
          medium_branch_trace_0 ++
            ["Backtrack r1c9 (reset from 1 to 0)"%string;
             "MRV choose r1c9 try 9"%string]).
Proof.
  assert (Hcomp : completion medium_puzzle_0 medium_solution_0).
  { split; [reflexivity|]. split; [|vm_compute; reflexivity].
    apply keeps_givensb_spec. vm_compute. reflexivity. }
  split; [vm_compute; reflexivity|]. split; [vm_compute; reflexivity|].
  split; [reflexivity|]. split; [vm_compute; reflexivity|].
  split; [vm_compute; reflexivity|]. split; [vm_compute; reflexivity|].
  split; [vm_compute; tauto|]. split; [reflexivity|].
  split; [reflexivity|]. split; [vm_compute; reflexivity|].
  split; [exact Hcomp|]. split; [reflexivity|].
  vm_compute. reflexivity.
Qed.

(** ** The shell: reading a solution text *)

Lemma digit_not_space (ch : ascii) :
  is_space_char ch = true -> is_digit_char ch = false.
Proof.
  unfold is_space_char, is_digit_char. intros H.
  apply orb_true_iff in H as [H | H]; apply andb_true_iff in H as [H1 H2];
    apply Nat.leb_le in H1, H2; apply andb_false_iff;
    left; apply Nat.leb_gt; lia.
Qed.

Lemma digit_not_boundary (ch : ascii) :
  is_line_boundary ch = true -> is_digit_char ch = false.
Proof.
  unfold is_line_boundary, is_digit_char. intros H.
  apply orb_true_iff in H as [H | H]; apply andb_true_iff in H as [H1 H2];
    apply Nat.leb_le in H1, H2; apply andb_false_iff;
    left; apply Nat.leb_gt; lia.
Qed.

Lemma filter_rev_comm {A} (f : A -> bool) (l : list A) :
  filter f (rev l) = rev (filter f l).
Proof.
  induction l as [|a l IH]; [reflexivity|]. simpl.
  rewrite filter_app, IH. simpl. destruct (f a); simpl.
  - reflexivity.
  - apply app_nil_r.
Qed.

Lemma digits_lstrip (l : list ascii) :
  filter is_digit_char (lstrip l) = filter is_digit_char l.
Proof.
  induction l as [|ch l IH]; [reflexivity|]. simpl.
  destruct (is_space_char ch) eqn:Hs; [|reflexivity].
  now rewrite (digit_not_space ch Hs).
Qed.

Lemma digits_strip (l : list ascii) :
  filter is_digit_char (strip l) = filter is_digit_char l.
Proof.
  unfold strip.
  now rewrite filter_rev_comm, digits_lstrip, filter_rev_comm, rev_involutive,
    digits_lstrip.
Qed.

Lemma digits_splitlines_from (n : nat) :
  forall l cur, (length l <= n)%nat ->
    filter is_digit_char (concat (splitlines_from cur l)) =
    filter is_digit_char (cur ++ l).
Proof.
  induction n as [|n IH]; intros l cur Hn.
  - destruct l; [|simpl in Hn; lia]. rewrite app_nil_r.
    destruct cur; [reflexivity|]. simpl. now rewrite app_nil_r.
  - destruct l as [|ch t].
    { rewrite app_nil_r. destruct cur; [reflexivity|]. simpl.
      now rewrite app_nil_r. }
    simpl in Hn.
    assert (Hcut : forall t', (length t' <= n)%nat ->
              is_digit_char ch = false ->
              filter is_digit_char (concat (cur :: splitlines_from [] t')) =
              filter is_digit_char (cur ++ ch :: t')).
    { intros t' Ht' Hd. simpl. rewrite !filter_app. simpl. rewrite Hd.
      now rewrite IH. }
    cbn [splitlines_from].
    destruct (code ch =? 13)%nat eqn:Hcr.
    + assert (Hd : is_digit_char ch = false).
      { apply Nat.eqb_eq in Hcr. unfold is_digit_char. now rewrite Hcr. }
      destruct t as [|ch' t'].
      * apply Hcut; [simpl; lia | assumption].
      * destruct (code ch' =? 10)%nat eqn:Hlf.
        -- assert (Hd' : is_digit_char ch' = false).
           { apply Nat.eqb_eq in Hlf. unfold is_digit_char. now rewrite Hlf. }
           simpl. rewrite !filter_app. simpl. rewrite Hd, Hd'.
           rewrite IH; [reflexivity | simpl in Hn; lia].
        -- apply Hcut; [lia | assumption].
    + destruct (is_line_boundary ch) eqn:Hb.
      * apply Hcut; [lia | now apply digit_not_boundary].
      * rewrite IH by lia. now rewrite <- app_assoc.
Qed.

Lemma digits_splitlines (l : list ascii) :
  filter is_digit_char (concat (splitlines l)) = filter is_digit_char l.
Proof. exact (digits_splitlines_from (length l) l [] (le_n _)). Qed.

Lemma digits_nonblank_lines (ls : list (list ascii)) :
  filter is_digit_char
    (concat (map strip (filter (fun ln => negb (is_nil (strip ln))) ls))) =
  filter is_digit_char (concat ls).
Proof.
  induction ls as [|ln ls IH]; [reflexivity|]. simpl.
  rewrite filter_app, <- IH, <- (digits_strip ln).
  destruct (strip ln) eqn:Hs; simpl; [reflexivity|].
  rewrite Hs, filter_app. reflexivity.
Qed.

Lemma digit_lines_concat (ls : list (list ascii)) :
  forallb (fun ln => (length ln =? 9)%nat && isdigit ln) ls = true ->
  filter is_digit_char (concat ls) = concat ls /\
  length (concat ls) = (9 * length ls)%nat /\
  Forall (fun ln => length ln = 9%nat) ls.
Proof.
  induction ls as [|ln ls IH]; intros H.
  - repeat split; constructor.
  - simpl in H. apply andb_true_iff in H as [H1 H2].
    apply andb_true_iff in H1 as [Hl Hd]. apply Nat.eqb_eq in Hl.
    destruct (IH H2) as (IH1 & IH2 & IH3). simpl.
    rewrite filter_app, IH1, length_app, IH2, Hl.
    split; [|split; [lia | now constructor]].
    f_equal. destruct ln; [discriminate|]. unfold isdigit in Hd.
    apply forallb_filter_id. exact Hd.
Qed.

Lemma flat_rows (ds : list ascii) :
  map (fun r =>
         map (fun c => int_of_char (nth (Z.to_nat (r * 9 + c)) ds "0"%char))
             (range 0 9))
      (range 0 9) =
  board_of_digits (map int_of_char ds).
Proof.
  unfold board_of_digits. apply map_ext. intros r. apply map_ext. intros c.
  symmetry. exact (map_nth int_of_char ds "0"%char _).
Qed.

Lemma line_rows (ls : list (list ascii)) :
  length ls = 9%nat -> Forall (fun ln => length ln = 9%nat) ls ->
  map (fun ln => map int_of_char ln) ls =
  board_of_digits (map int_of_char (concat ls)).
Proof.
  intros Hl Hrows.
  do 10 (destruct ls as [|? ls]; try discriminate).
  repeat match goal with
         | H : Forall _ (_ :: _) |- _ => inversion H; subst; clear H
         end.
  repeat match goal with
         | H : length ?l = 9%nat |- _ =>
             do 10 (destruct l as [|? l]; try discriminate H); clear H
         end.
  reflexivity.
Qed.

(** ** Tabulated boards *)

Lemma index_cases (r : Z) :
  0 <= r < 9 ->
  r = 0 \/ r = 1 \/ r = 2 \/ r = 3 \/ r = 4 \/ r = 5 \/ r = 6 \/ r = 7 \/
  r = 8.
Proof. lia. Qed.

Lemma nth_tabulate {A} (f : Z -> A) (d : A) (r : Z) :
  0 <= r < 9 -> nth (Z.to_nat r) (map f (range 0 9)) d = f r.
Proof.
  intros Hr.
  destruct (index_cases r Hr) as [-> | [-> | [-> | [-> | [-> | [-> | [-> |
    [-> | ->]]]]]]]]; reflexivity.
Qed.

Lemma cell_tabulate (f : Z -> Z -> Z) (r c : Z) :
  on_grid r c ->
  cell (map (fun r => map (fun c => f r c) (range 0 9)) (range 0 9)) r c =
  f r c.
Proof.
  intros [Hr Hc]. cbn [cell board_ops]. unfold board_cell.
  rewrite (nth_tabulate (fun r => map (fun c => f r c) (range 0 9)) [] r Hr).
  exact (nth_tabulate (fun c => f r c) 0 c Hc).
Qed.

Lemma is_9x9_tabulate {A} (f : Z -> Z -> A) :
  (length (map (fun r => map (fun c => f r c) (range 0 9)) (range 0 9))
   =? 9)%nat
  && forallb (fun row => (length row =? 9)%nat)
       (map (fun r => map (fun c => f r c) (range 0 9)) (range 0 9)) = true.
Proof. reflexivity. Qed.

Lemma board_as_cells (b : Board) :
  is_9x9 b = true ->
  map (fun r => map (fun c => cell b r c) (range 0 9)) (range 0 9) = b.
Proof.
  intros Hwf. apply (board_ext b _ Hwf).
  - exact (is_9x9_tabulate (fun r c => cell b r c)).
  - intros r c Hg. exact (cell_tabulate (fun r c => cell b r c) r c Hg).
Qed.

Lemma cells_in_range_spec (b : Board) :
  cells_in_range b = true <->
  forall r c, on_grid r c -> 0 <= cell b r c <= 9.
Proof.
  unfold cells_in_range. rewrite forallb_forall. split.
  - intros H r c Hg. apply In_grid_cells in Hg. apply H in Hg.
    apply andb_true_iff in Hg as [H1 H2].
    apply Z.leb_le in H1, H2. lia.
  - intros H [r c] Hin. apply In_grid_cells in Hin.
    specialize (H r c Hin). apply andb_true_iff.
    split; apply Z.leb_le; lia.
Qed.

(** ** Entry texts *)

Lemma cell_text_cases (v : Z) :
  0 <= v <= 9 ->
  validate_digit (cell_text v) = true /\ cell_value (cell_text v) = v.
Proof.
  intros Hv.
  assert (H : v = 0 \/ v = 1 \/ v = 2 \/ v = 3 \/ v = 4 \/ v = 5 \/ v = 6 \/
              v = 7 \/ v = 8 \/ v = 9) by lia.
  destruct H as [-> | [-> | [-> | [-> | [-> | [-> | [-> | [-> | [-> | ->]]]]]]]]];
    split; reflexivity.
Qed.

Lemma validated_text_cases (s : string) :
  validate_digit s = true ->
  0 <= cell_value s <= 9 /\ cell_text (cell_value s) = s.
Proof.
  destruct s as [|a s]; [intros _; split; [vm_compute; split; discriminate | reflexivity]|].
  destruct s as [|a' s]; [|discriminate].
  destruct a as [[] [] [] [] [] [] [] []]; intros H;
    try discriminate H; clear H;
    (split; [vm_compute; split; discriminate | reflexivity]).
Qed.

(** X16: the texts the entry validator admits are exactly the texts the
    shell writes for the values 0..9 (the empty text for 0), and such a
    text is read back by [_get_board] as the value it was written for. *)
Theorem validated_text_is_digit (s : string) :
  validate_digit s = true <->
  exists v, 0 <= v <= 9 /\ s = cell_text v /\ cell_value s = v.
Proof.
  split.
  - intros H. destruct (validated_text_cases s H) as [Hr Ht].
    exists (cell_value s). split; [assumption|]. split; [now symmetry | reflexivity].
  - intros (v & Hv & -> & _). now apply cell_text_cases.
Qed.

(** X17: [_set_board] followed by [_get_board] gives the grid back.  For a
    9x9 grid with cells in 0..9 the board read from the entries after
    [_set_board] is the grid itself, every text written passes the entry
    validator, and a cell is marked as given exactly when the grid is shown
    as givens and the cell is filled. *)
Theorem set_board_get_board (b : Board) (as_given : bool) :
  is_9x9 b = true -> cells_in_range b = true ->
  get_board (board_vars (set_board b as_given)) = b /\
  (forall r c, on_grid r c ->
     validate_digit (var_get (board_vars (set_board b as_given)) r c) = true) /\
  (forall r c, on_grid r c ->
     mask_get (given_mask (set_board b as_given)) r c =
     as_given && negb (cell b r c =? 0)).
Proof.
  intros Hwf Hrange. rewrite cells_in_range_spec in Hrange.
  assert (Hvar : forall r c, on_grid r c ->
            var_get (board_vars (set_board b as_given)) r c =
            cell_text (cell b r c)).
  { intros r c [Hr Hc]. unfold var_get, set_board. cbn [board_vars].
    rewrite (nth_tabulate
               (fun r => map (fun c => cell_text (cell b r c)) (range 0 9))
               [] r Hr).
    exact (nth_tabulate (fun c => cell_text (cell b r c)) EmptyString c Hc). }
  split; [|split].
  - rewrite <- (board_as_cells b Hwf) at 2. unfold get_board.
    apply map_ext_in. intros r Hr. apply map_ext_in. intros c Hc.
    apply In_range in Hr, Hc.
    rewrite Hvar by (split; assumption).
    apply cell_text_cases, Hrange. split; assumption.
  - intros r c Hg. rewrite (Hvar r c Hg). now apply cell_text_cases, Hrange.
  - intros r c [Hr Hc]. unfold mask_get, set_board. cbn [given_mask].
    rewrite (nth_tabulate
               (fun r => map (fun c => as_given && negb (cell b r c =? 0))
                             (range 0 9))
               [] r Hr).
    exact (nth_tabulate (fun c => as_given && negb (cell b r c =? 0))
             false c Hc).
Qed.

Lemma set_board_get_board_witness :
  is_9x9 classic = true /\ cells_in_range classic = true /\
  (get_board (board_vars (set_board classic true)) = classic /\
   (forall r c, on_grid r c ->
      validate_digit (var_get (board_vars (set_board classic true)) r c)
      = true) /\
   (forall r c, on_grid r c ->
      mask_get (given_mask (set_board classic true)) r c =
      true && negb (cell classic r c =? 0))).
Proof.
  split; [reflexivity|]. split; [reflexivity|].
  apply (set_board_get_board classic true); reflexivity.
Defined.

Lemma rows_of_concat {A} (d : A) (ls : list (list A)) :
  length ls = 9%nat -> Forall (fun ln => length ln = 9%nat) ls ->
  map (fun r => map (fun c => nth (Z.to_nat (r * 9 + c)) (concat ls) d)
                    (range 0 9))
      (range 0 9) = ls.
Proof.
  intros Hl Hrows.
  do 10 (destruct ls as [|? ls]; try discriminate).
  repeat match goal with
         | H : Forall _ (_ :: _) |- _ => inversion H; subst; clear H
         end.
  repeat match goal with
         | H : length ?l = 9%nat |- _ =>
             do 10 (destruct l as [|? l]; try discriminate H); clear H
         end.
  reflexivity.
Qed.

Lemma board_of_digits_concat (b : Board) :
  is_9x9 b = true -> board_of_digits (concat b) = b.
Proof.
  intros Hwf. apply is_9x9_spec in Hwf as [Hl Hrows].
  now apply rows_of_concat.
Qed.

Lemma digit_char_cases (v : Z) :
  0 <= v <= 9 ->
  is_digit_char (digit_char v) = true /\ int_of_char (digit_char v) = v.
Proof.
  intros Hv.
  assert (H : v = 0 \/ v = 1 \/ v = 2 \/ v = 3 \/ v = 4 \/ v = 5 \/ v = 6 \/
              v = 7 \/ v = 8 \/ v = 9) by lia.
  destruct H as [-> | [-> | [-> | [-> | [-> | [-> | [-> | [-> | [-> | ->]]]]]]]]];
    split; reflexivity.
Qed.

Lemma int_of_digit_char (ch : ascii) :
  is_digit_char ch = true -> 0 <= int_of_char ch <= 9.
Proof.
  unfold is_digit_char, int_of_char. intros H.
  apply andb_true_iff in H as [H1 H2]. apply Nat.leb_le in H1, H2. lia.
Qed.

Lemma text_digits_range (text : string) :
  Forall (fun v => 0 <= v <= 9) (text_digits text).
Proof.
  unfold text_digits. apply Forall_forall. intros v Hin.
  apply in_map_iff in Hin as (ch & <- & Hin).
  apply filter_In in Hin as [_ Hd]. now apply int_of_digit_char.
Qed.

Lemma board_of_digits_range (ds : list Z) :
  Forall (fun v => 0 <= v <= 9) ds -> cells_in_range (board_of_digits ds) = true.
Proof.
  intros Hds. apply cells_in_range_spec. intros r c Hg.
  assert (E : cell (board_of_digits ds) r c =
              nth (Z.to_nat (r * 9 + c)) ds 0)
    by exact (cell_tabulate (fun r c => nth (Z.to_nat (r * 9 + c)) ds 0)
                r c Hg).
  rewrite E. clear E.
  rewrite Forall_forall in Hds.
  destruct (nth_in_or_default (Z.to_nat (r * 9 + c)) ds 0) as [Hin | ->];
    [now apply Hds | lia].
Qed.

Lemma parse_solution_spec (text : string) :
  parse_solution text =
    if (length (text_digits text) =? 81)%nat
    then Some (board_of_digits (text_digits text))
    else None.
Proof.
  unfold parse_solution, text_digits.
  set (lines := map strip (filter (fun ln => negb (is_nil (strip ln)))
                                  (splitlines (strip (chars text))))).
  rewrite length_map.
  assert (Hdig : filter is_digit_char (concat lines) =
                 filter is_digit_char (chars text)).
  { unfold lines.
    now rewrite digits_nonblank_lines, digits_splitlines, digits_strip. }
  destruct ((length lines =? 9)%nat &&
            forallb (fun ln => (length ln =? 9)%nat && isdigit ln) lines)
    eqn:Hlines.
  - apply andb_true_iff in Hlines as [Hn Hall]. apply Nat.eqb_eq in Hn.
    destruct (digit_lines_concat lines Hall) as (Hid & Hlen & Hrows).
    rewrite Hid in Hdig. rewrite <- Hdig, Hlen, Hn.
    cbn [Nat.mul Nat.add Nat.eqb]. f_equal. now apply line_rows.
  - destruct (length (filter is_digit_char (chars text)) =? 81)%nat;
      [|reflexivity].
    f_equal. apply flat_rows.
Qed.

Lemma parse_solution_shape (text : string) (b : Board) :
  parse_solution text = Some b -> is_9x9 b = true /\ cells_in_range b = true.
Proof.
  rewrite parse_solution_spec.
  destruct (length (text_digits text) =? 81)%nat; [|discriminate].
  intros [= <-]. split.
  - exact (is_9x9_tabulate
             (fun r c => nth (Z.to_nat (r * 9 + c)) (text_digits text) 0)).
  - apply board_of_digits_range, text_digits_range.
Qed.

Lemma rows_in_range (b : Board) :
  is_9x9 b = true -> cells_in_range b = true ->
  Forall (Forall (fun v => 0 <= v <= 9)) b.
Proof.
  intros Hwf Hrange. rewrite cells_in_range_spec in Hrange.
  assert (H : Forall (Forall (fun v => 0 <= v <= 9))
                (map (fun r => map (fun c => cell b r c) (range 0 9))
                     (range 0 9))).
  { apply Forall_map, Forall_forall. intros r Hr.
    apply Forall_map, Forall_forall. intros c Hc.
    apply In_range in Hr, Hc. apply Hrange. split; assumption. }
  now rewrite (board_as_cells b Hwf) in H.
Qed.

Lemma row_digits (sep : list ascii) (row : list Z) :
  Forall (fun v => 0 <= v <= 9) row ->
  filter is_digit_char sep = [] ->
  map int_of_char (filter is_digit_char (map digit_char row ++ sep)) = row.
Proof.
  intros Hrow Hsep. rewrite filter_app, Hsep, app_nil_r.
  induction Hrow as [|v row Hv _ IH]; [reflexivity|].
  destruct (digit_char_cases v Hv) as [Hd Hi].
  cbn [map filter]. rewrite Hd. cbn [map]. now rewrite Hi, IH.
Qed.

Lemma rows_digits (sep : list ascii) (b : Board) :
  Forall (Forall (fun v => 0 <= v <= 9)) b ->
  filter is_digit_char sep = [] ->
  map int_of_char
    (filter is_digit_char
       (concat (map (fun row => map digit_char row ++ sep) b))) = concat b.
Proof.
  intros Hb Hsep. induction Hb as [|row b Hrow _ IH]; [reflexivity|].
  cbn [map concat]. rewrite filter_app, map_app, IH.
  now rewrite (row_digits sep row Hrow Hsep).
Qed.

Lemma concat_length_81 (b : Board) :
  is_9x9 b = true -> length (concat b) = 81%nat.
Proof.
  intros Hwf. apply is_9x9_spec in Hwf as [Hl Hrows].
  do 10 (destruct b as [|? b]; try discriminate).
  repeat match goal with
         | H : Forall _ (_ :: _) |- _ => inversion H; subst; clear H
         end.
  cbn [concat]. rewrite !length_app.
  repeat match goal with
         | H : length _ = 9%nat |- _ => rewrite H; clear H
         end.
  reflexivity.
Qed.

Lemma parse_of_digits (text : string) (b : Board) :
  is_9x9 b = true -> text_digits text = concat b ->
  parse_solution text = Some b.
Proof.
  intros Hwf Hd. rewrite parse_solution_spec, Hd, (concat_length_81 b Hwf).
  cbn [Nat.eqb]. f_equal. now apply board_of_digits_concat.
Qed.

(** X14: both formats the dialogs ask for are read back.  For a 9x9 grid
    with cells in 0..9, [_parse_solution] returns the grid itself on its 81
    digits written one row after the other and on its nine rows written as
    nine lines of nine digits. *)
Theorem parse_solution_round_trip (b : Board) :
  is_9x9 b = true -> cells_in_range b = true ->
  parse_solution (flat_text b) = Some b /\
  parse_solution (lines_text b) = Some b.
Proof.
  intros Hwf Hrange. assert (Hrows := rows_in_range b Hwf Hrange).
  split; apply parse_of_digits; trivial.
  - unfold text_digits, flat_text, chars.
    rewrite list_ascii_of_string_of_list_ascii.
    rewrite <- (rows_digits [] b Hrows eq_refl). do 3 f_equal.
    apply map_ext. intros row. now rewrite app_nil_r.
  - unfold text_digits, lines_text, chars.
    rewrite list_ascii_of_string_of_list_ascii.
    exact (rows_digits ["010"%char] b Hrows eq_refl).
Qed.

Lemma parse_solution_round_trip_witness :
  is_9x9 classic_solution = true /\ cells_in_range classic_solution = true /\
  (parse_solution (flat_text classic_solution) = Some classic_solution /\
   parse_solution (lines_text classic_solution) = Some classic_solution).
Proof.
  split; [reflexivity|]. split; [reflexivity|].
  apply (parse_solution_round_trip classic_solution); reflexivity.
Defined.

(** X13: [_parse_solution] only looks at the digit characters of the text.
    On a text of characters below 128 it returns a grid exactly when the
    text holds 81 digit characters, whatever else stands between them, and
    the grid is then made of these digits in order, nine per row: the
    nine-lines form never gives another grid than the 81-digits form.  A
    grid it returns is 9x9 with cells in 0..9. *)
Theorem parse_solution_reads_digits (text : string) :
  is_ascii_text text = true ->
  parse_solution text =
    (if (length (text_digits text) =? 81)%nat
     then Some (board_of_digits (text_digits text))
     else None) /\
  forall b, parse_solution text = Some b ->
            is_9x9 b = true /\ cells_in_range b = true.
Proof.
  intros _. split; [apply parse_solution_spec | apply parse_solution_shape].
Qed.

Lemma parse_solution_reads_digits_witness :
  is_ascii_text "r1: 534 678 912, r2: 672 195 348" = true /\
  (parse_solution "r1: 534 678 912, r2: 672 195 348" =
     (if (length (text_digits "r1: 534 678 912, r2: 672 195 348") =? 81)%nat
      then Some (board_of_digits
                   (text_digits "r1: 534 678 912, r2: 672 195 348"))
      else None) /\
   forall b, parse_solution "r1: 534 678 912, r2: 672 195 348" = Some b ->
             is_9x9 b = true /\ cells_in_range b = true).
Proof.
  split; [reflexivity|].
  apply (parse_solution_reads_digits "r1: 534 678 912, r2: 672 195 348").
  reflexivity.
Defined.

(** ** Saving and clearing *)

Lemma forallb_false_witness {A} (f : A -> bool) (l : list A) :
  forallb f l = false -> exists x, In x l /\ f x = false.
Proof.
  induction l as [|a l IH]; [discriminate|]. simpl.
  destruct (f a) eqn:Ha.
  - intros H. destruct (IH H) as (x & Hin & Hx). exists x. auto.
  - intros _. exists a. auto.
Qed.

Lemma is_9x9_get_board (vars : list (list string)) :
  is_9x9 (get_board vars) = true.
Proof. exact (is_9x9_tabulate (fun r c => cell_value (var_get vars r c))). Qed.

Lemma bruteforce_solves (g s : Board) (m : Moves) :
  is_9x9 g = true -> completion g s ->
  exists sol tr,
    solve_bruteforce g m = Some (Some sol, tr) /\ completion g sol.
Proof.
  intros Hwf Hs.
  destruct (bruteforce_run_result g m Hwf)
    as (ok & b' & m' & Hrun & (Hwf' & He & _ & Hfail & Hok) & Hinv).
  rewrite solve_bruteforce_unfold, Hrun.
  apply completion_completes in Hs. destruct ok.
  - exists b', m'. split; [reflexivity|].
    destruct (completes_givens g s Hs) as [Hc Hd].
    destruct (Hinv Hc Hd) as [Hc' Hd'].
    apply completes_completion; [assumption|].
    split; [now apply Hok|]. split; [assumption|].
    split; [assumption | exact He].
  - exfalso. destruct (Hfail eq_refl) as [_ Hnone]. exact (Hnone s Hs).
Qed.

(** X15: what [_save_user_puzzle] saves.  When the entries hold validated
    texts and the answer to the dialog is a text of characters below 128,
    a puzzle is saved only together with a grid parsed from the answer that
    is a valid completion of it, appended at the end of the list; the
    puzzle has at least one given, and strategy A then solves it from any
    trace. *)
Theorem saved_puzzle_has_solution (vars : list (list string))
    (answer : option string) (ups ups' : list (Board * Board)) (d : string) :
  entries_valid vars = true -> ascii_answer answer = true ->
  save_user_puzzle vars answer ups = Saved ups' d ->
  exists text sol,
    answer = Some text /\ parse_solution text = Some sol /\
    ups' = ups ++ [(get_board vars, sol)] /\
    (exists r c, on_grid r c /\ cell (get_board vars) r c <> 0) /\
    completion (get_board vars) sol /\
    forall m, exists sol' tr,
      solve_bruteforce (get_board vars) m = Some (Some sol', tr) /\
      completion (get_board vars) sol'.
Proof.
  intros _ _. unfold save_user_puzzle. set (puzzle := get_board vars).
  destruct (forallb (fun '(r, c) => cell puzzle r c =? 0) grid_cells)
    eqn:Hempty; [discriminate|].
  destruct answer as [text|]; [|discriminate].
  destruct (parse_solution text) as [sol|] eqn:Hparse; [|discriminate].
  destruct (is_complete_and_valid sol) eqn:Hvalid; [|discriminate].
  cbn [negb].
  destruct (find _ grid_cells) as [[r c]|] eqn:Hfind; [discriminate|].
  intros [= <- <-]. exists text, sol.
  split; [reflexivity|]. split; [exact Hparse|]. split; [reflexivity|].
  assert (Hcomp : completion puzzle sol).
  { split; [exact (proj1 (parse_solution_shape text sol Hparse))|].
    split; [|assumption].
    intros r c Hg Hnz. apply In_grid_cells in Hg.
    assert (H := find_none _ _ Hfind (r, c) Hg). cbn beta iota in H.
    apply andb_false_iff in H as [H | H]; apply negb_false_iff in H;
      apply Z.eqb_eq in H; congruence. }
  split; [|split; [exact Hcomp|]].
  - destruct (forallb_false_witness _ _ Hempty) as ([r c] & Hin & Hnz).
    exists r, c. split; [now apply In_grid_cells|].
    now apply Z.eqb_neq.
  - intros m. apply (bruteforce_solves puzzle sol m); [|exact Hcomp].
    apply is_9x9_get_board.
Qed.

Lemma saved_puzzle_has_solution_witness :
  entries_valid (board_vars (set_board classic true)) = true /\
  ascii_answer (Some (flat_text classic_solution)) = true /\
  save_user_puzzle (board_vars (set_board classic true))
    (Some (flat_text classic_solution)) [] =
    Saved [(classic, classic_solution)] "User Provided" /\
  exists text sol,
    Some (flat_text classic_solution) = Some text /\
    parse_solution text = Some sol /\
    [(classic, classic_solution)] =
      [] ++ [(get_board (board_vars (set_board classic true)), sol)] /\
    (exists r c, on_grid r c /\
       cell (get_board (board_vars (set_board classic true))) r c <> 0) /\
    completion (get_board (board_vars (set_board classic true))) sol /\
    forall m, exists sol' tr,
      solve_bruteforce (get_board (board_vars (set_board classic true))) m =
        Some (Some sol', tr) /\
      completion (get_board (board_vars (set_board classic true))) sol'.
Proof.
  split; [reflexivity|]. split; [reflexivity|]. split; [reflexivity|].
  apply (saved_puzzle_has_solution (board_vars (set_board classic true))
           (Some (flat_text classic_solution)) []
           [(classic, classic_solution)] "User Provided");
    reflexivity.
Defined.

Lemma shows_puzzle_spec (p : Board) (st : Shell) :
  shows_puzzle p st = true <->
  forall r c, on_grid r c ->
    mask_get (given_mask st) r c = negb (cell p r c =? 0) /\
    (cell p r c <> 0 ->
     var_get (board_vars st) r c = cell_text (cell p r c)).
Proof.
  unfold shows_puzzle. rewrite forallb_forall. split.
  - intros H r c Hg. apply In_grid_cells in Hg. apply H in Hg.
    destruct (cell p r c =? 0) eqn:Hz.
    + apply negb_true_iff in Hg. apply Z.eqb_eq in Hz.
      split; [assumption | contradiction].
    + apply andb_true_iff in Hg as [Hm Ht]. apply String.eqb_eq in Ht.
      split; [assumption | intros _; assumption].
  - intros H [r c] Hin. apply In_grid_cells in Hin.
    destruct (H r c Hin) as [Hm Ht]. rewrite Hm.
    destruct (cell p r c =? 0) eqn:Hz; [reflexivity|].
    apply Z.eqb_neq in Hz. rewrite (Ht Hz). cbn [negb andb].
    apply String.eqb_refl.
Qed.

(** X18: [_clear_puzzle] erases the user's entries and nothing else.  When
    the window shows a 9x9 puzzle with cells in 0..9 (its filled cells are
    the cells marked as given and hold their texts, the other entries hold
    any text), the board read after [_clear_puzzle] is the puzzle, and the
    window still shows it. *)
Theorem clear_puzzle_restores (p : Board) (st : Shell) :
  is_9x9 p = true -> cells_in_range p = true -> shows_puzzle p st = true ->
  get_board (board_vars (clear_puzzle st)) = p /\
  shows_puzzle p (clear_puzzle st) = true.
Proof.
  intros Hwf Hrange Hshow. rewrite cells_in_range_spec in Hrange.
  rewrite shows_puzzle_spec in Hshow.
  assert (Hvar : forall r c, on_grid r c ->
            var_get (board_vars (clear_puzzle st)) r c =
            cell_text (cell p r c)).
  { intros r c Hg. destruct Hg as [Hr Hc].
    unfold var_get at 1. unfold clear_puzzle. cbn [board_vars].
    rewrite (nth_tabulate
               (fun r => map (fun c => if mask_get (given_mask st) r c
                                       then var_get (board_vars st) r c
                                       else EmptyString) (range 0 9))
               [] r Hr).
    rewrite (nth_tabulate
               (fun c => if mask_get (given_mask st) r c
                         then var_get (board_vars st) r c
                         else EmptyString) EmptyString c Hc).
    destruct (Hshow r c (conj Hr Hc)) as [Hm Ht]. rewrite Hm.
    destruct (cell p r c =? 0) eqn:Hz; cbn [negb].
    - apply Z.eqb_eq in Hz. now rewrite Hz.
    - apply Z.eqb_neq in Hz. now apply Ht. }
  split.
  - rewrite <- (board_as_cells p Hwf) at 1. unfold get_board.
    apply map_ext_in. intros r Hr. apply map_ext_in. intros c Hc.
    apply In_range in Hr, Hc.
    rewrite Hvar by (split; assumption).
    apply cell_text_cases, Hrange. split; assumption.
  - apply shows_puzzle_spec. intros r c Hg.
    split; [exact (proj1 (Hshow r c Hg)) | intros _; now apply Hvar].
Qed.

Lemma clear_puzzle_restores_witness :
  is_9x9 classic = true /\ cells_in_range classic = true /\
  shows_puzzle classic
    {| board_vars := board_vars (set_board classic_solution false);
       given_mask := given_mask (set_board classic true) |} = true /\
  (get_board
     (board_vars
        (clear_puzzle
           {| board_vars := board_vars (set_board classic_solution false);
              given_mask := given_mask (set_board classic true) |}))
   = classic /\
   shows_puzzle classic
     (clear_puzzle
        {| board_vars := board_vars (set_board classic_solution false);
           given_mask := given_mask (set_board classic true) |}) = true).
Proof.
  split; [reflexivity|]. split; [reflexivity|]. split; [reflexivity|].
  apply (clear_puzzle_restores classic
           {| board_vars := board_vars (set_board classic_solution false);
              given_mask := given_mask (set_board classic true) |});
    reflexivity.
Defined.
